(** * LegalProof provider: wallet authentication and age-claim lifecycle

    A shallow embedding of the two services of the LegalProof back end,

    - [AuthService]      (src/auth/auth.service.ts): challenge issuance,
      challenge consumption and Casper signature verification;
    - [AgeProofService]  (src/age-proof.service.ts): creation, rotation,
      status resolution, revocation and listing of the AGE_18_PLUS claim,
      in its two revisions: the off-chain one with rotation, and the
      earlier one that anchors every claim on Casper through
      `casper-client`;

    of the two guards, [JwtAuthGuard] and [AdminDebugGuard], and of the
    controllers in front of the services, followed by the properties of
    all of them.

    Conventions of the embedding.
    - A JavaScript string is a [string] of bytes (its UTF-8 encoding), so
      [TextEncoder.encode] is the identity on the underlying bytes.  Every
      string the services accept past validation is ASCII, where bytes and
      UTF-16 code units coincide; case mapping and white space are modelled
      on the ASCII range.
    - A [Date] is its time value, a [Z] of milliseconds since the epoch;
      calendar fields are those of the proleptic Gregorian calendar in UTC.
    - A thrown exception is the [inl] of a result; the state reached when
      the exception escapes is kept next to it.
    - The table age_proofs is a list in insertion order; the position of a
      row is its primary key (ids are serial and no row is ever deleted). *)

From Stdlib Require Import ZArith Lia Ascii DecimalString.
From Stdlib.Strings Require Import Byte.
From stdpp Require Import gmap strings list sorting.

Local Open Scope Z_scope.

(** ** The JavaScript runtime used by the services *)
Module Js.

(** *** Strings *)

Definition code (c : ascii) : N := N_of_ascii c.

Definition between (lo hi : N) (c : ascii) : bool :=
  ((lo <=? code c) && (code c <=? hi))%N.

(** [String.prototype.toLowerCase]. *)
Definition lower_char (c : ascii) : ascii :=
  if between 65 90 c then ascii_of_N (code c + 32) else c.

Fixpoint toLowerCase (s : string) : string :=
  match s with
  | EmptyString => EmptyString
  | String c r => String (lower_char c) (toLowerCase r)
  end.

(** White space and line terminators: TAB, LF, VT, FF, CR and SPACE. *)
Definition is_white_space (c : ascii) : bool :=
  between 9 13 c || (code c =? 32)%N.

Fixpoint trimStart (s : string) : string :=
  match s with
  | EmptyString => EmptyString
  | String c r => if is_white_space c then trimStart r else s
  end.

(** [String.prototype.trim]. *)
Definition trim (s : string) : string :=
  String.rev (trimStart (String.rev (trimStart s))).

(** [s.slice(0, n)] and [s.slice(n)] for [0 <= n]. *)
Fixpoint take (n : nat) (s : string) : string :=
  match n, s with
  | S k, String c r => String c (take k r)
  | _, _ => EmptyString
  end.

Fixpoint drop (n : nat) (s : string) : string :=
  match n, s with
  | S k, String _ r => drop k r
  | _, _ => s
  end.

(** [s.startsWith(p)]. *)
Fixpoint startsWith (p s : string) : bool :=
  match p, s with
  | EmptyString, _ => true
  | String a p', String b s' => Ascii.eqb a b && startsWith p' s'
  | String _ _, EmptyString => false
  end.

(** [s.replace(/^0x/, '')]. *)
Definition strip_0x (s : string) : string :=
  if startsWith "0x" s then drop 2 s else s.

Definition is_lower_hex_digit (c : ascii) : bool :=
  between 48 57 c || between 97 102 c.

Fixpoint all_chars (p : ascii → bool) (s : string) : bool :=
  match s with
  | EmptyString => true
  | String c r => p c && all_chars p r
  end.

(** [/^[0-9a-f]+$/.test(s)]. *)
Definition test_lower_hex (s : string) : bool :=
  match s with
  | EmptyString => false
  | _ => all_chars is_lower_hex_digit s
  end.

(** Decimal rendering of an integer, as in a template literal. *)
Definition string_of_N (n : N) : string :=
  NilZero.string_of_uint (N.to_uint n).

Definition string_of_Z (z : Z) : string :=
  if z <? 0 then "-" +:+ string_of_N (Z.to_N (- z)) else string_of_N (Z.to_N z).

(** *** Bytes *)

Definition byte_of_N (n : N) : byte :=
  default x00 (Byte.of_N (n mod 256)).

(** The conversion applied when a number is stored in a [Uint8Array]. *)
Definition ToUint8 (z : Z) : byte := byte_of_N (Z.to_N (z mod 256)).

Definition hex_digit_value (c : ascii) : option Z :=
  if between 48 57 c then Some (Z.of_N (code c) - 48)
  else if between 97 102 c then Some (Z.of_N (code c) - 87)
  else if between 65 70 c then Some (Z.of_N (code c) - 55)
  else None.

(** [parseInt(s, 16)] on a string [s] of the two characters [a] and [b];
    [None] is NaN.  Leading white space is skipped, one sign is read, a
    prefix 0x or 0X is dropped, and the longest run of digits is the
    value. *)
Definition parseInt16 (a b : ascii) : option Z :=
  if is_white_space a then hex_digit_value b
  else if (code a =? 43)%N then hex_digit_value b
  else if (code a =? 45)%N then Z.opp <$> hex_digit_value b
  else if (code a =? 48)%N && ((code b =? 120) || (code b =? 88))%N then None
  else match hex_digit_value a with
       | None => None
       | Some va => Some (from_option (λ vb, 16 * va + vb) va (hex_digit_value b))
       end.

(** A NaN stored in a [Uint8Array] is 0. *)
Definition hex_pair_byte (a b : ascii) : byte :=
  ToUint8 (default 0 (parseInt16 a b)).

(** [Buffer.toString('hex')]. *)
Definition hex_digit (n : N) : ascii :=
  if (n <? 10)%N then ascii_of_N (48 + n) else ascii_of_N (87 + n).

Fixpoint bytesToHex (bs : list byte) : string :=
  match bs with
  | [] => EmptyString
  | b :: r =>
      let n := Byte.to_N b in
      String (hex_digit (n / 16)) (String (hex_digit (n mod 16)) (bytesToHex r))
  end.

(** [new TextEncoder().encode(s)]. *)
Definition encode (s : string) : list byte := String.list_byte_of_string s.

(** *** Dates (time values in milliseconds, UTC) *)

Definition msPerDay : Z := 86400000.

Definition Day (t : Z) : Z := t / msPerDay.
Definition TimeWithinDay (t : Z) : Z := t mod msPerDay.

(** Year, month (1..12) and day of month of a day number. *)
Definition civil_from_days (days : Z) : Z * Z * Z :=
  let z := days + 719468 in
  let era := z / 146097 in
  let doe := z - era * 146097 in
  let yoe := (doe - doe / 1460 + doe / 36524 - doe / 146096) / 365 in
  let doy := doe - (365 * yoe + yoe / 4 - yoe / 100) in
  let mp := (5 * doy + 2) / 153 in
  let d := doy - (153 * mp + 2) / 5 + 1 in
  let m := if mp <? 10 then mp + 3 else mp - 9 in
  let y := yoe + era * 400 in
  (if m <=? 2 then y + 1 else y, m, d).

(** Day number of a year, month (1..12) and day of month; a day of month
    past the end of the month runs into the next one, as [MakeDay] does. *)
Definition days_from_civil (y m d : Z) : Z :=
  let y := if m <=? 2 then y - 1 else y in
  let era := y / 400 in
  let yoe := y - era * 400 in
  let doy := (153 * (if 2 <? m then m - 3 else m + 9) + 2) / 5 + d - 1 in
  let doe := yoe * 365 + yoe / 4 - yoe / 100 + doy in
  era * 146097 + doe - 719468.

Definition getFullYear (t : Z) : Z := (civil_from_days (Day t)).1.1.
Definition getMonth (t : Z) : Z := (civil_from_days (Day t)).1.2 - 1.
Definition getDate (t : Z) : Z := (civil_from_days (Day t)).2.
Definition getTime (t : Z) : Z := t.

(** [d.setFullYear(y)]: same month, day of month and time of day. *)
Definition setFullYear (t y : Z) : Z :=
  days_from_civil y (getMonth t + 1) 1 * msPerDay
  + (getDate t - 1) * msPerDay + TimeWithinDay t.

Definition pad (width : nat) (n : Z) : string :=
  let s := string_of_N (Z.to_N n) in
  String.concat "" (replicate (width - String.length s) "0") +:+ s.

(** [d.toISOString()]. *)
Definition toISOString (t : Z) : string :=
  let '(y, m, d) := civil_from_days (Day t) in
  let ms := TimeWithinDay t in
  let year :=
    if (0 <=? y) && (y <=? 9999) then pad 4 y
    else (if y <? 0 then "-" else "+") +:+ pad 6 (Z.abs y) in
  year +:+ "-" +:+ pad 2 m +:+ "-" +:+ pad 2 d +:+ "T"
    +:+ pad 2 (ms / 3600000) +:+ ":" +:+ pad 2 (ms / 60000 mod 60) +:+ ":"
    +:+ pad 2 (ms / 1000 mod 60) +:+ "." +:+ pad 3 (ms mod 1000) +:+ "Z".

(** *** Numbers read from text *)

(** A number as [parseInt] gives it: NaN, an infinity, or an integer.  An
    integer beyond 2^53 stands for the double nearest to it, which the
    callers only compare with small constants. *)
Inductive Number : Type :=
  | NaN
  | Infinity (negative : bool)
  | Int (value : Z).

Definition is_digit (c : ascii) : bool := between 48 57 c.

(** The value of the longest run of decimal digits at the head of [s],
    continuing [acc]. *)
Fixpoint digits (acc : Z) (s : string) : Z :=
  match s with
  | String c r =>
      if is_digit c then digits (10 * acc + (Z.of_N (code c) - 48)) r else acc
  | EmptyString => acc
  end.

(** [parseInt(s, 10)]: white space is skipped, one sign is read, and the
    digits up to the first other character are the value; without a digit
    the result is NaN, and a value that rounds beyond the largest double is
    an infinity. *)
Definition parseInt10 (s : string) : Number :=
  let s := trimStart s in
  let negative := match s with String c _ => (code c =? 45)%N | _ => false end in
  let s :=
    match s with
    | String c r => if ((code c =? 45) || (code c =? 43))%N then r else s
    | EmptyString => s
    end in
  match s with
  | String c _ =>
      if is_digit c then
        let value := digits 0 s in
        if 2 ^ 1024 - 2 ^ 970 <=? value then Infinity negative
        else Int (if negative then - value else value)
      else NaN
  | EmptyString => NaN
  end.

(** The integer a number is, once [isInteger] has been checked. *)
Definition value (n : Number) : Z :=
  match n with Int value => value | _ => 0 end.

(** [!s] for a string that may be missing. *)
Definition not (s : option string) : bool :=
  match s with
  | None | Some EmptyString => true
  | Some _ => false
  end.

(** [Number.isInteger(n)]. *)
Definition isInteger (n : Number) : bool :=
  match n with Int _ => true | _ => false end.

(** [n < k] and [n > k] for an integer [k]; every comparison with NaN is
    false. *)
Definition lt (n : Number) (k : Z) : bool :=
  match n with
  | NaN => false
  | Infinity negative => negative
  | Int value => value <? k
  end.

Definition gt (n : Number) (k : Z) : bool :=
  match n with
  | NaN => false
  | Infinity negative => negb negative
  | Int value => k <? value
  end.

End Js.

(** ** Exceptions, the shared state and the monad of the services *)

(** The NestJS exceptions the services throw, with their messages. *)
Inductive Exception : Type :=
  | BadRequestException (message : string)
  | UnauthorizedException (message : string)
  | InternalServerErrorException (message : string).

Definition Result (A : Type) : Type := Exception + A.

(** An entry of the in-memory challenge map of [AuthService]. *)
Record StoredChallenge : Type := {
  walletPubkey : string;
  messageToSign : string;
  expiresAtMs : Z
}.

(** A row of the table age_proofs (entities/age-proof.entity.ts); the
    serial [id] is the position of the row in the table. *)
Record AgeProofEntity : Type := {
  session_id : option string;
  wallet_pubkey : string;
  user_hash : string;
  claim_type : string;
  age : Z;
  is_major : bool;
  valid_from : Z;
  valid_until : Z;
  revoked : bool;
  deploy_hash : option string;
  created_at : Z;
  updated_at : Z
}.

(** The state the services run in.  The environment is given by three
    oracles, each with the number of answers consumed so far: the system
    clock (every [new Date()], [Date.now()] and column default reads the
    next value), the random generator behind [crypto.randomBytes], and the
    outcome of the successive invocations of `casper-client` ([None] when
    the process fails or prints no deploy hash). *)
Record World : Type := {
  clock : nat → Z;
  ticks : nat;
  entropy : nat → byte;
  drawn : nat;
  casper : nat → option string;
  casper_calls : nat;
  challenges : gmap string StoredChallenge;
  age_proofs : list AgeProofEntity
}.

Definition M (A : Type) : Type := World → Result A * World.

#[export] Instance M_ret : MRet M := λ A (a : A) w, (inr a, w).

#[export] Instance M_bind : MBind M := λ A B (f : A → M B) (m : M A) w,
  match m w with
  | (inr a, w') => f a w'
  | (inl e, w') => (inl e, w')
  end.

Definition throw {A : Type} (e : Exception) : M A := λ w, (inl e, w).

Definition gets {A : Type} (f : World → A) : M A := λ w, (inr (f w), w).

Definition modify (f : World → World) : M unit := λ w, (inr (), f w).

Definition set_challenges (f : gmap string StoredChallenge → gmap string StoredChallenge)
    (w : World) : World :=
  {| clock := clock w; ticks := ticks w; entropy := entropy w; drawn := drawn w;
     casper := casper w; casper_calls := casper_calls w;
     challenges := f (challenges w); age_proofs := age_proofs w |}.

Definition set_age_proofs (f : list AgeProofEntity → list AgeProofEntity)
    (w : World) : World :=
  {| clock := clock w; ticks := ticks w; entropy := entropy w; drawn := drawn w;
     casper := casper w; casper_calls := casper_calls w;
     challenges := challenges w; age_proofs := f (age_proofs w) |}.

(** One more answer of an oracle has been consumed. *)
Definition tick (w : World) : World :=
  {| clock := clock w; ticks := S (ticks w); entropy := entropy w; drawn := drawn w;
     casper := casper w; casper_calls := casper_calls w;
     challenges := challenges w; age_proofs := age_proofs w |}.

Definition draw (n : nat) (w : World) : World :=
  {| clock := clock w; ticks := ticks w; entropy := entropy w; drawn := (drawn w + n)%nat;
     casper := casper w; casper_calls := casper_calls w;
     challenges := challenges w; age_proofs := age_proofs w |}.

Definition called (w : World) : World :=
  {| clock := clock w; ticks := ticks w; entropy := entropy w; drawn := drawn w;
     casper := casper w; casper_calls := S (casper_calls w);
     challenges := challenges w; age_proofs := age_proofs w |}.

(** [Date.now()], and the time value of [new Date()]. *)
Definition Date_now : M Z := λ w, (inr (clock w (ticks w)), tick w).

(** [crypto.randomBytes(n)]. *)
Definition randomBytes (n : nat) : M (list byte) := λ w,
  (inr (entropy w <$> seq (drawn w) n), draw n w).

(** One run of `casper-client put-deploy`: the deploy hash it reports. *)
Definition execCasperClient : M (option string) := λ w,
  (inr (casper w (casper_calls w)), called w).

(** The state a service reaches and the value it returns or throws. *)
Definition run {A : Type} (m : M A) (w : World) : Result A := (m w).1.
Definition exec {A : Type} (m : M A) (w : World) : World := (m w).2.

#[export] Instance Result_ret : MRet Result := λ A (a : A), inr a.

#[export] Instance Result_bind : MBind Result := λ A B (f : A → Result B) (r : Result A),
  match r with
  | inr a => f a
  | inl e => inl e
  end.

#[export] Instance M_fmap : FMap M := λ A B (f : A → B) (m : M A) w,
  match m w with
  | (inr a, w') => (inr (f a), w')
  | (inl e, w') => (inl e, w')
  end.

(** A computation that touches no state. *)
Definition lift {A : Type} (r : Result A) : M A := λ w, (r, w).

(** ** AuthService (src/auth/auth.service.ts) *)
Module AuthService.

Module ChallengeResponseDto.
Record t : Type := {
  challenge_id : string;
  wallet_pubkey : string;
  message_to_sign : string;
  expires_at : string
}.
End ChallengeResponseDto.

(** A field missing from the request body is the empty string, which is
    what [(body.f || '')] makes of it. *)
Module VerifyRequestDto.
Record t : Type := {
  wallet_pubkey : string;
  challenge_id : string;
  signature_hex : string
}.
End VerifyRequestDto.

Module VerifyResponseDto.
Record t : Type := {
  ok : bool;
  wallet_pubkey : string;
  token : string;
  expires_in_seconds : Z
}.
End VerifyResponseDto.

Module JwtPayload.
Record t : Type := {
  sub : string;
  wallet_pubkey : string;
  scope : list string
}.
End JwtPayload.

Inductive SignatureAlgorithm : Type := ed25519 | secp256k1.

Definition CHALLENGE_TTL_MS : Z := 5 * 60 * 1000.
Definition JWT_EXPIRES_IN_SECONDS : Z := 5 * 60.

(** The exceptions of the service, under the names of the protocol. *)
Definition UnknownOrExpired : Exception :=
  UnauthorizedException "Unknown or expired challenge_id".
Definition WalletMismatch : Exception :=
  UnauthorizedException "Challenge does not match wallet_pubkey".
Definition Expired : Exception :=
  UnauthorizedException "Challenge expired".
Definition InvalidSignature : Exception :=
  UnauthorizedException "Invalid signature".
Definition UnsupportedAlgorithm : Exception :=
  BadRequestException "Unsupported Casper key algorithm (expected 01 or 02 prefix)".
Definition InvalidHexLength : Exception :=
  BadRequestException "Invalid hex length".

(** The loop of [hexToBytes], lines 207-211: one byte per pair of
    characters. *)
Fixpoint hex_pairs (hex : string) : list byte :=
  match hex with
  | String a (String b r) => Js.hex_pair_byte a b :: hex_pairs r
  | _ => []
  end.

(** [hexToBytes], lines 205-212. *)
Definition hexToBytes (hex : string) : Result (list byte) :=
  if negb (Nat.even (String.length hex)) then inl InvalidHexLength
  else inr (hex_pairs hex).

(** [normalizeSignatureBytes], lines 169-181. *)
Definition normalizeSignatureBytes (signatureHex : string) (alg : SignatureAlgorithm)
    : Result (list byte) :=
  let hex := Js.strip_0x (Js.toLowerCase signatureHex) in
  bytes ← hexToBytes hex;
  match alg with
  | ed25519 =>
      if (length bytes =? 64)%nat then inr bytes
      else if (length bytes =? 65)%nat then inr (drop 1 bytes)
      else inl (BadRequestException
                  ("Unexpected ed25519 signature length: "
                     +:+ Js.string_of_N (N.of_nat (length bytes)) +:+ " bytes"))
  | secp256k1 =>
      if (length bytes =? 64)%nat || (length bytes =? 65)%nat then inr bytes
      else inl (BadRequestException
                  ("Unexpected secp256k1 signature length: "
                     +:+ Js.string_of_N (N.of_nat (length bytes)) +:+ " bytes"))
  end.

(** [assertPubkeyFormat], lines 183-199. *)
Definition assertPubkeyFormat (walletPubkeyHex : string) : Result unit :=
  let hex := Js.strip_0x (Js.toLowerCase walletPubkeyHex) in
  if negb (Js.test_lower_hex hex) then
    inl (BadRequestException "wallet_pubkey must be hex")
  else if negb (Js.startsWith "01" hex || Js.startsWith "02" hex) then
    inl (BadRequestException
           "wallet_pubkey must start with 01 (Ed25519) or 02 (Secp256k1)")
  else if Js.startsWith "01" hex && negb (String.length hex =? 66)%nat then
    inl (BadRequestException
           ("Ed25519 pubkey must be 66 hex chars, got "
              +:+ Js.string_of_N (N.of_nat (String.length hex))))
  else if Js.startsWith "02" hex && negb (String.length hex =? 68)%nat then
    inl (BadRequestException
           ("Secp256k1 pubkey must be 68 hex chars, got "
              +:+ Js.string_of_N (N.of_nat (String.length hex))))
  else inr ().

(** [randomHex], lines 201-203. *)
Definition randomHex (nBytes : nat) : M string :=
  Js.bytesToHex <$> randomBytes nBytes.

Section Collaborators.

(** The libraries the service calls:
    [nacl.sign.detached.verify(msg, sig, publicKey)],
    [secp.verify(sig, msgHash, publicKey)],
    [createHash('sha256').update(msg).digest()], and the signature of
    [JwtService] over a payload, a lifetime and the time of issue.  The
    verifiers are called on a signature of 64 bytes, which is what
    [normalizeSignatureBytes] and [sig64] hand them. *)
Variable nacl_sign_detached_verify : list byte → list byte → list byte → bool.
Variable secp_verify : list byte → list byte → list byte → bool.
Variable sha256 : list byte → list byte.
Variable jwt_sign : JwtPayload.t → Z → Z → Result string.

(** [verifyCasperSignature], lines 130-167. *)
Definition verifyCasperSignature (walletPubkeyHex message signatureHex : string)
    : Result bool :=
  let keyTag := Js.toLowerCase (Js.take 2 walletPubkeyHex) in
  let candidateMessages : list (list byte) :=
    [ Js.encode ("Casper Message:" +:+ String "010" message); Js.encode message ] in
  if String.eqb keyTag "01" then
    pubKeyBytes ← hexToBytes (Js.drop 2 walletPubkeyHex);
    sigBytes ← normalizeSignatureBytes signatureHex ed25519;
    mret (existsb (λ msgBytes,
            nacl_sign_detached_verify msgBytes sigBytes pubKeyBytes)
            candidateMessages)
  else if String.eqb keyTag "02" then
    pubKeyBytes ← hexToBytes (Js.drop 2 walletPubkeyHex);
    sigBytes ← normalizeSignatureBytes signatureHex secp256k1;
    let sig64 := if (length sigBytes =? 65)%nat then take 64 sigBytes else sigBytes in
    mret (existsb (λ msgBytes,
            let msgHash := sha256 msgBytes in
            secp_verify sig64 msgHash pubKeyBytes)
            candidateMessages)
  else inl UnsupportedAlgorithm.

(** [JwtService.signAsync(payload, { expiresIn })]. *)
Definition signAsync (payload : JwtPayload.t) (expiresIn : Z) : M string :=
  iat ← Date_now;
  lift (jwt_sign payload expiresIn iat).

(** [createChallenge], lines 50-79. *)
Definition createChallenge (walletPubkeyRaw : string) : M ChallengeResponseDto.t :=
  let wallet_pubkey := Js.trim walletPubkeyRaw in
  lift (assertPubkeyFormat wallet_pubkey);;
  challenge_id ← randomHex 16;
  nonce ← randomHex 32;
  issuedAt ← Js.toISOString <$> Date_now;
  expiresAt ← (λ now, Js.toISOString (now + CHALLENGE_TTL_MS)) <$> Date_now;
  let message_to_sign :=
    "LegalProof|auth|wallet_pubkey=" +:+ wallet_pubkey
      +:+ "|nonce=" +:+ nonce
      +:+ "|issued_at=" +:+ issuedAt
      +:+ "|purpose=prove_wallet_ownership" in
  now ← Date_now;
  modify (set_challenges (λ challenges,
    <[ challenge_id :=
         {| walletPubkey := wallet_pubkey;
            messageToSign := message_to_sign;
            expiresAtMs := now + CHALLENGE_TTL_MS |} ]> challenges));;
  mret {| ChallengeResponseDto.challenge_id := challenge_id;
          ChallengeResponseDto.wallet_pubkey := wallet_pubkey;
          ChallengeResponseDto.message_to_sign := message_to_sign;
          ChallengeResponseDto.expires_at := expiresAt |}.

(** [verifySignatureAndIssueToken], lines 81-124. *)
Definition verifySignatureAndIssueToken (body : VerifyRequestDto.t)
    : M VerifyResponseDto.t :=
  let wallet_pubkey := Js.trim (VerifyRequestDto.wallet_pubkey body) in
  let challenge_id := Js.trim (VerifyRequestDto.challenge_id body) in
  let signature_hex := Js.trim (VerifyRequestDto.signature_hex body) in
  lift (assertPubkeyFormat wallet_pubkey);;
  stored ← gets (λ w, challenges w !! challenge_id);
  match stored with
  | None => throw UnknownOrExpired
  | Some stored =>
      if negb (String.eqb (walletPubkey stored) wallet_pubkey) then
        throw WalletMismatch
      else
        now ← Date_now;
        if expiresAtMs stored <? now then
          modify (set_challenges (delete challenge_id));;
          throw Expired
        else
          ok ← lift (verifyCasperSignature wallet_pubkey (messageToSign stored)
                       signature_hex);
          if negb ok then throw InvalidSignature
          else
            modify (set_challenges (delete challenge_id));;
            let payload :=
              {| JwtPayload.sub := wallet_pubkey;
                 JwtPayload.wallet_pubkey := wallet_pubkey;
                 JwtPayload.scope := ["proof:create"; "proof:revoke"] |} in
            token ← signAsync payload JWT_EXPIRES_IN_SECONDS;
            mret {| VerifyResponseDto.ok := true;
                    VerifyResponseDto.wallet_pubkey := wallet_pubkey;
                    VerifyResponseDto.token := token;
                    VerifyResponseDto.expires_in_seconds := JWT_EXPIRES_IN_SECONDS |}
  end.

End Collaborators.

End AuthService.

(** ** AgeProofService, off-chain revision with rotation
       (src/age-proof.service.ts) *)
Module AgeProofService.

Module BirthDate.
Record t : Type := { day : Z; month : Z; year : Z }.
End BirthDate.

Module AgeComputationResult.
Record t : Type := { age : Z; isMajor : bool }.
End AgeComputationResult.

Module Age18PlusClaimParams.
Record t : Type := {
  user_hash : string;
  claim_type : string;
  value : bool;
  valid_from : Z;
  valid_until : Z;
  revoked : bool
}.
End Age18PlusClaimParams.

Module CreateClaimResult.
Record t : Type := {
  isMajor : bool;
  claimCreated : bool;
  deployHash : option string;
  claimParams : Age18PlusClaimParams.t
}.
End CreateClaimResult.

(** The value [getAge18PlusStatus] resolves to. *)
Module Status.
Record t : Type := {
  wallet_pubkey : string;
  has_proof : bool;
  is_major : bool;
  revoked : bool;
  valid_from : option Z;
  valid_until : option Z;
  deploy_hash : option string
}.
End Status.

(** The value [revokeAge18PlusClaim] resolves to. *)
Module Revocation.
Record t : Type := {
  wallet_pubkey : string;
  claim_type : string;
  had_proof : bool;
  revoked : bool;
  deploy_hash : option string;
  valid_from : option Z;
  valid_until : option Z
}.
End Revocation.

Definition CLAIM_TYPE : string := "AGE_18_PLUS".

(** [Math.floor(d.getTime() / 1000)]. *)
Definition unixSeconds (d : Z) : Z := Js.getTime d / 1000.

(** [computeAge], lines 68-84. *)
Definition computeAge (birthDate : BirthDate.t) (referenceDate : Z)
    : AgeComputationResult.t :=
  let day := BirthDate.day birthDate in
  let month := BirthDate.month birthDate in
  let year := BirthDate.year birthDate in
  let age := Js.getFullYear referenceDate - year in
  let hasNotHadBirthdayThisYear :=
    (Js.getMonth referenceDate <? month - 1)
    || ((Js.getMonth referenceDate =? month - 1)
        && (Js.getDate referenceDate <? day)) in
  let age := if hasNotHadBirthdayThisYear then age - 1 else age in
  {| AgeComputationResult.age := age;
     AgeComputationResult.isMajor := 18 <=? age |}.

(** ** The repository of age_proofs *)

(** The most recent of the rows selected by [where_], with its position:
    [findOne({ where, order: { created_at: 'DESC' } })].  Among rows
    created at the same instant, which SQL leaves open, the one inserted
    last is taken. *)
Fixpoint latest_from (where_ : AgeProofEntity → bool) (i : nat)
    (best : option (nat * AgeProofEntity)) (table : list AgeProofEntity)
    : option (nat * AgeProofEntity) :=
  match table with
  | [] => best
  | r :: rest =>
      let best' :=
        if where_ r then
          match best with
          | Some (_, b) => if created_at r <? created_at b then best else Some (i, r)
          | None => Some (i, r)
          end
        else best in
      latest_from where_ (S i) best' rest
  end.

Definition findOne (where_ : AgeProofEntity → bool) : M (option (nat * AgeProofEntity)) :=
  gets (λ w, latest_from where_ 0 None (age_proofs w)).

(** [save] of an object without id: one INSERT; both date columns take
    the time of the statement. *)
Definition save_new (row : Z → AgeProofEntity) : M unit :=
  now ← Date_now;
  modify (set_age_proofs (λ table, table ++ [row now])).

Definition with_revoked (now : Z) (r : AgeProofEntity) : AgeProofEntity :=
  {| session_id := session_id r; wallet_pubkey := wallet_pubkey r;
     user_hash := user_hash r; claim_type := claim_type r; age := age r;
     is_major := is_major r; valid_from := valid_from r;
     valid_until := valid_until r; revoked := true;
     deploy_hash := deploy_hash r; created_at := created_at r;
     updated_at := now |}.

(** [save] of the loaded row at position [i] after [active.revoked = true]:
    one UPDATE of that row. *)
Definition save_revoked (i : nat) (active : AgeProofEntity) : M unit :=
  now ← Date_now;
  modify (set_age_proofs (λ table, <[ i := with_revoked now active ]> table)).

(** The rows a wallet may have active: the WHERE clause
    wallet_pubkey = $1 AND claim_type = $2 AND revoked = false. *)
Definition is_active_of (walletPubkey claimType : string) (r : AgeProofEntity) : bool :=
  String.eqb (wallet_pubkey r) walletPubkey
  && String.eqb (claim_type r) claimType
  && negb (revoked r).

Definition is_row_of (walletPubkey claimType : string) (r : AgeProofEntity) : bool :=
  String.eqb (wallet_pubkey r) walletPubkey
  && String.eqb (claim_type r) claimType.

(** SELECT id ... FOR UPDATE, lines 177-187: the rows are locked and the
    answer is dropped. *)
Definition lock_active (walletPubkey : string) : M (list nat) :=
  gets (λ w,
    (List.filter (λ ir, is_active_of walletPubkey CLAIM_TYPE ir.2)
       (imap (λ i r, (i, r)) (age_proofs w))).*1).

(** UPDATE ... SET revoked = true WHERE ..., lines 190-197. *)
Definition revoke_rows (walletPubkey : string) (now : Z)
    (table : list AgeProofEntity) : list AgeProofEntity :=
  (λ r, if is_active_of walletPubkey CLAIM_TYPE r then with_revoked now r else r)
    <$> table.

Definition revoke_active (walletPubkey : string) : M unit :=
  now ← Date_now;
  modify (set_age_proofs (revoke_rows walletPubkey now)).

Section Environment.

(** [createHash('sha256')] and [process.env.USER_HASH_SALT]. *)
Variable sha256 : list byte → list byte.
Variable USER_HASH_SALT : option string.

(** [getUserHashSalt], lines 48-50. *)
Definition getUserHashSalt : string :=
  match USER_HASH_SALT with
  | Some s => if String.eqb s "" then "legalproof_v1_default_salt" else s
  | None => "legalproof_v1_default_salt"
  end.

(** [computeUserHash], lines 55-63. *)
Definition computeUserHash (walletPubkey : string) : string :=
  let salt := getUserHashSalt in
  Js.bytesToHex
    (sha256 (Js.encode (Js.trim walletPubkey) ++ Js.encode ":" ++ Js.encode salt)).

(** [buildAge18PlusClaimParams], lines 89-112. *)
Definition buildAge18PlusClaimParams (walletPubkey : string)
    (birthDate : BirthDate.t) (validityYears : Z) (referenceDate : Z)
    : Age18PlusClaimParams.t :=
  let user_hash := computeUserHash walletPubkey in
  let isMajor := AgeComputationResult.isMajor (computeAge birthDate referenceDate) in
  let validFromSec := unixSeconds referenceDate in
  let validUntilDate :=
    Js.setFullYear referenceDate (Js.getFullYear referenceDate + validityYears) in
  let validUntilSec := unixSeconds validUntilDate in
  {| Age18PlusClaimParams.user_hash := user_hash;
     Age18PlusClaimParams.claim_type := CLAIM_TYPE;
     Age18PlusClaimParams.value := isMajor;
     Age18PlusClaimParams.valid_from := validFromSec;
     Age18PlusClaimParams.valid_until := validUntilSec;
     Age18PlusClaimParams.revoked := false |}.

(** The row written by [createAge18PlusClaimIfMajor]. *)
Definition new_row (sessionId : option string) (walletPubkey : string)
    (params : Age18PlusClaimParams.t) (age : Z) (is_major revoked : bool)
    (deploy_hash : option string) (now : Z) : AgeProofEntity :=
  {| session_id := sessionId;
     wallet_pubkey := walletPubkey;
     user_hash := Age18PlusClaimParams.user_hash params;
     claim_type := Age18PlusClaimParams.claim_type params;
     age := age;
     is_major := is_major;
     valid_from := Age18PlusClaimParams.valid_from params * 1000;
     valid_until := Age18PlusClaimParams.valid_until params * 1000;
     revoked := revoked;
     deploy_hash := deploy_hash;
     created_at := now;
     updated_at := now |}.

(** The transaction of lines 175-212. *)
Definition rotate (sessionId : option string) (walletPubkey : string)
    (params : Age18PlusClaimParams.t) (age : Z) : M unit :=
  lock_active walletPubkey;;
  revoke_active walletPubkey;;
  save_new (new_row sessionId walletPubkey params age true false None).

(** [createAge18PlusClaimIfMajor], lines 127-220. *)
Definition createAge18PlusClaimIfMajor (walletPubkey : string)
    (birthDate : BirthDate.t) (validityYears : Z) (sessionId : option string)
    : M CreateClaimResult.t :=
  claimParamsBase ←
    buildAge18PlusClaimParams walletPubkey birthDate validityYears <$> Date_now;
  ageResult ← computeAge birthDate <$> Date_now;
  let session_id := sessionId in
  if negb (AgeComputationResult.isMajor ageResult) then
    save_new (new_row session_id walletPubkey claimParamsBase
                (AgeComputationResult.age ageResult) false true None);;
    let claimParams :=
      {| Age18PlusClaimParams.user_hash := Age18PlusClaimParams.user_hash claimParamsBase;
         Age18PlusClaimParams.claim_type := Age18PlusClaimParams.claim_type claimParamsBase;
         Age18PlusClaimParams.value := Age18PlusClaimParams.value claimParamsBase;
         Age18PlusClaimParams.valid_from := Age18PlusClaimParams.valid_from claimParamsBase;
         Age18PlusClaimParams.valid_until := Age18PlusClaimParams.valid_until claimParamsBase;
         Age18PlusClaimParams.revoked := true |} in
    mret {| CreateClaimResult.isMajor := false;
            CreateClaimResult.claimCreated := false;
            CreateClaimResult.deployHash := None;
            CreateClaimResult.claimParams := claimParams |}
  else
    rotate session_id walletPubkey claimParamsBase (AgeComputationResult.age ageResult);;
    mret {| CreateClaimResult.isMajor := true;
            CreateClaimResult.claimCreated := true;
            CreateClaimResult.deployHash := None;
            CreateClaimResult.claimParams := claimParamsBase |}.

End Environment.

(** [getAge18PlusStatus], lines 222-306.  The columns valid_from and
    valid_until are NOT NULL and a [Date] is truthy, so the timestamps of
    lines 246-251 and 290-295 are never null; the window is tested on the
    millisecond values and answered in seconds. *)
Definition getAge18PlusStatus (walletPubkey : string) : M Status.t :=
  now ← Date_now;
  activeValid ← findOne (λ r,
    is_active_of walletPubkey CLAIM_TYPE r && is_major r);
  let currentlyValid :=
    match activeValid with
    | Some (_, activeValid) =>
        if (Js.getTime (valid_from activeValid) <=? Js.getTime now)
           && (Js.getTime now <=? Js.getTime (valid_until activeValid))
        then Some activeValid else None
    | None => None
    end in
  match currentlyValid with
  | Some activeValid =>
      mret {| Status.wallet_pubkey := walletPubkey;
              Status.has_proof := true;
              Status.is_major := true;
              Status.revoked := false;
              Status.valid_from := Some (unixSeconds (valid_from activeValid));
              Status.valid_until := Some (unixSeconds (valid_until activeValid));
              Status.deploy_hash := deploy_hash activeValid |}
  | None =>
      latest ← findOne (is_row_of walletPubkey CLAIM_TYPE);
      match latest with
      | None =>
          mret {| Status.wallet_pubkey := walletPubkey;
                  Status.has_proof := false;
                  Status.is_major := false;
                  Status.revoked := false;
                  Status.valid_from := None;
                  Status.valid_until := None;
                  Status.deploy_hash := None |}
      | Some (_, latest) =>
          mret {| Status.wallet_pubkey := walletPubkey;
                  Status.has_proof := true;
                  Status.is_major := false;
                  Status.revoked := revoked latest;
                  Status.valid_from := Some (unixSeconds (valid_from latest));
                  Status.valid_until := Some (unixSeconds (valid_until latest));
                  Status.deploy_hash := deploy_hash latest |}
      end
  end.

(** [revokeAge18PlusClaim], lines 314-387. *)
Definition revokeAge18PlusClaim (walletPubkey : string) : M Revocation.t :=
  let claim_type := CLAIM_TYPE in
  active ← findOne (is_active_of walletPubkey claim_type);
  match active with
  | None =>
      latest ← findOne (is_row_of walletPubkey claim_type);
      match latest with
      | None =>
          mret {| Revocation.wallet_pubkey := walletPubkey;
                  Revocation.claim_type := claim_type;
                  Revocation.had_proof := false;
                  Revocation.revoked := false;
                  Revocation.deploy_hash := None;
                  Revocation.valid_from := None;
                  Revocation.valid_until := None |}
      | Some (_, latest) =>
          mret {| Revocation.wallet_pubkey := walletPubkey;
                  Revocation.claim_type := claim_type;
                  Revocation.had_proof := true;
                  Revocation.revoked := true;
                  Revocation.deploy_hash := deploy_hash latest;
                  Revocation.valid_from := Some (unixSeconds (valid_from latest));
                  Revocation.valid_until := Some (unixSeconds (valid_until latest)) |}
      end
  | Some (i, active) =>
      save_revoked i active;;
      mret {| Revocation.wallet_pubkey := walletPubkey;
              Revocation.claim_type := claim_type;
              Revocation.had_proof := true;
              Revocation.revoked := true;
              Revocation.deploy_hash := deploy_hash active;
              Revocation.valid_from := Some (unixSeconds (valid_from active));
              Revocation.valid_until := Some (unixSeconds (valid_until active)) |}
  end.

(** An item of the listing of [listAgeProofsForWallet]; [id] is the
    position of the row. *)
Module ProofItem.
Record t : Type := {
  id : nat;
  session_id : option string;
  claim_type : string;
  age : Z;
  is_major : bool;
  revoked : bool;
  valid_from : option Z;
  valid_until : option Z;
  deploy_hash : option string;
  created_at : string;
  updated_at : string
}.
End ProofItem.

Module ProofList.
Record t : Type := {
  wallet_pubkey : string;
  count : nat;
  items : list ProofItem.t
}.
End ProofList.

(** ORDER BY created_at DESC: a row goes before the rows created at the
    same instant that were inserted before it, as in [findOne]. *)
Fixpoint insert_desc (x : nat * AgeProofEntity) (sorted : list (nat * AgeProofEntity))
    : list (nat * AgeProofEntity) :=
  match sorted with
  | [] => [x]
  | y :: rest =>
      if created_at y.2 <=? created_at x.2 then x :: sorted
      else y :: insert_desc x rest
  end.

Definition order_desc (rows : list (nat * AgeProofEntity)) : list (nat * AgeProofEntity) :=
  foldl (λ sorted x, insert_desc x sorted) [] rows.

(** [find({ where: { wallet_pubkey }, order: { created_at: 'DESC' }, take })],
    for a positive [take]. *)
Definition find_of_wallet (walletPubkey : string) (limit : nat)
    (table : list AgeProofEntity) : list (nat * AgeProofEntity) :=
  take limit
    (order_desc
       (List.filter (λ ir, String.eqb (wallet_pubkey ir.2) walletPubkey)
          (imap (λ i r, (i, r)) table))).

Definition proof_item (ir : nat * AgeProofEntity) : ProofItem.t :=
  let p := ir.2 in
  {| ProofItem.id := ir.1;
     ProofItem.session_id := session_id p;
     ProofItem.claim_type := claim_type p;
     ProofItem.age := age p;
     ProofItem.is_major := is_major p;
     ProofItem.revoked := revoked p;
     ProofItem.valid_from := Some (unixSeconds (valid_from p));
     ProofItem.valid_until := Some (unixSeconds (valid_until p));
     ProofItem.deploy_hash := deploy_hash p;
     ProofItem.created_at := Js.toISOString (created_at p);
     ProofItem.updated_at := Js.toISOString (updated_at p) |}.

(** [listAgeProofsForWallet], lines 392-434. *)
Definition listAgeProofsForWallet (walletPubkey : string) (limit : nat)
    : M ProofList.t :=
  rows ← gets (λ w, find_of_wallet walletPubkey limit (age_proofs w));
  let items := proof_item <$> rows in
  mret {| ProofList.wallet_pubkey := walletPubkey;
          ProofList.count := length rows;
          ProofList.items := items |}.

End AgeProofService.

(** ** AgeProofService, revision anchoring on Casper (the earlier
       src/age-proof.service.ts) *)
Module CasperAgeProofService.

Import AgeProofService.

Definition CASPER_REGISTER_OR_UPDATE_FAILED : Exception :=
  InternalServerErrorException
    "Erreur lors de l’envoi du claim à Casper (code: CASPER_REGISTER_OR_UPDATE_FAILED)".

(** [sendClaimToCasper], lines 129-252: `casper-client put-deploy` is run
    with the parameters of the claim; every failure (the process, its
    output, a missing deploy_hash) is logged and rethrown as one generic
    exception. *)
Definition sendClaimToCasper (params : Age18PlusClaimParams.t) : M string :=
  out ← execCasperClient;
  match out with
  | Some deployHash => mret deployHash
  | None => throw CASPER_REGISTER_OR_UPDATE_FAILED
  end.

Section Environment.

Variable sha256 : list byte → list byte.
Variable USER_HASH_SALT : option string.

(** [createAge18PlusClaimIfMajor], lines 261-336; [computeAge] and
    [buildAge18PlusClaimParams] are those of the off-chain revision. *)
Definition createAge18PlusClaimIfMajor (walletPubkey : string)
    (birthDate : BirthDate.t) (validityYears : Z) (sessionId : option string)
    : M CreateClaimResult.t :=
  ageResult ← computeAge birthDate <$> Date_now;
  claimParams ←
    buildAge18PlusClaimParams sha256 USER_HASH_SALT walletPubkey birthDate
      validityYears <$> Date_now;
  if negb (AgeComputationResult.isMajor ageResult) then
    save_new (new_row sessionId walletPubkey claimParams
                (AgeComputationResult.age ageResult) false
                (Age18PlusClaimParams.revoked claimParams) None);;
    mret {| CreateClaimResult.isMajor := false;
            CreateClaimResult.claimCreated := false;
            CreateClaimResult.deployHash := None;
            CreateClaimResult.claimParams := claimParams |}
  else
    deployHash ← sendClaimToCasper claimParams;
    save_new (new_row sessionId walletPubkey claimParams
                (AgeComputationResult.age ageResult) true
                (Age18PlusClaimParams.revoked claimParams) (Some deployHash));;
    mret {| CreateClaimResult.isMajor := true;
            CreateClaimResult.claimCreated := true;
            CreateClaimResult.deployHash := Some deployHash;
            CreateClaimResult.claimParams := claimParams |}.

End Environment.

Definition CASPER_REVOKE_FAILED : Exception :=
  InternalServerErrorException
    "Erreur lors de la révocation du claim sur Casper (code: CASPER_REVOKE_FAILED)".

(** [sendRevokeToCasper], lines 405-517: as [sendClaimToCasper], for the
    entry point revoke_claim. *)
Definition sendRevokeToCasper (user_hash claim_type : string) : M string :=
  out ← execCasperClient;
  match out with
  | Some deployHash => mret deployHash
  | None => throw CASPER_REVOKE_FAILED
  end.

(** [getAge18PlusStatus], lines 338-395: the latest row decides, and the
    window is tested in seconds. *)
Definition getAge18PlusStatus (walletPubkey : string) : M Status.t :=
  now ← (λ ms, ms / 1000) <$> Date_now;
  proof ← findOne (is_row_of walletPubkey "AGE_18_PLUS");
  match proof with
  | None =>
      mret {| Status.wallet_pubkey := walletPubkey;
              Status.has_proof := false;
              Status.is_major := false;
              Status.revoked := false;
              Status.valid_from := None;
              Status.valid_until := None;
              Status.deploy_hash := None |}
  | Some (_, proof) =>
      let validFromTs := unixSeconds (valid_from proof) in
      let validUntilTs := unixSeconds (valid_until proof) in
      let isCurrentlyValid :=
        is_major proof && negb (revoked proof)
        && (validFromTs <=? now) && (now <=? validUntilTs) in
      mret {| Status.wallet_pubkey := walletPubkey;
              Status.has_proof := true;
              Status.is_major := isCurrentlyValid;
              Status.revoked := revoked proof;
              Status.valid_from := Some validFromTs;
              Status.valid_until := Some validUntilTs;
              Status.deploy_hash := deploy_hash proof |}
  end.

(** The row as [revokeAge18PlusClaim] leaves it. *)
Definition with_revocation (deployHash : string) (now : Z) (r : AgeProofEntity)
    : AgeProofEntity :=
  {| session_id := session_id r; wallet_pubkey := wallet_pubkey r;
     user_hash := user_hash r; claim_type := claim_type r; age := age r;
     is_major := is_major r; valid_from := valid_from r;
     valid_until := valid_until r; revoked := true;
     deploy_hash := Some deployHash; created_at := created_at r;
     updated_at := now |}.

(** [save] of the loaded row at position [i], lines 584-586: one UPDATE of
    that row. *)
Definition save_revocation (i : nat) (deployHash : string) (proof : AgeProofEntity)
    : M unit :=
  now ← Date_now;
  modify (set_age_proofs (λ table, <[ i := with_revocation deployHash now proof ]> table)).

Section Ledger.

Variable sha256 : list byte → list byte.
Variable USER_HASH_SALT : option string.

(** [revokeAge18PlusClaim], lines 526-604. *)
Definition revokeAge18PlusClaim (walletPubkey : string) : M Revocation.t :=
  let claim_type := "AGE_18_PLUS" in
  let user_hash := computeUserHash sha256 USER_HASH_SALT walletPubkey in
  proof ← findOne (is_row_of walletPubkey claim_type);
  match proof with
  | None =>
      mret {| Revocation.wallet_pubkey := walletPubkey;
              Revocation.claim_type := claim_type;
              Revocation.had_proof := false;
              Revocation.revoked := false;
              Revocation.deploy_hash := None;
              Revocation.valid_from := None;
              Revocation.valid_until := None |}
  | Some (i, proof) =>
      if revoked proof then
        mret {| Revocation.wallet_pubkey := walletPubkey;
                Revocation.claim_type := claim_type;
                Revocation.had_proof := true;
                Revocation.revoked := true;
                Revocation.deploy_hash := deploy_hash proof;
                Revocation.valid_from := Some (unixSeconds (valid_from proof));
                Revocation.valid_until := Some (unixSeconds (valid_until proof)) |}
      else
        revokeDeployHash ← sendRevokeToCasper user_hash claim_type;
        save_revocation i revokeDeployHash proof;;
        mret {| Revocation.wallet_pubkey := walletPubkey;
                Revocation.claim_type := claim_type;
                Revocation.had_proof := true;
                Revocation.revoked := true;
                Revocation.deploy_hash := Some revokeDeployHash;
                Revocation.valid_from := Some (unixSeconds (valid_from proof));
                Revocation.valid_until := Some (unixSeconds (valid_until proof)) |}
  end.

End Ledger.

End CasperAgeProofService.

(** ** JwtAuthGuard (src/auth/jwt-auth.guard.ts) *)
Module JwtAuthGuard.

Definition MissingBearerToken : Exception :=
  UnauthorizedException "Missing Bearer token".
Definition InvalidOrExpiredToken : Exception :=
  UnauthorizedException "Invalid or expired token".

(** What [.] refuses. *)
Definition is_line_terminator (c : ascii) : bool :=
  ((Js.code c =? 10) || (Js.code c =? 13))%N.

(** [(.+)$] from the head of [s]: all of [s], which is not empty and holds
    no line terminator. *)
Definition rest_of_line (s : string) : option string :=
  match s with
  | EmptyString => None
  | String _ _ =>
      if Js.all_chars (λ c, negb (is_line_terminator c)) s then Some s else None
  end.

(** [\s+(.+)$] from the head of [s]: one white space; then the quantifier
    is greedy, so more white space is tried first, and the group is tried
    from here only when that fails. *)
Fixpoint spaces_then_token (s : string) : option string :=
  match s with
  | String c r =>
      if Js.is_white_space c then
        match spaces_then_token r with
        | Some token => Some token
        | None => rest_of_line r
        end
      else None
  | EmptyString => None
  end.

(** Group 1 of [/^Bearer\s+(.+)$/.exec(auth)]. *)
Definition bearer_token (auth : string) : option string :=
  if Js.startsWith "Bearer" auth then spaces_then_token (Js.drop 6 auth)
  else None.

Section Collaborators.

(** [JwtService.verifyAsync]: the payload of a token whose signature and
    expiry hold at the time of the request. *)
Variable jwt_verifyAsync : string → option AuthService.JwtPayload.t.

(** [canActivate], lines 8-22; the result is the payload left in
    [req.user]. *)
Definition canActivate (authorization : option string)
    : Result AuthService.JwtPayload.t :=
  let auth := default "" authorization in
  match bearer_token auth with
  | None => inl MissingBearerToken
  | Some token =>
      match jwt_verifyAsync token with
      | Some payload => inr payload
      | None => inl InvalidOrExpiredToken
      end
  end.

End Collaborators.

End JwtAuthGuard.

(** ** AdminDebugGuard (src/admin-debug.guard.ts) *)
Module AdminDebugGuard.

Definition NotConfigured : Exception :=
  UnauthorizedException "Admin debug token is not configured".
Definition InvalidAdminToken : Exception :=
  UnauthorizedException "Invalid admin token".

(** [canActivate], lines 6-21, on the header x-admin-token and the
    variable ADMIN_DEBUG_TOKEN of the environment. *)
Definition canActivate (ADMIN_DEBUG_TOKEN header : option string) : Result unit :=
  let token := Js.trim (default "" header) in
  let expected := Js.trim (default "" ADMIN_DEBUG_TOKEN) in
  if String.eqb expected "" then inl NotConfigured
  else if String.eqb token "" || negb (String.eqb token expected)
  then inl InvalidAdminToken
  else inr ().

End AdminDebugGuard.

(** ** ProofController (src/proof.controller.ts), behind [JwtAuthGuard] *)
Module ProofController.

Import AgeProofService.

Definition InvalidTokenPayload : Exception :=
  UnauthorizedException "Invalid token payload (missing wallet_pubkey)".
Definition WalletRequired : Exception :=
  BadRequestException "wallet_pubkey est requis".
Definition UnsupportedClaimType (ct : string) : Exception :=
  BadRequestException ("claim_type non supporté pour l’instant: " +:+ ct).

(** [getStatus], lines 29-36. *)
Definition getStatus (user : AuthService.JwtPayload.t) : M Status.t :=
  let tokenWallet := Js.trim (AuthService.JwtPayload.wallet_pubkey user) in
  if String.eqb tokenWallet "" then throw InvalidTokenPayload
  else getAge18PlusStatus tokenWallet.

(** [revokeProof], lines 49-66. *)
Definition revokeProof (user : AuthService.JwtPayload.t)
    (claimType walletPubkeyIgnored : option string) : M Revocation.t :=
  let tokenWallet := Js.trim (AuthService.JwtPayload.wallet_pubkey user) in
  if String.eqb tokenWallet "" then throw InvalidTokenPayload
  else
    let ct := Js.trim (default "AGE_18_PLUS" claimType) in
    if negb (String.eqb ct "AGE_18_PLUS") then throw (UnsupportedClaimType ct)
    else revokeAge18PlusClaim tokenWallet.

Section Routes.

Variable jwt_verifyAsync : string → option AuthService.JwtPayload.t.

(** GET /proof/status and POST /proof/revoke: the guard runs first and
    hands over the payload. *)
Definition status_route (authorization : option string) : M Status.t :=
  user ← lift (JwtAuthGuard.canActivate jwt_verifyAsync authorization);
  getStatus user.

Definition revoke_route (authorization claimType walletPubkey : option string)
    : M Revocation.t :=
  user ← lift (JwtAuthGuard.canActivate jwt_verifyAsync authorization);
  revokeProof user claimType walletPubkey.

End Routes.

End ProofController.

(** ** ApiVerifyController (src/api-verify.controller.ts) *)
Module ApiVerifyController.

Import AgeProofService.

Module Verification.
Record t : Type := {
  wallet_pubkey : string;
  claim_type : string;
  status : Status.t
}.
End Verification.

Definition WalletRequired : Exception :=
  BadRequestException "wallet_pubkey est requis".
Definition UnsupportedClaimType : Exception :=
  BadRequestException
    "claim_type non supporté (seul AGE_18_PLUS est disponible pour l’instant)".

(** [verify], lines 36-62. *)
Definition verify (walletPubkey claimType : option string) : M Verification.t :=
  if Js.not walletPubkey || String.eqb (Js.trim (default "" walletPubkey)) ""
  then throw WalletRequired
  else
    let normalizedWallet := Js.trim (default "" walletPubkey) in
    let normalizedClaimType := Js.trim (default "AGE_18_PLUS" claimType) in
    if negb (String.eqb normalizedClaimType "AGE_18_PLUS")
    then throw UnsupportedClaimType
    else
      status ← getAge18PlusStatus normalizedWallet;
      mret {| Verification.wallet_pubkey := normalizedWallet;
              Verification.claim_type := normalizedClaimType;
              Verification.status := status |}.

End ApiVerifyController.

(** ** AdminController (src/admin.controller.ts), behind [AdminDebugGuard] *)
Module AdminController.

Import AgeProofService.

Definition WalletRequired : Exception :=
  BadRequestException "wallet_pubkey est requis".
Definition BadLimit : Exception :=
  BadRequestException "limit doit être un entier entre 1 et 500".

(** [listAgeProofs], lines 15-34. *)
Definition listAgeProofs (walletPubkey limit : option string) : M ProofList.t :=
  let wallet := Js.trim (default "" walletPubkey) in
  if String.eqb wallet "" then throw WalletRequired
  else
    take ← lift (
      match limit with
      | Some limit =>
          if negb (String.eqb (Js.trim limit) "") then
            let n := Js.parseInt10 (Js.trim limit) in
            if negb (Js.isInteger n) || Js.lt n 1 || Js.gt n 500
            then inl BadLimit
            else inr (Z.to_nat (Js.value n))
          else inr 50%nat
      | None => inr 50%nat
      end);
    listAgeProofsForWallet wallet take.

(** GET /admin/age-proofs. *)
Definition age_proofs_route (ADMIN_DEBUG_TOKEN token walletPubkey limit : option string)
    : M ProofList.t :=
  lift (AdminDebugGuard.canActivate ADMIN_DEBUG_TOKEN token);;
  listAgeProofs walletPubkey limit.

End AdminController.

(** ** OnboardingController (src/onboarding.controller.ts) *)
Module OnboardingController.

Module Params.
Record t : Type := { sessionId : string; day : Z; month : Z; year : Z }.
End Params.

Definition Required : Exception :=
  BadRequestException "sessionId, day, month et year sont requis".
Definition NotIntegers : Exception :=
  BadRequestException "day, month et year doivent être des entiers".
Definition BadDay : Exception :=
  BadRequestException "day doit être entre 1 et 31".
Definition BadMonth : Exception :=
  BadRequestException "month doit être entre 1 et 12".
Definition BadYear : Exception :=
  BadRequestException "year doit être entre 1900 et 2100".

Section Service.

Context {R : Type}.

(** [OnboardingService.handleMockFcCallback]. *)
Variable handleMockFcCallback : Params.t → M R.

(** [mockFcCallback], lines 103-153. *)
Definition mockFcCallback (sessionId day month year : option string) : M R :=
  if Js.not sessionId || Js.not day || Js.not month || Js.not year
  then throw Required
  else
    let sid := Js.trim (default "" sessionId) in
    let dayStr := Js.trim (default "" day) in
    let monthStr := Js.trim (default "" month) in
    let yearStr := Js.trim (default "" year) in
    let dayNum := Js.parseInt10 dayStr in
    let monthNum := Js.parseInt10 monthStr in
    let yearNum := Js.parseInt10 yearStr in
    if negb (Js.isInteger dayNum) || negb (Js.isInteger monthNum)
       || negb (Js.isInteger yearNum)
    then throw NotIntegers
    else if Js.lt dayNum 1 || Js.gt dayNum 31 then throw BadDay
    else if Js.lt monthNum 1 || Js.gt monthNum 12 then throw BadMonth
    else if Js.lt yearNum 1900 || Js.gt yearNum 2100 then throw BadYear
    else
      handleMockFcCallback
        {| Params.sessionId := sid;
           Params.day := Js.value dayNum;
           Params.month := Js.value monthNum;
           Params.year := Js.value yearNum |}.

End Service.

End OnboardingController.

(** ** Vocabulary of the properties *)

Import AgeProofService.

(** (m1, d1) comes before (m2, d2) in calendar order. *)
Definition precedes (m1 d1 m2 d2 : Z) : Prop :=
  m1 < m2 ∨ (m1 = m2 ∧ d1 < d2).

(** Row [r], at position [i], is the most recent of the rows of [table]
    selected by [P]: no selected row was created later, and none created
    at the same instant sits after it. *)
Definition most_recent (P : AgeProofEntity → bool) (table : list AgeProofEntity)
    (i : nat) (r : AgeProofEntity) : Prop :=
  table !! i = Some r ∧ P r = true ∧
  ∀ j r', table !! j = Some r' → P r' = true →
    created_at r' < created_at r ∨ (created_at r' = created_at r ∧ (j ≤ i)%nat).

(** At most one row with revoked = false per (wallet_pubkey, claim_type). *)
Definition at_most_one_active (table : list AgeProofEntity) : Prop :=
  ∀ i j ri rj,
    table !! i = Some ri → table !! j = Some rj →
    revoked ri = false → revoked rj = false →
    wallet_pubkey ri = wallet_pubkey rj → claim_type ri = claim_type rj →
    i = j.

(** The rows [getAge18PlusStatus] looks at first: those of the wallet that
    are not revoked and have is_major = true. *)
Definition is_valid_candidate (walletPubkey : string) (r : AgeProofEntity) : bool :=
  is_active_of walletPubkey CLAIM_TYPE r && is_major r.

(** A key that is valid hex with a supported tag and the length of its tag. *)
Definition well_formed_key (key : string) : bool :=
  let hex := Js.toLowerCase key in
  Js.test_lower_hex hex
  && ((Js.startsWith "01" hex && (String.length hex =? 66)%nat)
      || (Js.startsWith "02" hex && (String.length hex =? 68)%nat)).

(** The states of the table the service goes through from an empty table:
    after each operation, and inside the rotating transaction between its
    UPDATE and its INSERT. *)
Section Reachability.

Variable sha256 : list byte → list byte.
Variable USER_HASH_SALT : option string.

Inductive reachable : World → Prop :=
  | reachable_init w :
      age_proofs w = [] → reachable w
  | reachable_create w walletPubkey birthDate validityYears sessionId :
      reachable w →
      reachable (exec (createAge18PlusClaimIfMajor sha256 USER_HASH_SALT
                         walletPubkey birthDate validityYears sessionId) w)
  | reachable_rotating w walletPubkey :
      reachable w →
      reachable (exec (lock_active walletPubkey;; revoke_active walletPubkey) w)
  | reachable_revoke w walletPubkey :
      reachable w → reachable (exec (revokeAge18PlusClaim walletPubkey) w)
  | reachable_status w walletPubkey :
      reachable w → reachable (exec (getAge18PlusStatus walletPubkey) w).

End Reachability.

(** Table [t'] is [t] with some rows revoked and nothing else changed. *)
Definition revokes (t t' : list AgeProofEntity) : Prop :=
  length t' = length t ∧
  ∀ i r', t' !! i = Some r' →
    ∃ r, t !! i = Some r ∧ wallet_pubkey r' = wallet_pubkey r
         ∧ claim_type r' = claim_type r
         ∧ (revoked r' = false → r' = r).

(** A scenario to run the services on: the clock starts on 2024-06-01 and
    advances by one second at each reading; `casper-client` fails. *)
Module Scenario.

Definition digest (bytes : list byte) : list byte := take 4 bytes.

Definition w0 : World :=
  {| clock := λ n, 1717200000000 + 1000 * Z.of_nat n;
     ticks := 0;
     entropy := λ n, Js.byte_of_N (N.of_nat (7 * n + 3));
     drawn := 0;
     casper := λ _, None;
     casper_calls := 0;
     challenges := ∅;
     age_proofs := [] |}.

Definition wallet : string :=
  "01abababababababababababababababababababababababababababababababab".

Definition adult : BirthDate.t :=
  {| BirthDate.day := 1; BirthDate.month := 1; BirthDate.year := 2000 |}.

Definition child : BirthDate.t :=
  {| BirthDate.day := 1; BirthDate.month := 1; BirthDate.year := 2010 |}.

Definition create (birthDate : BirthDate.t) : M CreateClaimResult.t :=
  createAge18PlusClaimIfMajor digest None wallet birthDate 2 None.

(** After a major computation, then a minor one, then a revocation. *)
Definition w1 : World := exec (create adult) w0.
Definition w2 : World := exec (create child) w1.
Definition w3 : World := exec (revokeAge18PlusClaim wallet) w2.

Definition active_row : AgeProofEntity :=
  {| session_id := None;
     wallet_pubkey := wallet;
     user_hash := computeUserHash digest None wallet;
     claim_type := CLAIM_TYPE;
     age := 24;
     is_major := true;
     valid_from := 1717200000000;
     valid_until := 1780272000000;
     revoked := false;
     deploy_hash := None;
     created_at := 1717200003000;
     updated_at := 1717200003000 |}.

Definition audit_row : AgeProofEntity :=
  {| session_id := None;
     wallet_pubkey := wallet;
     user_hash := computeUserHash digest None wallet;
     claim_type := CLAIM_TYPE;
     age := 14;
     is_major := false;
     valid_from := 1717200004000;
     valid_until := 1780272004000;
     revoked := true;
     deploy_hash := None;
     created_at := 1717200006000;
     updated_at := 1717200006000 |}.

(** The same major computation in the revision anchoring on Casper. *)
Definition anchor : M CreateClaimResult.t :=
  CasperAgeProofService.createAge18PlusClaimIfMajor digest None wallet adult 2 None.

(** A signature of 65 bytes: ff, then 63 times 00, then 01. *)
Definition signature65 : string :=
  "ff" +:+ String.concat "" (replicate 63 "00") +:+ "01".

(** Verifiers that accept every signature, and a signer. *)
Definition accept (_ _ _ : list byte) : bool := true.

Definition sign (_ : AuthService.JwtPayload.t) (_ _ : Z) : Result string :=
  inr "token".

(** A challenge issued to the wallet, the request that answers it, and
    the same state six minutes later. *)
Definition challenged : World := exec (AuthService.createChallenge wallet) w0.

Definition request : AuthService.VerifyRequestDto.t :=
  {| AuthService.VerifyRequestDto.wallet_pubkey := wallet;
     AuthService.VerifyRequestDto.challenge_id := "030a11181f262d343b424950575e656c";
     AuthService.VerifyRequestDto.signature_hex :=
       String.concat "" (replicate 64 "ab") |}.

Definition stored : StoredChallenge :=
  {| walletPubkey := wallet;
     messageToSign :=
       "LegalProof|auth|wallet_pubkey=" +:+ wallet
         +:+ "|nonce=737a81888f969da4abb2b9c0c7ced5dce3eaf1f8ff060d141b222930373e454c"
         +:+ "|issued_at=2024-06-01T00:00:00.000Z"
         +:+ "|purpose=prove_wallet_ownership";
     expiresAtMs := 1717200302000 |}.

(** The request of a second wallet for the same challenge. *)
Definition request_of_another : AuthService.VerifyRequestDto.t :=
  {| AuthService.VerifyRequestDto.wallet_pubkey :=
       "01cdcdcdcdcdcdcdcdcdcdcdcdcdcdcdcdcdcdcdcdcdcdcdcdcdcdcdcdcdcdcdcd";
     AuthService.VerifyRequestDto.challenge_id := "030a11181f262d343b424950575e656c";
     AuthService.VerifyRequestDto.signature_hex :=
       String.concat "" (replicate 64 "ab") |}.

Definition response : AuthService.VerifyResponseDto.t :=
  {| AuthService.VerifyResponseDto.ok := true;
     AuthService.VerifyResponseDto.wallet_pubkey := wallet;
     AuthService.VerifyResponseDto.token := "token";
     AuthService.VerifyResponseDto.expires_in_seconds := 300 |}.

Definition verify : AuthService.VerifyRequestDto.t → M AuthService.VerifyResponseDto.t :=
  AuthService.verifySignatureAndIssueToken accept accept digest sign.

Definition late : World :=
  {| clock := λ n, clock challenged n + 360000;
     ticks := ticks challenged;
     entropy := entropy challenged;
     drawn := drawn challenged;
     casper := casper challenged;
     casper_calls := casper_calls challenged;
     challenges := challenges challenged;
     age_proofs := age_proofs challenged |}.

End Scenario.

(** The answers of [revokeAge18PlusClaim]. *)
Definition nothing_to_revoke (walletPubkey : string) : Revocation.t :=
  {| Revocation.wallet_pubkey := walletPubkey;
     Revocation.claim_type := CLAIM_TYPE;
     Revocation.had_proof := false;
     Revocation.revoked := false;
     Revocation.deploy_hash := None;
     Revocation.valid_from := None;
     Revocation.valid_until := None |}.

Definition revoked_as (walletPubkey : string) (r : AgeProofEntity) : Revocation.t :=
  {| Revocation.wallet_pubkey := walletPubkey;
     Revocation.claim_type := CLAIM_TYPE;
     Revocation.had_proof := true;
     Revocation.revoked := true;
     Revocation.deploy_hash := deploy_hash r;
     Revocation.valid_from := Some (valid_from r / 1000);
     Revocation.valid_until := Some (valid_until r / 1000) |}.

(** The wallet has a row of the claim type, in whatever state. *)
Definition has_history (walletPubkey : string) (table : list AgeProofEntity) : Prop :=
  ∃ j r, table !! j = Some r
         ∧ wallet_pubkey r = walletPubkey ∧ claim_type r = CLAIM_TYPE.

(** The credential [verifySignatureAndIssueToken] answers with for a wallet,
    when the token is signed at time [iat]. *)
Definition credential (jwt_sign : AuthService.JwtPayload.t → Z → Z → Result string)
    (wallet : string) (iat : Z) : Result AuthService.VerifyResponseDto.t :=
  match jwt_sign {| AuthService.JwtPayload.sub := wallet;
                    AuthService.JwtPayload.wallet_pubkey := wallet;
                    AuthService.JwtPayload.scope := ["proof:create"; "proof:revoke"] |}
          AuthService.JWT_EXPIRES_IN_SECONDS iat with
  | inl e => inl e
  | inr token =>
      inr {| AuthService.VerifyResponseDto.ok := true;
             AuthService.VerifyResponseDto.wallet_pubkey := wallet;
             AuthService.VerifyResponseDto.token := token;
             AuthService.VerifyResponseDto.expires_in_seconds :=
               AuthService.JWT_EXPIRES_IN_SECONDS |}
  end.

(** One more row seen by [findOne]. *)
Definition see (P : AgeProofEntity → bool) (i : nat)
    (best : option (nat * AgeProofEntity)) (r : AgeProofEntity)
    : option (nat * AgeProofEntity) :=
  if P r then
    match best with
    | Some (_, b) => if created_at r <? created_at b then best else Some (i, r)
    | None => Some (i, r)
    end
  else best.

(** Now lies within the validity window of a row, bounds included. *)
Definition in_window (r : AgeProofEntity) (now : Z) : Prop :=
  valid_from r ≤ now ≤ valid_until r.


(** Row [r'] is row [r] as it was created, possibly revoked since. *)
Definition kept (r r' : AgeProofEntity) : Prop :=
  session_id r' = session_id r ∧ wallet_pubkey r' = wallet_pubkey r
  ∧ user_hash r' = user_hash r ∧ claim_type r' = claim_type r
  ∧ age r' = age r ∧ is_major r' = is_major r
  ∧ valid_from r' = valid_from r ∧ valid_until r' = valid_until r
  ∧ deploy_hash r' = deploy_hash r ∧ created_at r' = created_at r
  ∧ (revoked r = true → revoked r' = true).

(** Every row of [t] is still in [t'], at its position. *)
Definition history_kept (t t' : list AgeProofEntity) : Prop :=
  ∀ i r, t !! i = Some r → ∃ r', t' !! i = Some r' ∧ kept r r'.

(** One operation of the off-chain service. *)
Section Steps.

Variable sha256 : list byte → list byte.
Variable USER_HASH_SALT : option string.

Inductive step : World → World → Prop :=
  | step_create w walletPubkey birthDate validityYears sessionId :
      step w (exec (createAge18PlusClaimIfMajor sha256 USER_HASH_SALT
                      walletPubkey birthDate validityYears sessionId) w)
  | step_revoke w walletPubkey :
      step w (exec (revokeAge18PlusClaim walletPubkey) w)
  | step_status w walletPubkey :
      step w (exec (getAge18PlusStatus walletPubkey) w).

End Steps.

(** The row a computation appends for a wallet, given its three or four
    readings of the clock: the claim parameters are built at the first, the
    age is computed at the second, and the row is inserted at the last. *)
Section Appended.

Variable sha256 : list byte → list byte.
Variable USER_HASH_SALT : option string.

Definition claim_params (w : World) (walletPubkey : string) (birthDate : BirthDate.t)
    (validityYears : Z) : Age18PlusClaimParams.t :=
  buildAge18PlusClaimParams sha256 USER_HASH_SALT walletPubkey birthDate
    validityYears (clock w (ticks w)).

Definition major_at (w : World) (birthDate : BirthDate.t) : bool :=
  AgeComputationResult.isMajor (computeAge birthDate (clock w (S (ticks w)))).

Definition claim_row (w : World) (walletPubkey : string) (birthDate : BirthDate.t)
    (validityYears : Z) (sessionId : option string) : AgeProofEntity :=
  new_row sessionId walletPubkey (claim_params w walletPubkey birthDate validityYears)
    (AgeComputationResult.age (computeAge birthDate (clock w (S (ticks w)))))
    true false None (clock w (3 + ticks w)).

Definition audit_row (w : World) (walletPubkey : string) (birthDate : BirthDate.t)
    (validityYears : Z) (sessionId : option string) : AgeProofEntity :=
  new_row sessionId walletPubkey (claim_params w walletPubkey birthDate validityYears)
    (AgeComputationResult.age (computeAge birthDate (clock w (S (ticks w)))))
    false true None (clock w (2 + ticks w)).

End Appended.

(** Worlds of the revision anchoring on Casper: the ledger accepts the
    first two deploys and refuses the following ones. *)
Module Anchored.

Definition w0 : World :=
  {| clock := clock Scenario.w0;
     ticks := 0;
     entropy := entropy Scenario.w0;
     drawn := 0;
     casper := λ n, match n with
                    | O => Some "deploy-register"
                    | S O => Some "deploy-revoke"
                    | _ => None
                    end;
     casper_calls := 0;
     challenges := ∅;
     age_proofs := [] |}.

Definition create (birthDate : BirthDate.t) : M CreateClaimResult.t :=
  CasperAgeProofService.createAge18PlusClaimIfMajor Scenario.digest None
    Scenario.wallet birthDate 2 None.

Definition revoke : M Revocation.t :=
  CasperAgeProofService.revokeAge18PlusClaim Scenario.digest None Scenario.wallet.

(** After an anchored claim, after its revocation, and after an anchored
    claim followed by a minor computation. *)
Definition w1 : World := exec (create Scenario.adult) w0.
Definition w2 : World := exec revoke w1.
Definition w1' : World := exec (create Scenario.child) w1.

(** The anchored claim when the ledger has stopped answering. *)
Definition stalled : World :=
  {| clock := clock w1; ticks := ticks w1; entropy := entropy w1;
     drawn := drawn w1; casper := λ _, None; casper_calls := casper_calls w1;
     challenges := challenges w1; age_proofs := age_proofs w1 |}.

End Anchored.

(** The answer of the anchoring revision about the row it finds. *)
Definition anchored_status (walletPubkey : string) (now : Z) (r : AgeProofEntity)
    : Status.t :=
  {| Status.wallet_pubkey := walletPubkey;
     Status.has_proof := true;
     Status.is_major :=
       is_major r && negb (revoked r)
       && (unixSeconds (valid_from r) <=? now / 1000)
       && (now / 1000 <=? unixSeconds (valid_until r));
     Status.revoked := revoked r;
     Status.valid_from := Some (unixSeconds (valid_from r));
     Status.valid_until := Some (unixSeconds (valid_until r));
     Status.deploy_hash := deploy_hash r |}.

(** Row [x] was not created before row [y]. *)
Definition newer (x y : nat * AgeProofEntity) : Prop :=
  created_at y.2 ≤ created_at x.2.

(** The rows of a wallet, of every claim type. *)
Definition rows_of (walletPubkey : string) (table : list AgeProofEntity)
    : list AgeProofEntity :=
  List.filter (λ r, String.eqb (wallet_pubkey r) walletPubkey) table.

(** The text is ASCII: its bytes are its UTF-16 code units, and white space
    and line terminators are those of the ASCII range. *)
Definition is_ascii (s : string) : bool :=
  Js.all_chars (λ c, (Js.code c <? 128)%N) s.

(** The three integers are a day, a month and a year as the onboarding
    callback lets them through. *)
Definition plausible_date (day month year : Z) : Prop :=
  1 ≤ day ≤ 31 ∧ 1 ≤ month ≤ 12 ∧ 1900 ≤ year ≤ 2100.

(** Requests to the controllers: a verifier of tokens that knows one
    token, issued to a wallet without rows, and a service that answers
    with the parameters it is given. *)
Module Requests.

Definition visitor : string := "01cd".

Definition tokens (token : string) : option AuthService.JwtPayload.t :=
  if String.eqb token "token" then
    Some {| AuthService.JwtPayload.sub := visitor;
            AuthService.JwtPayload.wallet_pubkey := visitor;
            AuthService.JwtPayload.scope := ["proof:create"; "proof:revoke"] |}
  else None.

Definition authorization : option string := Some "Bearer token".

Definition echo (params : OnboardingController.Params.t)
    : M OnboardingController.Params.t :=
  mret params.

End Requests.

(** ** Properties of the runtime and of the repository *)

Lemma eqb_true (a b : string) : String.eqb a b = true ↔ a = b.
Proof. apply String.eqb_eq. Qed.

Lemma is_row_of_true w c r :
  is_row_of w c r = true ↔ wallet_pubkey r = w ∧ claim_type r = c.
Proof.
  unfold is_row_of. rewrite andb_true_iff, !eqb_true. tauto.
Qed.

Lemma is_active_of_true w c r :
  is_active_of w c r = true ↔
  wallet_pubkey r = w ∧ claim_type r = c ∧ revoked r = false.
Proof.
  unfold is_active_of. rewrite !andb_true_iff, !eqb_true, negb_true_iff. tauto.
Qed.

Lemma latest_from_app P l1 l2 i best :
  latest_from P i best (l1 ++ l2)
  = latest_from P (i + length l1) (latest_from P i best l1) l2.
Proof.
  revert i best. induction l1 as [|r l1 IH]; intros i best; simpl.
  - by rewrite Nat.add_0_r.
  - rewrite IH. f_equal. lia.
Qed.

Lemma latest_from_snoc P l r :
  latest_from P 0 None (l ++ [r]) = see P (length l) (latest_from P 0 None l) r.
Proof. rewrite latest_from_app. reflexivity. Qed.

(** [findOne] answers nothing exactly when no row is selected. *)
Lemma latest_from_None P table :
  latest_from P 0 None table = None ↔ ∀ j r, table !! j = Some r → P r = false.
Proof.
  induction table as [|x l IH] using rev_ind; [done|].
  rewrite latest_from_snoc. unfold see. split.
  - intros Hl j r Hj. apply lookup_snoc_Some in Hj as [[Hj Hr]|[-> <-]].
    + destruct (P x); [|by eapply IH].
      destruct (latest_from P 0 None l) as [[??]|]; [|done].
      by destruct (_ <? _).
    + destruct (P x); [|done].
      destruct (latest_from P 0 None l) as [[??]|]; [|done].
      by destruct (_ <? _).
  - intros Hall. rewrite (Hall (length l) x) by (by apply list_lookup_middle).
    apply IH. intros j r Hj. apply (Hall j). by apply lookup_app_l_Some.
Qed.

(** What [findOne] answers is the most recent selected row. *)
Lemma latest_from_sound P table i r :
  latest_from P 0 None table = Some (i, r) → most_recent P table i r.
Proof.
  revert i r. induction table as [|x l IH] using rev_ind; intros i r; [done|].
  rewrite latest_from_snoc. unfold see.
  destruct (P x) eqn:HPx.
  - destruct (latest_from P 0 None l) as [[k b]|] eqn:Hl.
    + specialize (IH k b eq_refl). destruct IH as (Hk & HPb & Hmax).
      destruct (created_at x <? created_at b) eqn:Hlt.
      * intros [= <- <-]. apply Z.ltb_lt in Hlt.
        split; [|split]; [by apply lookup_app_l_Some|done|].
        intros j r' Hj HP'. apply lookup_snoc_Some in Hj as [[Hj Hr']|[-> <-]].
        -- by apply Hmax.
        -- left. lia.
      * intros [= <- <-]. apply Z.ltb_ge in Hlt.
        split; [|split]; [apply list_lookup_middle; done|done|].
        intros j r' Hj HP'. apply lookup_snoc_Some in Hj as [[Hj Hr']|[-> <-]].
        -- destruct (Hmax j r' Hr' HP') as [?|[? ?]]; [left; lia|].
           destruct (decide (created_at r' < created_at x)); [by left|right].
           split; lia.
        -- right. split; [done|lia].
    + intros [= <- <-].
      split; [|split]; [apply list_lookup_middle; done|done|].
      intros j r' Hj HP'. apply lookup_snoc_Some in Hj as [[Hj Hr']|[-> <-]].
      * rewrite (proj1 (latest_from_None P l) Hl j r' Hr') in HP'. done.
      * right. split; [done|lia].
  - intros Hl. destruct (IH i r Hl) as (Hk & HPb & Hmax).
    split; [|split]; [by apply lookup_app_l_Some|done|].
    intros j r' Hj HP'. apply lookup_snoc_Some in Hj as [[Hj Hr']|[-> <-]].
    + by apply Hmax.
    + congruence.
Qed.

Lemma most_recent_unique P table i r i' r' :
  most_recent P table i r → most_recent P table i' r' → i = i' ∧ r = r'.
Proof.
  intros (Hi & HP & Hmax) (Hi' & HP' & Hmax').
  assert (i = i') as ->.
  { destruct (Hmax i' r' Hi' HP') as [?|[? ?]];
      destruct (Hmax' i r Hi HP) as [?|[? ?]]; lia. }
  split; [done|congruence].
Qed.

(** [findOne] answers exactly the most recent selected row. *)
Lemma latest_from_spec P table i r :
  latest_from P 0 None table = Some (i, r) ↔ most_recent P table i r.
Proof.
  split; [apply latest_from_sound|].
  intros Hmr. destruct (latest_from P 0 None table) as [[k b]|] eqn:Hl.
  - apply latest_from_sound in Hl.
    destruct (most_recent_unique _ _ _ _ _ _ Hl Hmr) as [-> ->]. done.
  - destruct Hmr as (Hi & HP & _).
    rewrite (proj1 (latest_from_None P table) Hl i r Hi) in HP. done.
Qed.

(** ** AgeComputer *)

(** C9: the age is the difference of the years, less one exactly when the
    month and day of the reference date come before those of the birthdate
    in calendar order, and majority is age >= 18. *)
Theorem computeAge_calendar (birthDate : BirthDate.t) (referenceDate : Z) :
  let result := computeAge birthDate referenceDate in
  let referenceYear := Js.getFullYear referenceDate in
  let referenceMonth := Js.getMonth referenceDate + 1 in
  let referenceDay := Js.getDate referenceDate in
  let before :=
    precedes referenceMonth referenceDay
      (BirthDate.month birthDate) (BirthDate.day birthDate) in
  (before → AgeComputationResult.age result
            = referenceYear - BirthDate.year birthDate - 1)
  ∧ (¬ before → AgeComputationResult.age result
                = referenceYear - BirthDate.year birthDate)
  ∧ (AgeComputationResult.isMajor result = true
     ↔ 18 ≤ AgeComputationResult.age result).
Proof.
  unfold computeAge, precedes; simpl.
  set (m := Js.getMonth referenceDate). set (d := Js.getDate referenceDate).
  destruct (m <? BirthDate.month birthDate - 1) eqn:Hm;
    destruct (m =? BirthDate.month birthDate - 1) eqn:He;
    destruct (d <? BirthDate.day birthDate) eqn:Hd; simpl;
    rewrite ?Z.ltb_lt, ?Z.ltb_ge, ?Z.eqb_eq, ?Z.eqb_neq in *;
    rewrite Z.leb_le; (split; [|split]); intros; lia.
Qed.

(** ** Status resolution *)

Lemma in_window_test r now :
  (Js.getTime (valid_from r) <=? Js.getTime now)
  && (Js.getTime now <=? Js.getTime (valid_until r)) = true ↔ in_window r now.
Proof.
  unfold in_window, Js.getTime. rewrite andb_true_iff, !Z.leb_le. tauto.
Qed.

#[local] Arguments computeAge : simpl never.
#[local] Arguments buildAge18PlusClaimParams : simpl never.
#[local] Arguments new_row : simpl never.
#[local] Arguments revoke_rows : simpl never.

Ltac step_M :=
  cbv beta iota zeta delta
    [run exec fst snd mbind M_bind fmap M_fmap mret M_ret Result_bind Result_ret
     findOne save_new save_revoked revoke_active lock_active rotate
     gets modify throw lift Date_now randomBytes execCasperClient
     tick draw called set_challenges set_age_proofs];
  cbn [clock ticks entropy drawn casper casper_calls challenges age_proofs].

Lemma getAge18PlusStatus_reads (w : World) (walletPubkey : string) :
  exec (getAge18PlusStatus walletPubkey) w = tick w.
Proof.
  unfold exec, getAge18PlusStatus. step_M.
  destruct (latest_from _ 0 None (age_proofs w)) as [[i a]|]; simpl.
  - destruct (_ && _); simpl; [done|idtac].
    by destruct (latest_from (is_row_of _ _) 0 None (age_proofs w)) as [[j l]|].
  - by destruct (latest_from (is_row_of _ _) 0 None (age_proofs w)) as [[j l]|].
Qed.

Lemma getAge18PlusStatus_valid (w : World) (walletPubkey : string) i a :
  most_recent (is_valid_candidate walletPubkey) (age_proofs w) i a →
  in_window a (clock w (ticks w)) →
  run (getAge18PlusStatus walletPubkey) w
  = inr {| Status.wallet_pubkey := walletPubkey;
           Status.has_proof := true;
           Status.is_major := true;
           Status.revoked := false;
           Status.valid_from := Some (valid_from a / 1000);
           Status.valid_until := Some (valid_until a / 1000);
           Status.deploy_hash := deploy_hash a |}.
Proof.
  intros Hmr Hwin. apply latest_from_spec in Hmr. apply in_window_test in Hwin.
  unfold run, getAge18PlusStatus, is_valid_candidate in *. step_M.
  rewrite Hmr. simpl. rewrite Hwin. reflexivity.
Qed.

Lemma getAge18PlusStatus_fallback (w : World) (walletPubkey : string) :
  (∀ i a, most_recent (is_valid_candidate walletPubkey) (age_proofs w) i a →
          ¬ in_window a (clock w (ticks w))) →
  run (getAge18PlusStatus walletPubkey) w
  = inr match latest_from (is_row_of walletPubkey CLAIM_TYPE) 0 None (age_proofs w) with
        | None =>
            {| Status.wallet_pubkey := walletPubkey;
               Status.has_proof := false;
               Status.is_major := false;
               Status.revoked := false;
               Status.valid_from := None;
               Status.valid_until := None;
               Status.deploy_hash := None |}
        | Some (_, latest) =>
            {| Status.wallet_pubkey := walletPubkey;
               Status.has_proof := true;
               Status.is_major := false;
               Status.revoked := revoked latest;
               Status.valid_from := Some (valid_from latest / 1000);
               Status.valid_until := Some (valid_until latest / 1000);
               Status.deploy_hash := deploy_hash latest |}
        end.
Proof.
  intros Hno. unfold run, getAge18PlusStatus. step_M.
  destruct (latest_from _ 0 None (age_proofs w)) as [[i a]|] eqn:Hact; simpl.
  - apply (latest_from_spec (is_valid_candidate walletPubkey)) in Hact.
    specialize (Hno i a Hact). rewrite <- in_window_test in Hno.
    apply not_true_is_false in Hno. rewrite Hno. simpl.
    destruct (latest_from (is_row_of _ _) 0 None (age_proofs w)) as [[j l]|];
      reflexivity.
  - destruct (latest_from (is_row_of _ _) 0 None (age_proofs w)) as [[j l]|];
      reflexivity.
Qed.

(** C7: the status is that of the most recent non-revoked majority row when
    now lies in its window; otherwise has_proof = false when the wallet has
    no row at all, and else is_major = false with the revoked flag, the
    window and the hash of the wallet's most recent row, whatever that
    row's own is_major.  The query changes no row. *)
Theorem getAge18PlusStatus_resolution (w : World) (walletPubkey : string) :
  let now := clock w (ticks w) in
  let table := age_proofs w in
  let status := run (getAge18PlusStatus walletPubkey) w in
  (∀ i a,
     most_recent (is_valid_candidate walletPubkey) table i a →
     in_window a now →
     status = inr {| Status.wallet_pubkey := walletPubkey;
                     Status.has_proof := true;
                     Status.is_major := true;
                     Status.revoked := false;
                     Status.valid_from := Some (valid_from a / 1000);
                     Status.valid_until := Some (valid_until a / 1000);
                     Status.deploy_hash := deploy_hash a |})
  ∧ ((∀ i a, most_recent (is_valid_candidate walletPubkey) table i a →
             ¬ in_window a now) →
     ((∀ j r, table !! j = Some r →
              ¬ (wallet_pubkey r = walletPubkey ∧ claim_type r = CLAIM_TYPE)) →
      status = inr {| Status.wallet_pubkey := walletPubkey;
                      Status.has_proof := false;
                      Status.is_major := false;
                      Status.revoked := false;
                      Status.valid_from := None;
                      Status.valid_until := None;
                      Status.deploy_hash := None |})
     ∧ (∀ j latest,
          most_recent (is_row_of walletPubkey CLAIM_TYPE) table j latest →
          status = inr {| Status.wallet_pubkey := walletPubkey;
                          Status.has_proof := true;
                          Status.is_major := false;
                          Status.revoked := revoked latest;
                          Status.valid_from := Some (valid_from latest / 1000);
                          Status.valid_until := Some (valid_until latest / 1000);
                          Status.deploy_hash := deploy_hash latest |}))
  ∧ age_proofs (exec (getAge18PlusStatus walletPubkey) w) = table.
Proof.
  simpl. split; [|split].
  - apply getAge18PlusStatus_valid.
  - intros Hno. rewrite (getAge18PlusStatus_fallback w walletPubkey Hno). split.
    + intros Hnone.
      assert (latest_from (is_row_of walletPubkey CLAIM_TYPE) 0 None (age_proofs w)
              = None) as ->; [|done].
      apply latest_from_None. intros j r Hj.
      apply not_true_is_false. rewrite is_row_of_true. by apply (Hnone j).
    + intros j latest Hmr. apply latest_from_spec in Hmr. by rewrite Hmr.
  - by rewrite getAge18PlusStatus_reads.
Qed.

(** ** Rotation, audit rows and the one-active-row invariant *)

Lemma revokes_invariant t t' :
  revokes t t' → at_most_one_active t → at_most_one_active t'.
Proof.
  intros [_ Hrev] Hinv i j ri rj Hi Hj Hri Hrj Hw Hc.
  destruct (Hrev i ri Hi) as (ri0 & Hi0 & Hwi & Hci & Hsame).
  destruct (Hrev j rj Hj) as (rj0 & Hj0 & Hwj & Hcj & Hsame').
  specialize (Hsame Hri). specialize (Hsame' Hrj). subst ri0 rj0.
  by apply (Hinv i j ri rj).
Qed.

Lemma audit_row_invariant t r :
  revoked r = true → at_most_one_active t → at_most_one_active (t ++ [r]).
Proof.
  intros Hr Hinv i j ri rj Hi Hj Hri Hrj Hw Hc.
  apply lookup_snoc_Some in Hi as [[_ Hi]|[_ <-]]; [|congruence].
  apply lookup_snoc_Some in Hj as [[_ Hj]|[_ <-]]; [|congruence].
  by apply (Hinv i j ri rj).
Qed.

Lemma fresh_row_invariant t r :
  (∀ j r', t !! j = Some r' →
     is_active_of (wallet_pubkey r) (claim_type r) r' = false) →
  at_most_one_active t → at_most_one_active (t ++ [r]).
Proof.
  intros Hnone Hinv i j ri rj Hi Hj Hri Hrj Hw Hc.
  apply lookup_snoc_Some in Hi as [[Hli Hi]|[-> <-]];
    apply lookup_snoc_Some in Hj as [[Hlj Hj]|[-> <-]].
  - by apply (Hinv i j ri rj).
  - specialize (Hnone i ri Hi). apply not_true_iff_false in Hnone.
    destruct Hnone. by apply is_active_of_true.
  - specialize (Hnone j rj Hj). apply not_true_iff_false in Hnone.
    destruct Hnone. by apply is_active_of_true.
  - done.
Qed.

Lemma revoke_rows_revokes walletPubkey now t :
  revokes t (revoke_rows walletPubkey now t).
Proof.
  split; [apply length_fmap|].
  intros i r' Hi. unfold revoke_rows in Hi. rewrite list_lookup_fmap in Hi.
  destruct (t !! i) as [r|] eqn:Hr; [|done]. injection Hi as <-.
  exists r. split; [done|].
  destruct (is_active_of walletPubkey CLAIM_TYPE r); simpl; [|done].
  repeat split; done.
Qed.

Lemma revoke_rows_none_active walletPubkey now t j r' :
  revoke_rows walletPubkey now t !! j = Some r' →
  is_active_of walletPubkey CLAIM_TYPE r' = false.
Proof.
  unfold revoke_rows. rewrite list_lookup_fmap.
  destruct (t !! j) as [r|]; [|done]. intros [= <-].
  destruct (is_active_of walletPubkey CLAIM_TYPE r) eqn:Hact; [|done].
  unfold is_active_of, with_revoked; simpl. apply andb_false_r.
Qed.

Lemma save_revoked_revokes t i a now :
  t !! i = Some a → revokes t (<[ i := with_revoked now a ]> t).
Proof.
  intros Hi. split; [apply length_insert|].
  intros j r' Hj. destruct (decide (i = j)) as [->|Hne].
  - rewrite list_lookup_insert_eq in Hj by (by eapply lookup_lt_Some).
    injection Hj as <-. exists a. by repeat split.
  - rewrite list_lookup_insert_ne in Hj by done. exists r'. by repeat split.
Qed.

Section Lifecycle.

Variable sha256 : list byte → list byte.
Variable USER_HASH_SALT : option string.

Abbreviation createIfMajor := (createAge18PlusClaimIfMajor sha256 USER_HASH_SALT).
Abbreviation buildParams := (buildAge18PlusClaimParams sha256 USER_HASH_SALT).

(** The table after [createAge18PlusClaimIfMajor]: the four readings of
    the clock are those of the claim parameters, of the age, of the
    UPDATE and of the INSERT (a minor reads three). *)
Lemma createIfMajor_table w walletPubkey birthDate validityYears sessionId :
  let params :=
    buildParams walletPubkey birthDate validityYears (clock w (ticks w)) in
  let ageResult := computeAge birthDate (clock w (S (ticks w))) in
  age_proofs (exec (createIfMajor walletPubkey birthDate validityYears sessionId) w)
  = if AgeComputationResult.isMajor ageResult then
      revoke_rows walletPubkey (clock w (2 + ticks w)) (age_proofs w)
        ++ [new_row sessionId walletPubkey params (AgeComputationResult.age ageResult)
              true false None (clock w (3 + ticks w))]
    else
      age_proofs w
        ++ [new_row sessionId walletPubkey params (AgeComputationResult.age ageResult)
              false true None (clock w (2 + ticks w))].
Proof.
  unfold exec, createAge18PlusClaimIfMajor, rotate. step_M.
  destruct (AgeComputationResult.isMajor _); reflexivity.
Qed.

Lemma rotating_table w walletPubkey :
  age_proofs (exec (lock_active walletPubkey;; revoke_active walletPubkey) w)
  = revoke_rows walletPubkey (clock w (ticks w)) (age_proofs w).
Proof. reflexivity. Qed.

Lemma revoke_table w walletPubkey :
  age_proofs (exec (revokeAge18PlusClaim walletPubkey) w)
  = match latest_from (is_active_of walletPubkey CLAIM_TYPE) 0 None (age_proofs w) with
    | Some (i, active) =>
        <[ i := with_revoked (clock w (ticks w)) active ]> (age_proofs w)
    | None => age_proofs w
    end.
Proof.
  unfold exec, revokeAge18PlusClaim. step_M.
  destruct (latest_from (is_active_of _ _) 0 None (age_proofs w)) as [[i a]|];
    [reflexivity|].
  by destruct (latest_from (is_row_of _ _) 0 None (age_proofs w)) as [[j l]|].
Qed.

Lemma createIfMajor_invariant w walletPubkey birthDate validityYears sessionId :
  at_most_one_active (age_proofs w) →
  at_most_one_active
    (age_proofs (exec (createIfMajor walletPubkey birthDate validityYears sessionId) w)).
Proof.
  intros Hinv. rewrite createIfMajor_table.
  destruct (AgeComputationResult.isMajor _).
  - apply fresh_row_invariant.
    + intros j r'. apply revoke_rows_none_active.
    + eapply revokes_invariant; [apply revoke_rows_revokes|done].
  - by apply audit_row_invariant.
Qed.

Lemma revoke_invariant w walletPubkey :
  at_most_one_active (age_proofs w) →
  at_most_one_active (age_proofs (exec (revokeAge18PlusClaim walletPubkey) w)).
Proof.
  intros Hinv. rewrite revoke_table.
  destruct (latest_from _ 0 None (age_proofs w)) as [[i a]|] eqn:Hact; [|done].
  apply latest_from_sound in Hact as (Hi & _).
  eapply revokes_invariant; [by apply save_revoked_revokes|done].
Qed.

(** The invariant holds in every state the service goes through. *)
Lemma reachable_invariant w :
  reachable sha256 USER_HASH_SALT w → at_most_one_active (age_proofs w).
Proof.
  induction 1 as [w Hemp|w wallet bd vy sid _ IH|w wallet _ IH|w wallet _ IH
                 |w wallet _ IH].
  - rewrite Hemp. intros i j ri rj Hi. done.
  - by apply createIfMajor_invariant.
  - rewrite rotating_table.
    eapply revokes_invariant; [apply revoke_rows_revokes|done].
  - by apply revoke_invariant.
  - by rewrite getAge18PlusStatus_reads.
Qed.

(** The only non-revoked row of a wallet is its most recent candidate. *)
Lemma sole_active_most_recent t walletPubkey i r :
  at_most_one_active t →
  t !! i = Some r →
  is_valid_candidate walletPubkey r = true →
  most_recent (is_valid_candidate walletPubkey) t i r.
Proof.
  intros Hinv Hi HP. split; [done|split; [done|]].
  intros j r' Hj HP'. right.
  unfold is_valid_candidate in *.
  apply andb_true_iff in HP as [HP _]. apply andb_true_iff in HP' as [HP' _].
  apply is_active_of_true in HP as (Hw & Hc & Hr).
  apply is_active_of_true in HP' as (Hw' & Hc' & Hr').
  assert (j = i) as -> by (apply (Hinv j i r' r); congruence).
  split; [congruence|lia].
Qed.

(** A row that is revoked is no candidate, and changes no answer. *)
Lemma most_recent_snoc_unselected P t x i r :
  P x = false → most_recent P t i r → most_recent P (t ++ [x]) i r.
Proof.
  intros HPx (Hi & HP & Hmax).
  split; [by apply lookup_app_l_Some|split; [done|]].
  intros j r' Hj HP'. apply lookup_snoc_Some in Hj as [[_ Hj]|[_ <-]].
  - by apply Hmax.
  - congruence.
Qed.

(** C2: when the wallet holds a non-revoked majority row, a computation
    that comes out minor appends one audit row (revoked, not major,
    without hash), changes no existing row and answers isMajor = false,
    claimCreated = false; the status of the wallet after it is still
    is_major = true while now is within the window of the held row. *)
Theorem minor_computation_keeps_claim w walletPubkey birthDate validityYears
    sessionId i held :
  at_most_one_active (age_proofs w) →
  age_proofs w !! i = Some held →
  wallet_pubkey held = walletPubkey → claim_type held = CLAIM_TYPE →
  revoked held = false → is_major held = true →
  AgeComputationResult.isMajor (computeAge birthDate (clock w (S (ticks w)))) = false →
  let call := createIfMajor walletPubkey birthDate validityYears sessionId in
  let w' := exec call w in
  (∃ audit,
     age_proofs w' = age_proofs w ++ [audit]
     ∧ revoked audit = true ∧ is_major audit = false ∧ deploy_hash audit = None)
  ∧ (∃ result,
       run call w = inr result
       ∧ CreateClaimResult.isMajor result = false
       ∧ CreateClaimResult.claimCreated result = false
       ∧ CreateClaimResult.deployHash result = None)
  ∧ (in_window held (clock w' (ticks w')) →
     run (getAge18PlusStatus walletPubkey) w'
     = inr {| Status.wallet_pubkey := walletPubkey;
              Status.has_proof := true;
              Status.is_major := true;
              Status.revoked := false;
              Status.valid_from := Some (valid_from held / 1000);
              Status.valid_until := Some (valid_until held / 1000);
              Status.deploy_hash := deploy_hash held |}).
Proof.
  intros Hinv Hi Hw Hc Hr Hm Hminor. cbv zeta.
  assert (age_proofs
            (exec (createIfMajor walletPubkey birthDate validityYears sessionId) w)
          = age_proofs w
              ++ [new_row sessionId walletPubkey
                    (buildParams walletPubkey birthDate validityYears
                       (clock w (ticks w)))
                    (AgeComputationResult.age
                       (computeAge birthDate (clock w (S (ticks w)))))
                    false true None (clock w (2 + ticks w))]) as Htable.
  { rewrite createIfMajor_table. cbv zeta. by rewrite Hminor. }
  split; [|split].
  - eexists. split; [exact Htable|]. by repeat split.
  - unfold createAge18PlusClaimIfMajor. step_M. rewrite Hminor. cbn [negb].
    eexists. split; [reflexivity|]. by repeat split.
  - intros Hwin. eapply getAge18PlusStatus_valid; [|exact Hwin].
    rewrite Htable. apply most_recent_snoc_unselected.
    + unfold is_valid_candidate, is_active_of, new_row; simpl.
      by rewrite andb_false_r.
    + apply sole_active_most_recent; [done..|].
      unfold is_valid_candidate. rewrite Hm, andb_true_r.
      by apply is_active_of_true.
Qed.

(** C1: in every state reachable from an empty table through createIfMajor
    (minor or major), revoke and getStatus, and inside the rotating
    transaction, at most one row per (wallet_pubkey, claim_type) has
    revoked = false.  The major path revokes every non-revoked row of the
    wallet and appends exactly one non-revoked row, the minor path appends
    only a revoked row, and revoke and getStatus add no row. *)
Theorem one_active_row_per_wallet :
  (∀ w, reachable sha256 USER_HASH_SALT w → at_most_one_active (age_proofs w))
  ∧ (∀ w walletPubkey birthDate validityYears sessionId,
       let w' := exec (createIfMajor walletPubkey birthDate validityYears sessionId) w in
       if AgeComputationResult.isMajor (computeAge birthDate (clock w (S (ticks w))))
       then
         ∃ rotated row,
           age_proofs w' = rotated ++ [row]
           ∧ revokes (age_proofs w) rotated
           ∧ (∀ r, r ∈ rotated →
                   wallet_pubkey r = walletPubkey → claim_type r = CLAIM_TYPE →
                   revoked r = true)
           ∧ revoked row = false
           ∧ wallet_pubkey row = walletPubkey ∧ claim_type row = CLAIM_TYPE
       else
         ∃ row, age_proofs w' = age_proofs w ++ [row] ∧ revoked row = true)
  ∧ (∀ w walletPubkey,
       length (age_proofs (exec (revokeAge18PlusClaim walletPubkey) w))
       = length (age_proofs w)
       ∧ age_proofs (exec (getAge18PlusStatus walletPubkey) w) = age_proofs w).
Proof.
  split; [apply reachable_invariant|split].
  - intros w walletPubkey birthDate validityYears sessionId. cbv zeta.
    rewrite createIfMajor_table.
    destruct (AgeComputationResult.isMajor _).
    + eexists _, _. split; [reflexivity|].
      split; [apply revoke_rows_revokes|].
      split; [|done].
      intros r [j Hj]%list_elem_of_lookup Hw Hc.
      apply revoke_rows_none_active in Hj.
      destruct (revoked r) eqn:Hr; [done|].
      assert (is_active_of walletPubkey CLAIM_TYPE r = true)
        by (by apply is_active_of_true).
      congruence.
    + eexists. split; reflexivity.
  - intros w walletPubkey. split.
    + rewrite revoke_table.
      destruct (latest_from _ 0 None (age_proofs w)) as [[i a]|]; [|done].
      apply length_insert.
    + by rewrite getAge18PlusStatus_reads.
Qed.

End Lifecycle.

(** ** Revocation *)

Lemma revoke_run w walletPubkey :
  revokeAge18PlusClaim walletPubkey w
  = match latest_from (is_active_of walletPubkey CLAIM_TYPE) 0 None (age_proofs w) with
    | Some (i, active) =>
        (inr (revoked_as walletPubkey active),
         set_age_proofs (λ t, <[ i := with_revoked (clock w (ticks w)) active ]> t)
           (tick w))
    | None =>
        (inr match latest_from (is_row_of walletPubkey CLAIM_TYPE) 0 None
                     (age_proofs w) with
             | Some (_, latest) => revoked_as walletPubkey latest
             | None => nothing_to_revoke walletPubkey
             end, w)
    end.
Proof.
  unfold revokeAge18PlusClaim. step_M.
  destruct (latest_from (is_active_of _ _) 0 None (age_proofs w)) as [[i a]|];
    [reflexivity|].
  destruct (latest_from (is_row_of _ _) 0 None (age_proofs w)) as [[j l]|];
    reflexivity.
Qed.

(** Revoking the selected row in place keeps it the most recent one. *)
Lemma most_recent_revoked P table i a now :
  P (with_revoked now a) = true →
  most_recent P table i a →
  most_recent P (<[ i := with_revoked now a ]> table) i (with_revoked now a).
Proof.
  intros HP' (Hi & HP & Hmax).
  split; [|split; [done|]].
  - apply list_lookup_insert_eq. by eapply lookup_lt_Some.
  - intros j r' Hj HPr. destruct (decide (i = j)) as [<-|Hne].
    + rewrite list_lookup_insert_eq in Hj by (by eapply lookup_lt_Some).
      injection Hj as <-. right. split; [done|lia].
    + rewrite list_lookup_insert_ne in Hj by done. by apply Hmax.
Qed.

(** Once the only active row of a wallet is revoked, none is left. *)
Lemma none_active_after_revoke table walletPubkey i a now :
  at_most_one_active table →
  most_recent (is_active_of walletPubkey CLAIM_TYPE) table i a →
  latest_from (is_active_of walletPubkey CLAIM_TYPE) 0 None
    (<[ i := with_revoked now a ]> table) = None.
Proof.
  intros Hinv (Hi & HP & _). apply latest_from_None. intros j r Hj.
  destruct (decide (i = j)) as [<-|Hne].
  - rewrite list_lookup_insert_eq in Hj by (by eapply lookup_lt_Some).
    injection Hj as <-. unfold is_active_of, with_revoked; simpl.
    apply andb_false_r.
  - rewrite list_lookup_insert_ne in Hj by done.
    apply not_true_is_false. intros HPr. apply Hne.
    apply is_active_of_true in HP as (Hw & Hc & Hr).
    apply is_active_of_true in HPr as (Hw' & Hc' & Hr').
    apply (Hinv i j a r); congruence.
Qed.

(** C8, as the service has it: under the one-active-row invariant the
    second of two successive revocations adds no row and changes none, and
    both answer the same had_proof and the same revoked flag, which are true
    exactly when the wallet has a row of the claim type (a wallet without
    any row gets had_proof = false and revoked = false with an empty window
    and hash both times).  The two answers are identical as a whole when
    the first call found no active row, or when the row it revoked is also
    the most recent row of the wallet; otherwise the second answer carries
    the window and hash of the most recent row. *)
Theorem revoke_twice (w : World) (walletPubkey : string) :
  at_most_one_active (age_proofs w) →
  let first := run (revokeAge18PlusClaim walletPubkey) w in
  let w1 := exec (revokeAge18PlusClaim walletPubkey) w in
  let second := run (revokeAge18PlusClaim walletPubkey) w1 in
  let w2 := exec (revokeAge18PlusClaim walletPubkey) w1 in
  w2 = w1
  ∧ length (age_proofs w1) = length (age_proofs w)
  ∧ ∃ r1 r2,
      first = inr r1 ∧ second = inr r2
      ∧ Revocation.had_proof r1 = Revocation.had_proof r2
      ∧ Revocation.revoked r1 = Revocation.revoked r2
      ∧ Revocation.revoked r1 = Revocation.had_proof r1
      ∧ (Revocation.had_proof r1 = true ↔ has_history walletPubkey (age_proofs w))
      ∧ (Revocation.had_proof r1 = false → r1 = nothing_to_revoke walletPubkey)
      ∧ (∀ j latest,
           most_recent (is_row_of walletPubkey CLAIM_TYPE) (age_proofs w1) j latest →
           r2 = revoked_as walletPubkey latest)
      ∧ ((∀ i a,
            most_recent (is_active_of walletPubkey CLAIM_TYPE) (age_proofs w) i a →
            most_recent (is_row_of walletPubkey CLAIM_TYPE) (age_proofs w) i a) →
         r1 = r2).
Proof.
  intros Hinv. unfold run, exec. cbv zeta.
  rewrite (revoke_run w).
  destruct (latest_from (is_active_of _ _) 0 None (age_proofs w)) as [[i a]|] eqn:Hact.
  - (* an active row is revoked by the first call *)
    apply latest_from_sound in Hact.
    cbn [fst snd]. rewrite revoke_run.
    cbn [age_proofs set_age_proofs tick].
    rewrite (none_active_after_revoke _ _ _ _ _ Hinv Hact).
    cbn [fst snd age_proofs set_age_proofs tick].
    split; [reflexivity|]. split; [apply length_insert|].
    pose proof Hact as (Hi & HP & _).
    pose proof HP as (Hw & Hc & Hr)%is_active_of_true.
    assert (is_row_of walletPubkey CLAIM_TYPE (with_revoked (clock w (ticks w)) a)
            = true) as Hrow by (by apply is_row_of_true).
    destruct (latest_from (is_row_of _ _) 0 None
                (<[ i := with_revoked (clock w (ticks w)) a ]> (age_proofs w)))
      as [[j l]|] eqn:Hlat.
    + eexists _, _. repeat split; try reflexivity.
      * intros _. exists i, a. done.
      * discriminate.
      * intros j' l' Hmr%latest_from_spec. congruence.
      * intros Hsame. specialize (Hsame i a Hact).
        apply (most_recent_revoked _ _ _ _ (clock w (ticks w)) Hrow) in Hsame.
        apply latest_from_spec in Hsame. rewrite Hsame in Hlat.
        injection Hlat as <- <-. reflexivity.
    + exfalso.
      rewrite (proj1 (latest_from_None _ _) Hlat i
                 (with_revoked (clock w (ticks w)) a)) in Hrow; [done|].
      apply list_lookup_insert_eq. by eapply lookup_lt_Some.
  - (* nothing is active: both calls only read *)
    cbn [fst snd]. rewrite revoke_run, Hact. cbn [fst snd].
    split; [reflexivity|]. split; [reflexivity|].
    destruct (latest_from (is_row_of _ _) 0 None (age_proofs w)) as [[j l]|] eqn:Hlat.
    + eexists _, _. repeat split; try reflexivity.
      * intros _. apply latest_from_sound in Hlat as (Hj & HP & _).
        apply is_row_of_true in HP as [??]. exists j, l. done.
      * discriminate.
      * intros j' l' Hmr%latest_from_spec. congruence.
    + eexists _, _. repeat split; try reflexivity.
      * discriminate.
      * intros (j & r & Hj & Hw & Hc). exfalso.
        assert (is_row_of walletPubkey CLAIM_TYPE r = true) as Hrow
          by (by apply is_row_of_true).
        rewrite (proj1 (latest_from_None _ _) Hlat j r Hj) in Hrow. done.
      * intros j' l' Hmr%latest_from_spec. congruence.
Qed.

(** ** Ledger anchoring *)

Section Anchoring.

Variable sha256 : list byte → list byte.
Variable USER_HASH_SALT : option string.

(** C3, as the two revisions of the service have it.  The off-chain
    revision never calls the ledger: a major computation commits the new
    non-revoked row without hash and answers deployHash = null.  The
    revision anchoring on Casper calls the ledger before it writes any
    row: when the call fails the generic exception reaches the caller and
    the table is unchanged, and when it succeeds one non-revoked row with
    the returned hash is appended. *)
Theorem anchoring_and_commit (w : World) (walletPubkey : string)
    (birthDate : BirthDate.t) (validityYears : Z) (sessionId : option string) :
  (AgeComputationResult.isMajor (computeAge birthDate (clock w (S (ticks w)))) = true →
   let call :=
     AgeProofService.createAge18PlusClaimIfMajor sha256 USER_HASH_SALT
       walletPubkey birthDate validityYears sessionId in
   casper_calls (exec call w) = casper_calls w
   ∧ (∃ result, run call w = inr result
        ∧ CreateClaimResult.claimCreated result = true
        ∧ CreateClaimResult.deployHash result = None)
   ∧ (∃ rotated row, age_proofs (exec call w) = rotated ++ [row]
        ∧ is_major row = true ∧ revoked row = false ∧ deploy_hash row = None))
  ∧ (AgeComputationResult.isMajor (computeAge birthDate (clock w (ticks w))) = true →
     let call :=
       CasperAgeProofService.createAge18PlusClaimIfMajor sha256 USER_HASH_SALT
         walletPubkey birthDate validityYears sessionId in
     casper_calls (exec call w) = S (casper_calls w)
     ∧ match casper w (casper_calls w) with
       | None =>
           run call w = inl CasperAgeProofService.CASPER_REGISTER_OR_UPDATE_FAILED
           ∧ age_proofs (exec call w) = age_proofs w
       | Some hash =>
           (∃ result, run call w = inr result
              ∧ CreateClaimResult.claimCreated result = true
              ∧ CreateClaimResult.deployHash result = Some hash)
           ∧ (∃ row, age_proofs (exec call w) = age_proofs w ++ [row]
                ∧ is_major row = true ∧ revoked row = false
                ∧ deploy_hash row = Some hash)
       end).
Proof.
  split.
  - intros Hmajor. cbv zeta.
    unfold AgeProofService.createAge18PlusClaimIfMajor. step_M.
    rewrite Hmajor. cbn [negb]. step_M.
    split; [reflexivity|]. split.
    + eexists. by repeat split.
    + eexists _, _. by repeat split.
  - intros Hmajor. cbv zeta.
    unfold CasperAgeProofService.createAge18PlusClaimIfMajor,
      CasperAgeProofService.sendClaimToCasper. step_M.
    rewrite Hmajor. cbn [negb]. step_M.
    destruct (casper w (casper_calls w)) as [hash|]; step_M.
    + split; [reflexivity|]. split.
      * eexists. by repeat split.
      * eexists. by repeat split.
    + by repeat split.
Qed.

End Anchoring.

(** C3 fails where the ledger is called: in the scenario `casper-client`
    fails, the exception reaches the caller and no row, hence no
    non-revoked row without hash, is left in the table. *)
Lemma ledger_failure_commits_nothing :
  AgeComputationResult.isMajor
    (computeAge Scenario.adult (clock Scenario.w0 (ticks Scenario.w0))) = true
  ∧ run Scenario.anchor Scenario.w0
    = inl CasperAgeProofService.CASPER_REGISTER_OR_UPDATE_FAILED
  ∧ ¬ ∃ row, row ∈ age_proofs (exec Scenario.anchor Scenario.w0)
             ∧ revoked row = false ∧ deploy_hash row = None.
Proof.
  split; [reflexivity|]. split; [reflexivity|].
  intros (row & Hin & _). vm_compute in Hin. inversion Hin.
Qed.

(** ** Signature verification *)

Import AuthService.

Section Verification.

Variable nacl_sign_detached_verify : list byte → list byte → list byte → bool.
Variable secp_verify : list byte → list byte → list byte → bool.
Variable sha256 : list byte → list byte.

Abbreviation verifySignature :=
  (verifyCasperSignature nacl_sign_detached_verify secp_verify sha256).

(** C6, as the service has it: of an Ed25519 signature of 65 bytes the
    first byte is dropped and the last 64 are verified, one of 64 bytes is
    used as it is; a secp256k1 signature of 64 or 65 bytes is accepted, its
    first 64 bytes being checked against the SHA-256 digest of each
    candidate message; any other length is rejected. *)
Theorem signature_normalization :
  (∀ signatureHex bytes,
     hexToBytes (Js.strip_0x (Js.toLowerCase signatureHex)) = inr bytes →
     (length bytes = 64%nat →
        normalizeSignatureBytes signatureHex ed25519 = inr bytes
        ∧ normalizeSignatureBytes signatureHex secp256k1 = inr bytes)
     ∧ (length bytes = 65%nat →
          normalizeSignatureBytes signatureHex ed25519 = inr (drop 1 bytes)
          ∧ normalizeSignatureBytes signatureHex secp256k1 = inr bytes)
     ∧ (length bytes ≠ 64%nat → length bytes ≠ 65%nat →
          ∃ e1 e2,
            normalizeSignatureBytes signatureHex ed25519 = inl e1
            ∧ normalizeSignatureBytes signatureHex secp256k1 = inl e2))
  ∧ (∀ walletPubkeyHex message signatureHex pubKeyBytes sigBytes,
       Js.toLowerCase (Js.take 2 walletPubkeyHex) = "01" →
       hexToBytes (Js.drop 2 walletPubkeyHex) = inr pubKeyBytes →
       normalizeSignatureBytes signatureHex ed25519 = inr sigBytes →
       verifySignature walletPubkeyHex message signatureHex
       = inr (nacl_sign_detached_verify
                (Js.encode ("Casper Message:" +:+ String "010" message))
                sigBytes pubKeyBytes
              || nacl_sign_detached_verify (Js.encode message) sigBytes pubKeyBytes))
  ∧ (∀ walletPubkeyHex message signatureHex pubKeyBytes sigBytes,
       Js.toLowerCase (Js.take 2 walletPubkeyHex) = "02" →
       hexToBytes (Js.drop 2 walletPubkeyHex) = inr pubKeyBytes →
       normalizeSignatureBytes signatureHex secp256k1 = inr sigBytes →
       verifySignature walletPubkeyHex message signatureHex
       = inr (secp_verify (take 64 sigBytes)
                (sha256 (Js.encode ("Casper Message:" +:+ String "010" message)))
                pubKeyBytes
              || secp_verify (take 64 sigBytes) (sha256 (Js.encode message))
                   pubKeyBytes)).
Proof.
  split; [|split].
  - intros signatureHex bytes Hbytes. unfold normalizeSignatureBytes.
    rewrite Hbytes. cbn [mbind Result_bind].
    split; [|split].
    + intros ->%Nat.eqb_eq. done.
    + intros Hlen. rewrite Hlen. done.
    + intros H64%Nat.eqb_neq H65%Nat.eqb_neq. rewrite H64, H65. cbn [orb].
      eauto.
  - intros key message signatureHex pk sigBytes Htag Hpk Hsig.
    unfold verifyCasperSignature. rewrite Htag. cbn [String.eqb Ascii.eqb Bool.eqb].
    rewrite Hpk, Hsig. cbn [mbind Result_bind mret Result_ret existsb].
    by rewrite orb_false_r.
  - intros key message signatureHex pk sigBytes Htag Hpk Hsig.
    unfold verifyCasperSignature. rewrite Htag. cbn [String.eqb Ascii.eqb Bool.eqb].
    rewrite Hpk, Hsig. cbn [mbind Result_bind mret Result_ret existsb].
    assert ((if (length sigBytes =? 65)%nat then take 64 sigBytes else sigBytes)
            = take 64 sigBytes) as ->; [|by rewrite orb_false_r].
    destruct (length sigBytes =? 65)%nat eqn:H65; [done|].
    unfold normalizeSignatureBytes in Hsig.
    destruct (hexToBytes (Js.strip_0x _)) as [e|bytes]; [done|].
    cbn [mbind Result_bind] in Hsig.
    destruct (length bytes =? 64)%nat eqn:H64; cbn [orb] in Hsig.
    + injection Hsig as ->. apply Nat.eqb_eq in H64.
      by rewrite take_ge by lia.
    + destruct (length bytes =? 65)%nat eqn:H65'; [|done].
      injection Hsig as ->. congruence.
Qed.

End Verification.

(** ** Challenge consumption *)

Section Challenges.

Variable nacl_sign_detached_verify : list byte → list byte → list byte → bool.
Variable secp_verify : list byte → list byte → list byte → bool.
Variable sha256 : list byte → list byte.
Variable jwt_sign : JwtPayload.t → Z → Z → Result string.

Abbreviation verifySig :=
  (verifyCasperSignature nacl_sign_detached_verify secp_verify sha256).
Abbreviation verify :=
  (verifySignatureAndIssueToken nacl_sign_detached_verify secp_verify sha256
     jwt_sign).

(** The paths of [verifySignatureAndIssueToken], in the order they are
    tried. *)
Lemma verify_run (body : VerifyRequestDto.t) (w : World) :
  let wallet := Js.trim (VerifyRequestDto.wallet_pubkey body) in
  let id := Js.trim (VerifyRequestDto.challenge_id body) in
  let signature := Js.trim (VerifyRequestDto.signature_hex body) in
  verify body w
  = match assertPubkeyFormat wallet with
    | inl e => (inl e, w)
    | inr _ =>
        match challenges w !! id with
        | None => (inl UnknownOrExpired, w)
        | Some stored =>
            if negb (String.eqb (walletPubkey stored) wallet) then
              (inl WalletMismatch, w)
            else if expiresAtMs stored <? clock w (ticks w) then
              (inl Expired, set_challenges (delete id) (tick w))
            else
              match verifySig wallet (messageToSign stored) signature with
              | inl e => (inl e, tick w)
              | inr false => (inl InvalidSignature, tick w)
              | inr true =>
                  (credential jwt_sign wallet (clock w (S (ticks w))),
                   tick (set_challenges (delete id) (tick w)))
              end
        end
    end.
Proof.
  cbv zeta. unfold verifySignatureAndIssueToken, signAsync, credential. step_M.
  destruct (assertPubkeyFormat _) as [e|[]]; [reflexivity|].
  destruct (challenges w !! _) as [stored|]; [|reflexivity].
  destruct (negb _); [reflexivity|].
  destruct (expiresAtMs stored <? _); [reflexivity|].
  destruct (verifyCasperSignature _ _ _ _ _ _) as [e|[|]]; try reflexivity.
  cbn [negb]. step_M.
  destruct (jwt_sign _ _ _); reflexivity.
Qed.

(** C5: past validation of the key, an unknown id fails UnknownOrExpired,
    a challenge stored for another wallet fails WalletMismatch, and only
    then a challenge past its time fails Expired and is removed, whatever
    the signature and whatever the verifiers would say of it; the
    signature is looked at in the remaining case only. *)
Theorem consume_failure_order (body : VerifyRequestDto.t) (w : World) :
  let wallet := Js.trim (VerifyRequestDto.wallet_pubkey body) in
  let id := Js.trim (VerifyRequestDto.challenge_id body) in
  let signature := Js.trim (VerifyRequestDto.signature_hex body) in
  assertPubkeyFormat wallet = inr () →
  (challenges w !! id = None → verify body w = (inl UnknownOrExpired, w))
  ∧ (∀ stored,
       challenges w !! id = Some stored → walletPubkey stored ≠ wallet →
       verify body w = (inl WalletMismatch, w))
  ∧ (∀ stored,
       challenges w !! id = Some stored → walletPubkey stored = wallet →
       expiresAtMs stored < clock w (ticks w) →
       run (verify body) w = inl Expired
       ∧ challenges (exec (verify body) w) = delete id (challenges w))
  ∧ (∀ stored,
       challenges w !! id = Some stored → walletPubkey stored = wallet →
       clock w (ticks w) ≤ expiresAtMs stored →
       match verifySig wallet (messageToSign stored) signature with
       | inl e =>
           run (verify body) w = inl e
           ∧ challenges (exec (verify body) w) = challenges w
       | inr false =>
           run (verify body) w = inl InvalidSignature
           ∧ challenges (exec (verify body) w) = challenges w
       | inr true =>
           run (verify body) w = credential jwt_sign wallet (clock w (S (ticks w)))
           ∧ challenges (exec (verify body) w) = delete id (challenges w)
       end).
Proof.
  cbv zeta. intros Hformat.
  unfold run, exec. rewrite verify_run. cbv zeta. rewrite Hformat.
  split; [|split; [|split]].
  - by intros ->.
  - intros stored -> Hne. apply String.eqb_neq in Hne. by rewrite Hne.
  - intros stored -> <- Hlate. rewrite String.eqb_refl. cbn [negb].
    apply Z.ltb_lt in Hlate. by rewrite Hlate.
  - intros stored -> <- Hintime. rewrite String.eqb_refl. cbn [negb].
    apply Z.ltb_ge in Hintime. rewrite Hintime.
    by destruct (verifyCasperSignature _ _ _ _ _ _) as [e|[|]].
Qed.

(** C4: once a verification has succeeded the challenge is gone; a second
    verification with the same id fails UnknownOrExpired as soon as it
    reaches the challenge (that is, past the validation of the key it
    names, as the same request does), leaves the state as it is, and in no
    case issues a token. *)
Theorem consume_exactly_once (body : VerifyRequestDto.t) (w : World)
    (response : VerifyResponseDto.t) :
  run (verify body) w = inr response →
  let w' := exec (verify body) w in
  let id := Js.trim (VerifyRequestDto.challenge_id body) in
  challenges w' !! id = None
  ∧ verify body w' = (inl UnknownOrExpired, w')
  ∧ (∀ again,
       Js.trim (VerifyRequestDto.challenge_id again) = id →
       (assertPubkeyFormat (Js.trim (VerifyRequestDto.wallet_pubkey again)) = inr () →
        verify again w' = (inl UnknownOrExpired, w'))
       ∧ (∃ e, verify again w' = (inl e, w'))).
Proof.
  unfold run, exec. rewrite verify_run. cbv zeta.
  destruct (assertPubkeyFormat _) as [e|[]] eqn:Hformat; [done|].
  destruct (challenges w !! _) as [stored|] eqn:Hstored; [|done].
  destruct (negb _); [done|].
  destruct (expiresAtMs stored <? _); [done|].
  destruct (verifyCasperSignature _ _ _ _ _ _) as [e|[|]]; [done| |done].
  cbn [fst snd]. intros _.
  set (w' := tick (set_challenges _ _)).
  assert (challenges w' !! Js.trim (VerifyRequestDto.challenge_id body) = None)
    as Hgone by apply lookup_delete_eq.
  split; [exact Hgone|]. split.
  - rewrite verify_run. cbv zeta. by rewrite Hformat, Hgone.
  - intros again Hid. split.
    + intros Hformat'. rewrite verify_run. cbv zeta.
      by rewrite Hformat', Hid, Hgone.
    + rewrite verify_run. cbv zeta. rewrite Hid, Hgone.
      destruct (assertPubkeyFormat (Js.trim (VerifyRequestDto.wallet_pubkey again)))
        as [e|[]]; eauto.
Qed.

Lemma startsWith_two (a b : ascii) (s : string) :
  Js.startsWith (String a (String b "")) s = true →
  ∃ r, s = String a (String b r).
Proof.
  destruct s as [|a' [|b' r]]; simpl; [done| |].
  - by rewrite andb_false_r.
  - rewrite andb_true_r.
    intros [->%Ascii.eqb_eq ->%Ascii.eqb_eq]%andb_true_iff. eauto.
Qed.

Lemma startsWith_01_not_02 (hex : string) :
  Js.startsWith "01" hex = true → Js.startsWith "02" hex = false.
Proof. by intros [r ->]%startsWith_two. Qed.

(** A well-formed key passes [assertPubkeyFormat], with or without the
    prefix 0x. *)
Lemma well_formed_key_accepted (key : string) :
  well_formed_key key = true →
  assertPubkeyFormat key = inr () ∧ assertPubkeyFormat ("0x" +:+ key) = inr ().
Proof.
  unfold well_formed_key. intros [Hhex Htag]%andb_true_iff.
  assert (Js.strip_0x (Js.toLowerCase key) = Js.toLowerCase key) as Hplain.
  { unfold Js.strip_0x.
    destruct (Js.startsWith "0x" (Js.toLowerCase key)) eqn:H0x; [|done].
    exfalso. apply startsWith_two in H0x as [r Hr]. rewrite Hr in Htag.
    by vm_compute in Htag. }
  assert (∀ hex, hex = Js.toLowerCase key →
            (if negb (Js.test_lower_hex hex) then
               inl (BadRequestException "wallet_pubkey must be hex")
             else if negb (Js.startsWith "01" hex || Js.startsWith "02" hex) then
               inl (BadRequestException
                      "wallet_pubkey must start with 01 (Ed25519) or 02 (Secp256k1)")
             else if Js.startsWith "01" hex && negb (String.length hex =? 66)%nat then
               inl (BadRequestException
                      ("Ed25519 pubkey must be 66 hex chars, got "
                         +:+ Js.string_of_N (N.of_nat (String.length hex))))
             else if Js.startsWith "02" hex && negb (String.length hex =? 68)%nat then
               inl (BadRequestException
                      ("Secp256k1 pubkey must be 68 hex chars, got "
                         +:+ Js.string_of_N (N.of_nat (String.length hex))))
             else inr ()) = (inr () : Result unit)) as Hchecks.
  { intros hex ->. rewrite Hhex. cbn [negb].
    apply orb_true_iff in Htag as [[H01 Hlen]%andb_true_iff|[H02 Hlen]%andb_true_iff].
    - rewrite H01, (startsWith_01_not_02 _ H01), Hlen. reflexivity.
    - rewrite H02, Hlen.
      destruct (Js.startsWith "01" (Js.toLowerCase key)) eqn:H01; [|reflexivity].
      apply startsWith_01_not_02 in H01. congruence. }
  split.
  - unfold assertPubkeyFormat. cbv zeta. rewrite Hplain. by apply Hchecks.
  - unfold assertPubkeyFormat. cbv zeta.
    change (Js.strip_0x (Js.toLowerCase ("0x" +:+ key))) with (Js.toLowerCase key).
    by apply Hchecks.
Qed.

(** C10: a well-formed key written with the prefix 0x is accepted at
    issuance and stored with its prefix; the signature check of its
    challenge then fails UnsupportedAlgorithm whatever the signature, the
    tag being read from the first two characters of the stored key, and
    the challenge stays; no verification for that key issues a token. *)
Theorem prefixed_key_never_verifies (walletPubkeyRaw key : string) (w : World) :
  Js.trim walletPubkeyRaw = "0x" +:+ key →
  well_formed_key key = true →
  let wallet := "0x" +:+ key in
  (∃ response,
     run (createChallenge walletPubkeyRaw) w = inr response
     ∧ ChallengeResponseDto.wallet_pubkey response = wallet
     ∧ challenges (exec (createChallenge walletPubkeyRaw) w)
         !! ChallengeResponseDto.challenge_id response
       = Some {| walletPubkey := wallet;
                 messageToSign := ChallengeResponseDto.message_to_sign response;
                 expiresAtMs := clock w (2 + ticks w) + CHALLENGE_TTL_MS |})
  ∧ (∀ message signatureHex,
       verifySig wallet message signatureHex = inl UnsupportedAlgorithm)
  ∧ (∀ body w2 stored,
       Js.trim (VerifyRequestDto.wallet_pubkey body) = wallet →
       challenges w2 !! Js.trim (VerifyRequestDto.challenge_id body) = Some stored →
       walletPubkey stored = wallet →
       clock w2 (ticks w2) ≤ expiresAtMs stored →
       run (verify body) w2 = inl UnsupportedAlgorithm
       ∧ challenges (exec (verify body) w2) = challenges w2)
  ∧ (∀ body w2,
       Js.trim (VerifyRequestDto.wallet_pubkey body) = wallet →
       ∃ e, run (verify body) w2 = inl e).
Proof.
  intros Htrim Hkey. cbv zeta.
  destruct (well_formed_key_accepted key Hkey) as [_ Hformat].
  assert (∀ message signatureHex,
            verifySig ("0x" +:+ key) message signatureHex = inl UnsupportedAlgorithm)
    as Hunsupported by reflexivity.
  split; [|split; [exact Hunsupported|split]].
  - unfold createChallenge, randomHex. step_M. rewrite Htrim, Hformat. step_M.
    eexists. split; [reflexivity|]. split; [reflexivity|].
    cbn [ChallengeResponseDto.challenge_id ChallengeResponseDto.message_to_sign].
    apply lookup_insert_eq.
  - intros body w2 stored Hwallet Hstored Hsame Hintime.
    unfold run, exec. rewrite verify_run. cbv zeta.
    rewrite Hwallet, Hformat, Hstored, Hsame, String.eqb_refl. cbn [negb].
    apply Z.ltb_ge in Hintime. rewrite Hintime, Hunsupported. done.
  - intros body w2 Hwallet.
    unfold run. rewrite verify_run. cbv zeta. rewrite Hwallet, Hformat.
    destruct (challenges w2 !! _) as [stored|]; [|eauto].
    destruct (negb _); [eauto|].
    destruct (expiresAtMs stored <? _); [eauto|].
    rewrite Hunsupported. eauto.
Qed.

End Challenges.

(** C6 fails on an Ed25519 signature of 65 bytes: the 64 bytes that are
    verified are the last ones, not the first. *)
Lemma ed25519_keeps_last_64_bytes :
  ∃ bytes,
    hexToBytes Scenario.signature65 = inr bytes
    ∧ length bytes = 65%nat
    ∧ normalizeSignatureBytes Scenario.signature65 ed25519 = inr (drop 1 bytes)
    ∧ normalizeSignatureBytes Scenario.signature65 ed25519 ≠ inr (take 64 bytes).
Proof.
  eexists. split; [vm_compute; reflexivity|].
  split; [reflexivity|]. split; [vm_compute; reflexivity|].
  vm_compute. discriminate.
Qed.

(** C8 fails on a wallet whose most recent row is an audit row: after a
    major computation and a minor one, the first revocation answers with
    the window of the row it revokes and the second with the window of the
    audit row.  It fails as well on a wallet without rows, for which revoke
    answers revoked = false. *)
Lemma revoke_twice_answers_differ :
  (¬ ∃ r1 r2,
       run (revokeAge18PlusClaim Scenario.wallet) Scenario.w2 = inr r1
       ∧ run (revokeAge18PlusClaim Scenario.wallet) Scenario.w3 = inr r2
       ∧ Revocation.revoked r1 = true ∧ Revocation.revoked r2 = true
       ∧ Revocation.had_proof r1 = Revocation.had_proof r2
       ∧ Revocation.valid_from r1 = Revocation.valid_from r2
       ∧ Revocation.valid_until r1 = Revocation.valid_until r2
       ∧ Revocation.deploy_hash r1 = Revocation.deploy_hash r2)
  ∧ run (revokeAge18PlusClaim Scenario.wallet) Scenario.w0
    = inr (nothing_to_revoke Scenario.wallet).
Proof.
  split; [|reflexivity].
  intros (r1 & r2 & H1 & H2 & _ & _ & _ & Hfrom & _).
  vm_compute in H1, H2. injection H1 as <-. injection H2 as <-.
  discriminate.
Qed.

(** ** The scenario, step by step *)

Lemma one_active_row_per_wallet_witness :
  at_most_one_active (age_proofs Scenario.w3).
Proof.
  apply (proj1 (one_active_row_per_wallet Scenario.digest None)).
  apply reachable_revoke, reachable_create, reachable_create, reachable_init.
  reflexivity.
Defined.

Lemma minor_computation_keeps_claim_witness :
  run (getAge18PlusStatus Scenario.wallet) Scenario.w2
  = inr {| Status.wallet_pubkey := Scenario.wallet;
           Status.has_proof := true;
           Status.is_major := true;
           Status.revoked := false;
           Status.valid_from := Some 1717200000;
           Status.valid_until := Some 1780272000;
           Status.deploy_hash := None |}.
Proof.
  refine (proj2 (proj2 (minor_computation_keeps_claim Scenario.digest None
            Scenario.w1 Scenario.wallet Scenario.child 2 None 0
            Scenario.active_row _ _ _ _ _ _ _)) _).
  - apply (reachable_invariant Scenario.digest None).
    apply reachable_create, reachable_init. reflexivity.
  - reflexivity.
  - reflexivity.
  - reflexivity.
  - reflexivity.
  - reflexivity.
  - reflexivity.
  - split; vm_compute; discriminate.
Defined.

Lemma anchoring_and_commit_witness :
  casper_calls (exec (Scenario.create Scenario.adult) Scenario.w0) = 0%nat
  ∧ run Scenario.anchor Scenario.w0
    = inl CasperAgeProofService.CASPER_REGISTER_OR_UPDATE_FAILED
  ∧ age_proofs (exec Scenario.anchor Scenario.w0) = [].
Proof.
  pose proof (anchoring_and_commit Scenario.digest None Scenario.w0
                Scenario.wallet Scenario.adult 2 None) as [Hoff Hon].
  split.
  - apply Hoff. reflexivity.
  - apply (proj2 (Hon eq_refl)).
Defined.

Lemma consume_exactly_once_witness :
  Scenario.verify Scenario.request
    (exec (Scenario.verify Scenario.request) Scenario.challenged)
  = (inl UnknownOrExpired,
     exec (Scenario.verify Scenario.request) Scenario.challenged).
Proof.
  pose proof (consume_exactly_once Scenario.accept Scenario.accept Scenario.digest
                Scenario.sign Scenario.request Scenario.challenged
                Scenario.response) as Honce.
  cbv zeta in Honce. destruct Honce as (_ & Hreplay & _).
  - vm_compute. reflexivity.
  - exact Hreplay.
Defined.

Lemma consume_failure_order_witness :
  Scenario.verify Scenario.request Scenario.w0 = (inl UnknownOrExpired, Scenario.w0)
  ∧ Scenario.verify Scenario.request_of_another Scenario.challenged
    = (inl WalletMismatch, Scenario.challenged)
  ∧ (run (Scenario.verify Scenario.request) Scenario.late = inl Expired
     ∧ challenges (exec (Scenario.verify Scenario.request) Scenario.late)
       = delete (Js.trim (VerifyRequestDto.challenge_id Scenario.request))
           (challenges Scenario.late)).
Proof.
  split; [|split].
  - apply (consume_failure_order Scenario.accept Scenario.accept Scenario.digest
             Scenario.sign Scenario.request Scenario.w0).
    + vm_compute. reflexivity.
    + reflexivity.
  - refine (proj1 (proj2 (consume_failure_order Scenario.accept Scenario.accept
              Scenario.digest Scenario.sign Scenario.request_of_another
              Scenario.challenged _)) Scenario.stored _ _).
    + vm_compute. reflexivity.
    + vm_compute. reflexivity.
    + vm_compute. discriminate.
  - refine (proj1 (proj2 (proj2 (consume_failure_order Scenario.accept Scenario.accept
              Scenario.digest Scenario.sign Scenario.request Scenario.late _)))
              Scenario.stored _ _ _).
    + vm_compute. reflexivity.
    + vm_compute. reflexivity.
    + reflexivity.
    + vm_compute. reflexivity.
Defined.

Lemma signature_normalization_witness :
  (normalizeSignatureBytes Scenario.signature65 ed25519
   = inr (drop 1 (hex_pairs Scenario.signature65))
   ∧ normalizeSignatureBytes Scenario.signature65 secp256k1
     = inr (hex_pairs Scenario.signature65))
  ∧ verifyCasperSignature Scenario.accept Scenario.accept Scenario.digest
      Scenario.wallet "message" Scenario.signature65
    = inr true.
Proof.
  pose proof (signature_normalization Scenario.accept Scenario.accept
                Scenario.digest) as (Hlength & Hed25519 & _).
  split.
  - apply (Hlength Scenario.signature65 (hex_pairs Scenario.signature65)).
    + vm_compute. reflexivity.
    + vm_compute. reflexivity.
  - apply (Hed25519 Scenario.wallet "message" Scenario.signature65
             (hex_pairs (Js.drop 2 Scenario.wallet))
             (drop 1 (hex_pairs Scenario.signature65))).
    + vm_compute. reflexivity.
    + vm_compute. reflexivity.
    + vm_compute. reflexivity.
Defined.

Lemma getAge18PlusStatus_resolution_witness :
  run (getAge18PlusStatus Scenario.wallet) Scenario.w1
  = inr {| Status.wallet_pubkey := Scenario.wallet;
           Status.has_proof := true;
           Status.is_major := true;
           Status.revoked := false;
           Status.valid_from := Some 1717200000;
           Status.valid_until := Some 1780272000;
           Status.deploy_hash := None |}
  ∧ run (getAge18PlusStatus Scenario.wallet) Scenario.w0
    = inr {| Status.wallet_pubkey := Scenario.wallet;
             Status.has_proof := false;
             Status.is_major := false;
             Status.revoked := false;
             Status.valid_from := None;
             Status.valid_until := None;
             Status.deploy_hash := None |}
  ∧ run (getAge18PlusStatus Scenario.wallet) Scenario.w3
    = inr {| Status.wallet_pubkey := Scenario.wallet;
             Status.has_proof := true;
             Status.is_major := false;
             Status.revoked := true;
             Status.valid_from := Some 1717200004;
             Status.valid_until := Some 1780272004;
             Status.deploy_hash := None |}.
Proof.
  split; [|split].
  - apply (proj1 (getAge18PlusStatus_resolution Scenario.w1 Scenario.wallet)
             0%nat Scenario.active_row).
    + apply latest_from_spec. vm_compute. reflexivity.
    + split; vm_compute; discriminate.
  - pose proof (getAge18PlusStatus_resolution Scenario.w0 Scenario.wallet)
      as (_ & Hotherwise & _).
    apply Hotherwise.
    + intros i a [Hi _]. vm_compute in Hi. discriminate.
    + intros j r Hj. vm_compute in Hj. discriminate.
  - pose proof (getAge18PlusStatus_resolution Scenario.w3 Scenario.wallet)
      as (_ & Hotherwise & _).
    destruct Hotherwise as [_ Hlatest].
    + intros i a Hmr%latest_from_spec. vm_compute in Hmr. discriminate.
    + apply (Hlatest 1%nat Scenario.audit_row).
      apply latest_from_spec. vm_compute. reflexivity.
Defined.

Lemma revoke_twice_witness :
  exec (revokeAge18PlusClaim Scenario.wallet) Scenario.w3 = Scenario.w3
  ∧ length (age_proofs Scenario.w3) = length (age_proofs Scenario.w2).
Proof.
  pose proof (revoke_twice Scenario.w2 Scenario.wallet) as Htwice.
  cbv zeta in Htwice. destruct Htwice as (Hsame & Hlen & _).
  - apply (reachable_invariant Scenario.digest None).
    apply reachable_create, reachable_create, reachable_init. reflexivity.
  - split; [exact Hsame|exact Hlen].
Defined.

Lemma computeAge_calendar_witness :
  AgeComputationResult.age (computeAge Scenario.adult 1717200000000) = 2024 - 2000.
Proof.
  apply (computeAge_calendar Scenario.adult 1717200000000).
  intros [Hm|[Hm _]]; vm_compute in Hm; discriminate.
Defined.

Lemma prefixed_key_never_verifies_witness :
  verifyCasperSignature Scenario.accept Scenario.accept Scenario.digest
    ("0x" +:+ Scenario.wallet) "message" Scenario.signature65
  = inl UnsupportedAlgorithm.
Proof.
  pose proof (prefixed_key_never_verifies Scenario.accept Scenario.accept
                Scenario.digest Scenario.sign ("  0x" +:+ Scenario.wallet +:+ " ")
                Scenario.wallet Scenario.w0) as Hprefixed.
  cbv zeta in Hprefixed. destruct Hprefixed as (_ & Hunsupported & _).
  - vm_compute. reflexivity.
  - vm_compute. reflexivity.
  - apply Hunsupported.
Defined.

(** ** Hex encoding *)

Lemma hex_pair_of_byte (b : byte) :
  Js.hex_pair_byte (Js.hex_digit (Byte.to_N b / 16)) (Js.hex_digit (Byte.to_N b mod 16))
  = b.
Proof. destruct b; vm_compute; reflexivity. Qed.

Lemma bytesToHex_length (bs : list byte) :
  String.length (Js.bytesToHex bs) = (2 * length bs)%nat.
Proof. induction bs as [|b bs IH]; simpl; [done|]. rewrite IH. lia. Qed.

Lemma hex_digit_lower (n : N) :
  (n < 16)%N → Js.is_lower_hex_digit (Js.hex_digit n) = true.
Proof.
  intros Hn.
  assert (n ∈ [0;1;2;3;4;5;6;7;8;9;10;11;12;13;14;15]%N) as Hin.
  { rewrite !elem_of_cons. lia. }
  rewrite !elem_of_cons in Hin.
  destruct Hin as [->|[->|[->|[->|[->|[->|[->|[->|[->|[->|[->|[->|[->|[->|[->|[->|Hin]]]]]]]]]]]]]]]];
    [reflexivity..|by apply elem_of_nil in Hin].
Qed.

Lemma bytesToHex_lower_hex (bs : list byte) :
  Js.all_chars Js.is_lower_hex_digit (Js.bytesToHex bs) = true.
Proof.
  induction bs as [|b bs IH]; simpl; [done|].
  rewrite IH, !hex_digit_lower; [done|..].
  - apply N.mod_lt. done.
  - destruct b; vm_compute; reflexivity.
Qed.

(** Strings are taken apart two characters at a time, as [hexToBytes]
    does. *)
Lemma string_pairs_ind (P : string → Prop) :
  P "" → (∀ a, P (String a "")) → (∀ a b r, P r → P (String a (String b r))) →
  ∀ s, P s.
Proof.
  intros Hnil Hone Hpair.
  fix IH 1. intros [|a [|b r]]; [exact Hnil|apply Hone|].
  apply Hpair, IH.
Qed.

Lemma hex_pairs_length (hex : string) :
  length (hex_pairs hex) = Nat.div2 (String.length hex).
Proof.
  induction hex as [|a|a b r IH] using string_pairs_ind; [done..|].
  simpl. by rewrite IH.
Qed.

(** X1: decoding the hex rendering of a byte sequence gives the sequence
    back, so what [randomHex] prints is always accepted by [hexToBytes]. *)
Theorem hexToBytes_bytesToHex (bs : list byte) :
  hexToBytes (Js.bytesToHex bs) = inr bs.
Proof.
  unfold hexToBytes. rewrite bytesToHex_length.
  replace (Nat.even (2 * length bs)) with true
    by (symmetry; apply Nat.even_spec; by exists (length bs)).
  simpl. f_equal.
  induction bs as [|b bs IH]; simpl; [done|].
  by rewrite hex_pair_of_byte, IH.
Qed.

(** X2: [hexToBytes] rejects exactly the strings of odd length; every other
    string, whatever its characters, decodes to half as many bytes. *)
Theorem hexToBytes_total_on_even (hex : string) :
  (Nat.even (String.length hex) = false ∧ hexToBytes hex = inl InvalidHexLength)
  ∨ (Nat.even (String.length hex) = true
     ∧ ∃ bytes, hexToBytes hex = inr bytes
                ∧ (2 * length bytes = String.length hex)%nat).
Proof.
  unfold hexToBytes. destruct (Nat.even (String.length hex)) eqn:Heven; simpl.
  - right. split; [done|]. eexists. split; [reflexivity|].
    rewrite hex_pairs_length. apply Nat.even_spec in Heven as [k ->].
    by rewrite Nat.div2_double.
  - left. done.
Qed.

(** ** Keys and signatures as the verifiers see them *)

Lemma lower_char_idemp (c : ascii) : Js.lower_char (Js.lower_char c) = Js.lower_char c.
Proof. destruct c as [[] [] [] [] [] [] [] []]; vm_compute; reflexivity. Qed.

Lemma toLowerCase_idemp (s : string) :
  Js.toLowerCase (Js.toLowerCase s) = Js.toLowerCase s.
Proof. induction s as [|c s IH]; simpl; [done|]. by rewrite lower_char_idemp, IH. Qed.

Lemma toLowerCase_length (s : string) :
  String.length (Js.toLowerCase s) = String.length s.
Proof. induction s as [|c s IH]; simpl; [done|]. by rewrite IH. Qed.

Lemma toLowerCase_take (n : nat) (s : string) :
  Js.toLowerCase (Js.take n s) = Js.take n (Js.toLowerCase s).
Proof.
  revert s. induction n as [|n IH]; intros [|c s]; simpl; try done.
  by rewrite IH.
Qed.

Lemma toLowerCase_drop (n : nat) (s : string) :
  Js.toLowerCase (Js.drop n s) = Js.drop n (Js.toLowerCase s).
Proof.
  revert s. induction n as [|n IH]; intros [|c s]; simpl; try done.
Qed.

Lemma drop_length (n : nat) (s : string) :
  String.length (Js.drop n s) = (String.length s - n)%nat.
Proof.
  revert s. induction n as [|n IH]; intros [|c s]; simpl; try done.
Qed.

Lemma hex_pair_byte_lower (a b : ascii) :
  Js.hex_pair_byte (Js.lower_char a) (Js.lower_char b) = Js.hex_pair_byte a b.
Proof.
  assert (∀ c, Js.is_white_space (Js.lower_char c) = Js.is_white_space c) as Hws
    by (intros [[] [] [] [] [] [] [] []]; vm_compute; reflexivity).
  assert (∀ c, Js.hex_digit_value (Js.lower_char c) = Js.hex_digit_value c) as Hval
    by (intros [[] [] [] [] [] [] [] []]; vm_compute; reflexivity).
  assert (∀ c, (Js.code (Js.lower_char c) =? 43)%N = (Js.code c =? 43)%N) as Hplus
    by (intros [[] [] [] [] [] [] [] []]; vm_compute; reflexivity).
  assert (∀ c, (Js.code (Js.lower_char c) =? 45)%N = (Js.code c =? 45)%N) as Hminus
    by (intros [[] [] [] [] [] [] [] []]; vm_compute; reflexivity).
  assert (∀ c, (Js.code (Js.lower_char c) =? 48)%N = (Js.code c =? 48)%N) as Hzero
    by (intros [[] [] [] [] [] [] [] []]; vm_compute; reflexivity).
  assert (∀ c, ((Js.code (Js.lower_char c) =? 120) || (Js.code (Js.lower_char c) =? 88))%N
               = ((Js.code c =? 120) || (Js.code c =? 88))%N) as Hx
    by (intros [[] [] [] [] [] [] [] []]; vm_compute; reflexivity).
  unfold Js.hex_pair_byte, Js.parseInt16.
  by rewrite Hws, !Hval, Hplus, Hminus, Hzero, Hx.
Qed.

Lemma hex_pairs_lower (hex : string) :
  hex_pairs (Js.toLowerCase hex) = hex_pairs hex.
Proof.
  induction hex as [|a|a b r IH] using string_pairs_ind; [done..|].
  cbn [Js.toLowerCase hex_pairs]. by rewrite hex_pair_byte_lower, IH.
Qed.

Lemma hexToBytes_lower (hex : string) :
  hexToBytes (Js.toLowerCase hex) = hexToBytes hex.
Proof. unfold hexToBytes. by rewrite toLowerCase_length, hex_pairs_lower. Qed.

(** X3: the signature handed to a verifier always has 64 bytes: whatever
    [normalizeSignatureBytes] accepts for Ed25519 is 64 bytes long, and what
    it accepts for secp256k1 is 64 bytes long once cut to [sig64]. *)
Theorem normalized_signature_has_64_bytes (signatureHex : string) (sigBytes : list byte) :
  (normalizeSignatureBytes signatureHex ed25519 = inr sigBytes →
   length sigBytes = 64%nat)
  ∧ (normalizeSignatureBytes signatureHex secp256k1 = inr sigBytes →
     length (if (length sigBytes =? 65)%nat then take 64 sigBytes else sigBytes)
     = 64%nat).
Proof.
  unfold normalizeSignatureBytes.
  destruct (hexToBytes _) as [e|bytes]; cbn [mbind Result_bind]; [done|].
  split.
  - destruct (length bytes =? 64)%nat eqn:H64.
    + intros [= <-]. by apply Nat.eqb_eq.
    + destruct (length bytes =? 65)%nat eqn:H65; [|done].
      intros [= <-]. apply Nat.eqb_eq in H65. rewrite length_drop. lia.
  - destruct (length bytes =? 64)%nat eqn:H64; cbn [orb].
    + intros [= <-]. apply Nat.eqb_eq in H64.
      destruct (length bytes =? 65)%nat; [rewrite length_take|]; lia.
    + destruct (length bytes =? 65)%nat eqn:H65; [|done].
      intros [= <-]. rewrite H65, length_take.
      apply Nat.eqb_eq in H65. lia.
Qed.

Section KeysAndSignatures.

Variable nacl_sign_detached_verify : list byte → list byte → list byte → bool.
Variable secp_verify : list byte → list byte → list byte → bool.
Variable sha256 : list byte → list byte.

(** X4: signature verification does not depend on the case in which the
    key and the signature are written: two spellings with the same lower
    case give the same answer or the same exception. *)
Theorem verifyCasperSignature_case_insensitive
    (key key' message signatureHex signatureHex' : string) :
  Js.toLowerCase key = Js.toLowerCase key' →
  Js.toLowerCase signatureHex = Js.toLowerCase signatureHex' →
  verifyCasperSignature nacl_sign_detached_verify secp_verify sha256
    key message signatureHex
  = verifyCasperSignature nacl_sign_detached_verify secp_verify sha256
      key' message signatureHex'.
Proof.
  intros Hkey Hsig.
  assert (∀ k s,
            verifyCasperSignature nacl_sign_detached_verify secp_verify sha256
              k message s
            = verifyCasperSignature nacl_sign_detached_verify secp_verify sha256
                (Js.toLowerCase k) message (Js.toLowerCase s)) as Hlower.
  { intros k s. unfold verifyCasperSignature, normalizeSignatureBytes. cbv zeta.
    rewrite <- !toLowerCase_take, <- !toLowerCase_drop, !toLowerCase_idemp.
    by rewrite !hexToBytes_lower. }
  by rewrite (Hlower key), (Hlower key'), Hkey, Hsig.
Qed.

End KeysAndSignatures.

(** What [assertPubkeyFormat] lets through. *)
Lemma assertPubkeyFormat_accepts (key : string) :
  assertPubkeyFormat key = inr () →
  let hex := Js.strip_0x (Js.toLowerCase key) in
  Js.test_lower_hex hex = true
  ∧ ((Js.startsWith "01" hex = true ∧ String.length hex = 66%nat)
     ∨ (Js.startsWith "02" hex = true ∧ String.length hex = 68%nat)).
Proof.
  unfold assertPubkeyFormat. cbv zeta.
  destruct (Js.test_lower_hex _) eqn:Hhex; cbn [negb]; [|done].
  destruct (Js.startsWith "01" _) eqn:H01; cbn [orb negb andb].
  - destruct (String.length _ =? 66)%nat eqn:Hlen; cbn [negb]; [|done].
    intros _. split; [done|]. left. split; [done|]. by apply Nat.eqb_eq.
  - destruct (Js.startsWith "02" _) eqn:H02; cbn [negb andb]; [|done].
    destruct (String.length _ =? 68)%nat eqn:Hlen; cbn [negb]; [|done].
    intros _. split; [done|]. right. split; [done|]. by apply Nat.eqb_eq.
Qed.

Section AcceptedKeys.

Variable nacl_sign_detached_verify : list byte → list byte → list byte → bool.
Variable secp_verify : list byte → list byte → list byte → bool.
Variable sha256 : list byte → list byte.

(** X5: a key that passes validation without the prefix 0x carries the tag
    01 and decodes to a key of 32 bytes, or the tag 02 and a key of 33
    bytes, and its verification never fails UnsupportedAlgorithm; a key that
    passes validation with the prefix (in either case, 0x or 0X) fails
    UnsupportedAlgorithm for every message and signature. *)
Theorem accepted_key_algorithm (key : string) :
  assertPubkeyFormat key = inr () →
  if Js.startsWith "0x" (Js.toLowerCase key) then
    ∀ message signatureHex,
      verifyCasperSignature nacl_sign_detached_verify secp_verify sha256
        key message signatureHex = inl UnsupportedAlgorithm
  else
    (∃ pubKeyBytes,
       hexToBytes (Js.drop 2 key) = inr pubKeyBytes
       ∧ ((Js.toLowerCase (Js.take 2 key) = "01" ∧ length pubKeyBytes = 32%nat)
          ∨ (Js.toLowerCase (Js.take 2 key) = "02" ∧ length pubKeyBytes = 33%nat)))
    ∧ ∀ message signatureHex,
        verifyCasperSignature nacl_sign_detached_verify secp_verify sha256
          key message signatureHex ≠ inl UnsupportedAlgorithm.
Proof.
  intros Hok. apply assertPubkeyFormat_accepts in Hok as [_ Htag]. cbv zeta in Htag.
  unfold Js.strip_0x in Htag.
  destruct (Js.startsWith "0x" (Js.toLowerCase key)) eqn:H0x.
  - apply startsWith_two in H0x as [r Hr].
    intros message signatureHex. unfold verifyCasperSignature. cbv zeta.
    rewrite toLowerCase_take, Hr. reflexivity.
  - assert (∃ a b r, Js.toLowerCase key = String a (String b r)
              ∧ (String a (String b "") = "01" ∨ String a (String b "") = "02")
              ∧ Nat.even (String.length r) = true
              ∧ Nat.div2 (String.length r)
                = (if String.eqb (String a (String b "")) "01" then 32 else 33)%nat)
      as (a & b & r & Hkey & Hab & Heven & Hhalf).
    { destruct Htag as [[[r Hr]%startsWith_two Hlen]|[[r Hr]%startsWith_two Hlen]];
        rewrite Hr in Hlen; simpl in Hlen; injection Hlen as Hlen;
        eexists _, _, r; (split; [exact Hr|]); rewrite Hlen;
        (split; [auto|]); split; reflexivity. }
    assert (Js.toLowerCase (Js.take 2 key) = String a (String b "")) as Hkeytag
      by (by rewrite toLowerCase_take, Hkey).
    assert (hexToBytes (Js.drop 2 key) = inr (hex_pairs (Js.drop 2 key))) as Hpk.
    { rewrite <- hexToBytes_lower, <- (hex_pairs_lower (Js.drop 2 key)).
      rewrite toLowerCase_drop, Hkey.
      change (Js.drop 2 (String a (String b r))) with r.
      unfold hexToBytes. by rewrite Heven. }
    split.
    + eexists. split; [exact Hpk|]. rewrite Hkeytag, hex_pairs_length.
      rewrite <- toLowerCase_length, toLowerCase_drop, Hkey.
      change (Js.drop 2 (String a (String b r))) with r.
      rewrite Hhalf.
      destruct Hab as [Hab|Hab]; rewrite Hab; [left|right]; split; reflexivity.
    + intros message signatureHex. unfold verifyCasperSignature. cbv zeta.
      rewrite Hkeytag, Hpk. cbn [mbind Result_bind].
      assert (∀ alg e, normalizeSignatureBytes signatureHex alg = inl e →
                e ≠ UnsupportedAlgorithm) as Hother.
      { intros alg e. unfold normalizeSignatureBytes, hexToBytes. cbv zeta.
        destruct (negb _); cbn [mbind Result_bind]; [by intros [= <-]|].
        destruct alg; repeat (destruct (_ =? _)%nat; cbn [orb]); try done;
          intros [= <-]; simpl; discriminate. }
      destruct Hab as [Hab|Hab]; rewrite Hab; cbn [String.eqb Ascii.eqb Bool.eqb];
        destruct (normalizeSignatureBytes _ _) as [e|sigBytes] eqn:Hnorm;
        cbn [mbind Result_bind]; try done;
        intros [= ->]; by eapply Hother.
Qed.

End AcceptedKeys.

(** ** Issuing a challenge and answering it *)

Lemma all_chars_impl (p q : ascii → bool) (s : string) :
  (∀ c, p c = true → q c = true) →
  Js.all_chars p s = true → Js.all_chars q s = true.
Proof.
  intros Hpq. induction s as [|c s IH]; simpl; [done|].
  intros [Hc Hs]%andb_true_iff. by rewrite (Hpq c Hc), IH.
Qed.

Lemma all_chars_toLowerCase (p : ascii → bool) (s : string) :
  Js.all_chars p (Js.toLowerCase s) = Js.all_chars (λ c, p (Js.lower_char c)) s.
Proof. induction s as [|c s IH]; simpl; [done|]. by rewrite IH. Qed.

Lemma all_chars_rev_app (p : ascii → bool) (s t : string) :
  Js.all_chars p (String.rev_app s t) = Js.all_chars p s && Js.all_chars p t.
Proof.
  revert t. induction s as [|c s IH]; intros t; simpl; [done|].
  rewrite IH. simpl. by rewrite andb_assoc, (andb_comm (p c)).
Qed.

Lemma rev_app_rev_app (s t u : string) :
  String.rev_app (String.rev_app s t) u = String.rev_app t (s +:+ u).
Proof.
  revert t u. induction s as [|c s IH]; intros t u; simpl; [done|].
  by rewrite IH.
Qed.

Lemma append_empty_r (s : string) : s +:+ "" = s.
Proof.
  induction s as [|c s IH]; [done|].
  change (String c (s +:+ "") = String c s). by f_equal.
Qed.

Lemma trimStart_no_space (s : string) :
  Js.all_chars (λ c, negb (Js.is_white_space c)) s = true → Js.trimStart s = s.
Proof.
  destruct s as [|c s]; simpl; [done|].
  intros [Hc _]%andb_true_iff. apply negb_true_iff in Hc. by rewrite Hc.
Qed.

(** A string without white space is left as it is by [trim]. *)
Lemma trim_no_space (s : string) :
  Js.all_chars (λ c, negb (Js.is_white_space c)) s = true → Js.trim s = s.
Proof.
  intros Hs. unfold Js.trim, String.rev.
  rewrite (trimStart_no_space s Hs), trimStart_no_space.
  - rewrite rev_app_rev_app. cbn [String.rev_app]. apply append_empty_r.
  - by rewrite all_chars_rev_app, Hs.
Qed.

Lemma hex_has_no_space (s : string) :
  Js.all_chars Js.is_lower_hex_digit s = true →
  Js.all_chars (λ c, negb (Js.is_white_space c)) s = true.
Proof.
  apply all_chars_impl.
  intros [[] [] [] [] [] [] [] []]; vm_compute; congruence.
Qed.

(** A key that passes validation contains no white space. *)
Lemma accepted_key_no_space (key : string) :
  assertPubkeyFormat key = inr () →
  Js.all_chars (λ c, negb (Js.is_white_space c)) key = true.
Proof.
  intros [Hhex _]%assertPubkeyFormat_accepts. cbv zeta in Hhex.
  assert (Js.all_chars
            (λ c, Js.is_lower_hex_digit c || Ascii.eqb c "x") (Js.toLowerCase key)
          = true) as Hchars.
  { unfold Js.strip_0x in Hhex.
    destruct (Js.startsWith "0x" (Js.toLowerCase key)) eqn:H0x.
    - apply startsWith_two in H0x as [r Hr]. rewrite Hr in Hhex |- *.
      cbn [Js.drop] in Hhex. simpl.
      destruct r as [|c r]; [done|]. unfold Js.test_lower_hex in Hhex.
      revert Hhex. apply all_chars_impl. by intros c' ->.
    - destruct (Js.toLowerCase key) as [|c r]; [done|].
      unfold Js.test_lower_hex in Hhex.
      revert Hhex. apply all_chars_impl. by intros c' ->. }
  rewrite all_chars_toLowerCase in Hchars. revert Hchars. apply all_chars_impl.
  intros [[] [] [] [] [] [] [] []]; vm_compute; congruence.
Qed.

Lemma bytesToHex_test_lower_hex (bs : list byte) :
  bs ≠ [] → Js.test_lower_hex (Js.bytesToHex bs) = true.
Proof.
  intros Hbs. pose proof (bytesToHex_lower_hex bs) as Hhex.
  destruct bs as [|b bs]; [done|]. exact Hhex.
Qed.

Lemma createChallenge_run (walletPubkeyRaw : string) (w : World) :
  let wallet := Js.trim walletPubkeyRaw in
  let challenge_id := Js.bytesToHex (entropy w <$> seq (drawn w) 16) in
  let nonce := Js.bytesToHex (entropy w <$> seq (drawn w + 16) 32) in
  let message :=
    "LegalProof|auth|wallet_pubkey=" +:+ wallet
      +:+ "|nonce=" +:+ nonce
      +:+ "|issued_at=" +:+ Js.toISOString (clock w (ticks w))
      +:+ "|purpose=prove_wallet_ownership" in
  createChallenge walletPubkeyRaw w
  = match assertPubkeyFormat wallet with
    | inl e => (inl e, w)
    | inr _ =>
        (inr {| ChallengeResponseDto.challenge_id := challenge_id;
                ChallengeResponseDto.wallet_pubkey := wallet;
                ChallengeResponseDto.message_to_sign := message;
                ChallengeResponseDto.expires_at :=
                  Js.toISOString (clock w (S (ticks w)) + CHALLENGE_TTL_MS) |},
         set_challenges
           (insert challenge_id
              {| walletPubkey := wallet;
                 messageToSign := message;
                 expiresAtMs := clock w (2 + ticks w) + CHALLENGE_TTL_MS |})
           (tick (tick (tick (draw 32 (draw 16 w))))))
    end.
Proof.
  cbv zeta. unfold createChallenge, randomHex. step_M.
  destruct (assertPubkeyFormat _) as [e|[]]; reflexivity.
Qed.

(** X6: [createChallenge] either rejects the key, and then changes nothing,
    or stores exactly one challenge: under a fresh id of 32 lower-case hex
    characters, for the trimmed key, with a message that binds the key, a
    nonce of 64 hex characters and the time of issue, expiring five minutes
    after the third reading of the clock; no other challenge and no row of
    age_proofs is touched. *)
Theorem createChallenge_effect (walletPubkeyRaw : string) (w : World) :
  let wallet := Js.trim walletPubkeyRaw in
  let call := createChallenge walletPubkeyRaw in
  match assertPubkeyFormat wallet with
  | inl e => call w = (inl e, w)
  | inr _ =>
      ∃ response nonce,
        run call w = inr response
        ∧ ChallengeResponseDto.wallet_pubkey response = wallet
        ∧ String.length (ChallengeResponseDto.challenge_id response) = 32%nat
        ∧ Js.test_lower_hex (ChallengeResponseDto.challenge_id response) = true
        ∧ String.length nonce = 64%nat ∧ Js.test_lower_hex nonce = true
        ∧ ChallengeResponseDto.message_to_sign response
          = "LegalProof|auth|wallet_pubkey=" +:+ wallet
              +:+ "|nonce=" +:+ nonce
              +:+ "|issued_at=" +:+ Js.toISOString (clock w (ticks w))
              +:+ "|purpose=prove_wallet_ownership"
        ∧ challenges (exec call w)
          = <[ ChallengeResponseDto.challenge_id response :=
                 {| walletPubkey := wallet;
                    messageToSign := ChallengeResponseDto.message_to_sign response;
                    expiresAtMs := clock w (2 + ticks w) + CHALLENGE_TTL_MS |} ]>
              (challenges w)
        ∧ age_proofs (exec call w) = age_proofs w
  end.
Proof.
  cbv zeta. unfold run, exec. rewrite createChallenge_run. cbv zeta.
  destruct (assertPubkeyFormat _) as [e|[]]; [reflexivity|].
  eexists _, (Js.bytesToHex (entropy w <$> seq (drawn w + 16) 32)).
  cbn [fst snd]. split; [reflexivity|].
  cbn [ChallengeResponseDto.wallet_pubkey
    ChallengeResponseDto.challenge_id ChallengeResponseDto.message_to_sign].
  split; [reflexivity|].
  split; [by rewrite bytesToHex_length, length_fmap, length_seq|].
  split; [by apply bytesToHex_test_lower_hex|].
  split; [by rewrite bytesToHex_length, length_fmap, length_seq|].
  split; [by apply bytesToHex_test_lower_hex|].
  split; [reflexivity|]. split; reflexivity.
Qed.

Section IssueThenVerify.

Variable nacl_sign_detached_verify : list byte → list byte → list byte → bool.
Variable secp_verify : list byte → list byte → list byte → bool.
Variable sha256 : list byte → list byte.
Variable jwt_sign : JwtPayload.t → Z → Z → Result string.

(** X7: a challenge that was just issued can be answered with the key and
    the id of the response as they are: while the clock has not passed the
    stored expiry, the outcome is the one of the signature check on the
    issued message, and a true check consumes the challenge and answers the
    credential of that key. *)
Theorem issued_challenge_verifies (walletPubkeyRaw signature_hex : string)
    (w : World) (response : ChallengeResponseDto.t) :
  run (createChallenge walletPubkeyRaw) w = inr response →
  let w1 := exec (createChallenge walletPubkeyRaw) w in
  let wallet := ChallengeResponseDto.wallet_pubkey response in
  let id := ChallengeResponseDto.challenge_id response in
  let body :=
    {| VerifyRequestDto.wallet_pubkey := wallet;
       VerifyRequestDto.challenge_id := id;
       VerifyRequestDto.signature_hex := signature_hex |} in
  let call :=
    verifySignatureAndIssueToken nacl_sign_detached_verify secp_verify sha256
      jwt_sign body in
  clock w1 (ticks w1) ≤ clock w (2 + ticks w) + CHALLENGE_TTL_MS →
  match verifyCasperSignature nacl_sign_detached_verify secp_verify sha256 wallet
          (ChallengeResponseDto.message_to_sign response) (Js.trim signature_hex) with
  | inr true =>
      run call w1 = credential jwt_sign wallet (clock w1 (S (ticks w1)))
      ∧ challenges (exec call w1) = delete id (challenges w1)
  | inr false =>
      run call w1 = inl InvalidSignature ∧ challenges (exec call w1) = challenges w1
  | inl e =>
      run call w1 = inl e ∧ challenges (exec call w1) = challenges w1
  end.
Proof.
  unfold run, exec. rewrite createChallenge_run. cbv zeta.
  set (id := Js.bytesToHex (entropy w <$> seq (drawn w) 16)).
  set (message := _ +:+ _).
  assert (Js.trim id = id) as Hid
    by apply trim_no_space, hex_has_no_space, bytesToHex_lower_hex.
  clearbody id message.
  destruct (assertPubkeyFormat (Js.trim walletPubkeyRaw)) as [e|[]] eqn:Hformat;
    [done|].
  cbn [fst snd]. intros [= <-].
  cbn [ChallengeResponseDto.wallet_pubkey ChallengeResponseDto.challenge_id
       ChallengeResponseDto.message_to_sign].
  set (w1 := set_challenges _ _). intros Hintime.
  rewrite verify_run. cbv zeta.
  cbn [VerifyRequestDto.wallet_pubkey VerifyRequestDto.challenge_id
       VerifyRequestDto.signature_hex].
  rewrite (trim_no_space (Js.trim walletPubkeyRaw))
    by (by apply accepted_key_no_space).
  rewrite Hid, Hformat.
  assert (challenges w1 !! id
          = Some {| walletPubkey := Js.trim walletPubkeyRaw;
                    messageToSign := message;
                    expiresAtMs := clock w (2 + ticks w) + CHALLENGE_TTL_MS |})
    as -> by apply lookup_insert_eq.
  cbn [walletPubkey messageToSign expiresAtMs].
  rewrite String.eqb_refl. cbn [negb].
  apply Z.ltb_ge in Hintime. rewrite Hintime.
  by destruct (verifyCasperSignature _ _ _ _ _ _) as [e|[|]].
Qed.

End IssueThenVerify.

(** ** More on the age computation *)


(** ** The table as an append-only history *)

Lemma kept_refl (r : AgeProofEntity) : kept r r.
Proof. by repeat split. Qed.

Lemma kept_trans (r1 r2 r3 : AgeProofEntity) : kept r1 r2 → kept r2 r3 → kept r1 r3.
Proof.
  unfold kept. intros (?&?&?&?&?&?&?&?&?&?&?) (?&?&?&?&?&?&?&?&?&?&?).
  repeat split; try congruence. auto.
Qed.

Lemma kept_with_revoked (now : Z) (r : AgeProofEntity) : kept r (with_revoked now r).
Proof. by repeat split. Qed.

Lemma history_kept_refl (t : list AgeProofEntity) : history_kept t t.
Proof. intros i r Hi. exists r. split; [done|apply kept_refl]. Qed.

Lemma history_kept_trans (t1 t2 t3 : list AgeProofEntity) :
  history_kept t1 t2 → history_kept t2 t3 → history_kept t1 t3.
Proof.
  intros H12 H23 i r Hi.
  destruct (H12 i r Hi) as (r2 & Hi2 & Hk2).
  destruct (H23 i r2 Hi2) as (r3 & Hi3 & Hk3).
  exists r3. split; [done|]. by eapply kept_trans.
Qed.

Lemma revoke_rows_kept (walletPubkey : string) (now : Z) (t : list AgeProofEntity) :
  history_kept t (revoke_rows walletPubkey now t).
Proof.
  intros i r Hi. unfold revoke_rows. rewrite list_lookup_fmap, Hi. simpl.
  eexists. split; [reflexivity|].
  destruct (is_active_of _ _ r); [apply kept_with_revoked|apply kept_refl].
Qed.

Lemma history_kept_app (t t' extra : list AgeProofEntity) :
  history_kept t t' → history_kept t (t' ++ extra).
Proof.
  intros Hk i r Hi. destruct (Hk i r Hi) as (r' & Hi' & Hkept).
  exists r'. split; [by apply lookup_app_l_Some|done].
Qed.

Section History.

Variable sha256 : list byte → list byte.
Variable USER_HASH_SALT : option string.

Lemma step_history_kept (w w' : World) :
  step sha256 USER_HASH_SALT w w' → history_kept (age_proofs w) (age_proofs w').
Proof.
  intros [w0 wallet bd vy sid|w0 wallet|w0 wallet].
  - rewrite createIfMajor_table. cbv zeta.
    destruct (AgeComputationResult.isMajor _).
    + apply history_kept_app, revoke_rows_kept.
    + apply history_kept_app, history_kept_refl.
  - rewrite revoke_table.
    destruct (latest_from _ 0 None (age_proofs w0)) as [[i a]|] eqn:Hact;
      [|apply history_kept_refl].
    apply latest_from_sound in Hact as (Hi & _).
    intros j r Hj. destruct (decide (i = j)) as [<-|Hne].
    + rewrite Hi in Hj. injection Hj as <-.
      eexists. split; [|apply kept_with_revoked].
      apply list_lookup_insert_eq. by eapply lookup_lt_Some.
    + exists r. split; [|apply kept_refl]. by rewrite list_lookup_insert_ne.
  - rewrite getAge18PlusStatus_reads. apply history_kept_refl.
Qed.

(** X9: the table is an append-only history.  Through any sequence of
    createIfMajor, revoke and getStatus calls, every row stays at its
    position with the same wallet, hash, claim type, age, majority flag,
    window, deploy hash and creation time; the only change a row undergoes
    is to become revoked, and a revoked row is never made active again. *)
Theorem history_is_append_only (w w' : World) :
  rtc (step sha256 USER_HASH_SALT) w w' →
  history_kept (age_proofs w) (age_proofs w')
  ∧ (length (age_proofs w) ≤ length (age_proofs w'))%nat.
Proof.
  intros Hsteps.
  assert (history_kept (age_proofs w) (age_proofs w')) as Hkept.
  { induction Hsteps as [w|w w1 w2 Hstep _ IH]; [apply history_kept_refl|].
    eapply history_kept_trans; [by apply step_history_kept|done]. }
  split; [done|].
  destruct (age_proofs w) as [|r t] eqn:Ht using rev_ind; [simpl; lia|].
  destruct (Hkept (length t) r) as (r' & Hr' & _); [by apply list_lookup_middle|].
  apply lookup_lt_Some in Hr'. rewrite length_app. simpl. lia.
Qed.

End History.

(** ** Answers as functions of the selected rows *)

(** Two tables with the same selected rows at the same positions give
    [findOne] the same answer. *)
Lemma latest_from_agree P (t t' : list AgeProofEntity) :
  (∀ i r, P r = true → (t !! i = Some r ↔ t' !! i = Some r)) →
  latest_from P 0 None t = latest_from P 0 None t'.
Proof.
  intros Hsame.
  destruct (latest_from P 0 None t) as [[i r]|] eqn:Hl; symmetry.
  - apply latest_from_sound in Hl as (Hi & HP & Hmax). apply latest_from_spec.
    split; [by apply Hsame|split; [done|]].
    intros j r' Hj HP'. apply (Hmax j r'); [by apply Hsame|done].
  - apply latest_from_None. intros j r Hj. apply not_true_is_false. intros HP.
    apply Hsame in Hj; [|done].
    by rewrite (proj1 (latest_from_None P t) Hl j r Hj) in HP.
Qed.

(** A row that is the only selected one is the most recent selected one. *)
Lemma sole_selected_most_recent P (t : list AgeProofEntity) i r :
  t !! i = Some r → P r = true →
  (∀ j r', t !! j = Some r' → P r' = true → j = i) →
  most_recent P t i r.
Proof.
  intros Hi HP Hsole. split; [done|split; [done|]].
  intros j r' Hj HP'. right. rewrite (Hsole j r' Hj HP') in Hj |- *.
  split; [congruence|lia].
Qed.

Lemma getAge18PlusStatus_cong (walletPubkey : string) (v v' : World) :
  latest_from (is_valid_candidate walletPubkey) 0 None (age_proofs v)
  = latest_from (is_valid_candidate walletPubkey) 0 None (age_proofs v') →
  latest_from (is_row_of walletPubkey CLAIM_TYPE) 0 None (age_proofs v)
  = latest_from (is_row_of walletPubkey CLAIM_TYPE) 0 None (age_proofs v') →
  clock v (ticks v) = clock v' (ticks v') →
  run (getAge18PlusStatus walletPubkey) v = run (getAge18PlusStatus walletPubkey) v'.
Proof.
  unfold is_valid_candidate. intros Hcand Hrow Hclock.
  unfold getAge18PlusStatus. step_M. rewrite Hcand, Hclock.
  destruct (latest_from _ 0 None (age_proofs v')) as [[i a]|].
  - destruct (_ && _); [reflexivity|]. step_M. rewrite Hrow.
    destruct (latest_from (is_row_of _ _) 0 None (age_proofs v')) as [[j l]|];
      reflexivity.
  - step_M. rewrite Hrow.
    destruct (latest_from (is_row_of _ _) 0 None (age_proofs v')) as [[j l]|];
      reflexivity.
Qed.

Lemma revokeAge18PlusClaim_cong (walletPubkey : string) (v v' : World) :
  latest_from (is_active_of walletPubkey CLAIM_TYPE) 0 None (age_proofs v)
  = latest_from (is_active_of walletPubkey CLAIM_TYPE) 0 None (age_proofs v') →
  latest_from (is_row_of walletPubkey CLAIM_TYPE) 0 None (age_proofs v)
  = latest_from (is_row_of walletPubkey CLAIM_TYPE) 0 None (age_proofs v') →
  run (revokeAge18PlusClaim walletPubkey) v = run (revokeAge18PlusClaim walletPubkey) v'.
Proof.
  intros Hact Hrow. unfold run. rewrite !revoke_run, Hact, Hrow.
  by destruct (latest_from (is_active_of _ _) 0 None (age_proofs v')) as [[i a]|].
Qed.

(** ** Operations on one wallet and the rows of another *)

Lemma revoke_rows_other (walletPubkey : string) (now : Z) (t : list AgeProofEntity)
    i r :
  wallet_pubkey r ≠ walletPubkey →
  revoke_rows walletPubkey now t !! i = Some r ↔ t !! i = Some r.
Proof.
  intros Hother. unfold revoke_rows. rewrite list_lookup_fmap.
  assert (∀ r0, wallet_pubkey r0 ≠ walletPubkey →
            is_active_of walletPubkey CLAIM_TYPE r0 = false) as Hnot.
  { intros r0 Hr0. apply not_true_is_false.
    intros (? & _)%is_active_of_true. done. }
  destruct (t !! i) as [r0|]; simpl; [|done].
  split.
  - intros [= <-].
    destruct (is_active_of walletPubkey CLAIM_TYPE r0) eqn:Hact; [|done].
    apply is_active_of_true in Hact as (Hw & _). by destruct Hother.
  - intros [= ->]. by rewrite Hnot.
Qed.

Lemma snoc_other (t : list AgeProofEntity) (x r : AgeProofEntity) i :
  wallet_pubkey x ≠ wallet_pubkey r →
  (t ++ [x]) !! i = Some r ↔ t !! i = Some r.
Proof.
  intros Hother. rewrite lookup_snoc_Some. split.
  - intros [[_ Hi]|[_ ->]]; done.
  - intros Hi. left. split; [by eapply lookup_lt_Some|done].
Qed.

Section Frame.

Variable sha256 : list byte → list byte.
Variable USER_HASH_SALT : option string.

Lemma step_other_rows (w w' : World) (walletPubkey other : string) birthDate
    validityYears sessionId i r :
  w' = exec (createAge18PlusClaimIfMajor sha256 USER_HASH_SALT walletPubkey
               birthDate validityYears sessionId) w
  ∨ w' = exec (revokeAge18PlusClaim walletPubkey) w →
  other ≠ walletPubkey →
  wallet_pubkey r = other →
  age_proofs w' !! i = Some r ↔ age_proofs w !! i = Some r.
Proof.
  intros [-> | ->] Hne Hr.
  - rewrite createIfMajor_table. cbv zeta.
    destruct (AgeComputationResult.isMajor _).
    + rewrite snoc_other by (simpl; congruence).
      apply revoke_rows_other. congruence.
    + apply snoc_other. simpl. congruence.
  - rewrite revoke_table.
    destruct (latest_from _ 0 None (age_proofs w)) as [[k a]|] eqn:Hact; [|done].
    apply latest_from_sound in Hact as (Hk & HP & _).
    apply is_active_of_true in HP as (Hw & _).
    destruct (decide (k = i)) as [->|Hki].
    + rewrite list_lookup_insert_eq by (by eapply lookup_lt_Some). rewrite Hk.
      split; intros [= <-]; simpl in *; congruence.
    + by rewrite list_lookup_insert_ne.
Qed.

(** X10: creating or revoking a claim for one wallet changes no row of any
    other wallet, and the status and the revocation answer of every other
    wallet are what they would have been without it. *)
Theorem other_wallets_untouched (w w' : World) (walletPubkey other : string)
    birthDate validityYears sessionId :
  w' = exec (createAge18PlusClaimIfMajor sha256 USER_HASH_SALT walletPubkey
               birthDate validityYears sessionId) w
  ∨ w' = exec (revokeAge18PlusClaim walletPubkey) w →
  other ≠ walletPubkey →
  (∀ i r, wallet_pubkey r = other →
          (age_proofs w' !! i = Some r ↔ age_proofs w !! i = Some r))
  ∧ ∀ v v',
      age_proofs v = age_proofs w → age_proofs v' = age_proofs w' →
      (clock v (ticks v) = clock v' (ticks v') →
       run (getAge18PlusStatus other) v = run (getAge18PlusStatus other) v')
      ∧ run (revokeAge18PlusClaim other) v = run (revokeAge18PlusClaim other) v'.
Proof.
  intros Hop Hne.
  assert (∀ i r, wallet_pubkey r = other →
            (age_proofs w' !! i = Some r ↔ age_proofs w !! i = Some r)) as Hrows
    by (intros i r; by eapply step_other_rows).
  split; [exact Hrows|].
  intros v v' Hv Hv'.
  assert (∀ P, (∀ r, P r = true → wallet_pubkey r = other) →
            latest_from P 0 None (age_proofs v) = latest_from P 0 None (age_proofs v'))
    as Hagree.
  { intros P HP. rewrite Hv, Hv'. apply latest_from_agree.
    intros i r HPr. symmetry. apply Hrows. by apply HP. }
  split.
  - intros Hclock. apply getAge18PlusStatus_cong; [| |done]; apply Hagree.
    + intros r [(? & _)%is_active_of_true _]%andb_true_iff. done.
    + intros r (? & _)%is_row_of_true. done.
  - apply revokeAge18PlusClaim_cong; apply Hagree.
    + intros r (? & _)%is_active_of_true. done.
    + intros r (? & _)%is_row_of_true. done.
Qed.

End Frame.

(** ** A claim through its life *)

Section Life.

Variable sha256 : list byte → list byte.
Variable USER_HASH_SALT : option string.


Abbreviation create := (createAge18PlusClaimIfMajor sha256 USER_HASH_SALT).
Abbreviation params := (claim_params sha256 USER_HASH_SALT).
Abbreviation claim := (claim_row sha256 USER_HASH_SALT).
Abbreviation audit := (audit_row sha256 USER_HASH_SALT).

Lemma major_table w walletPubkey birthDate validityYears sessionId :
  major_at w birthDate = true →
  age_proofs (exec (create walletPubkey birthDate validityYears sessionId) w)
  = revoke_rows walletPubkey (clock w (2 + ticks w)) (age_proofs w)
      ++ [claim w walletPubkey birthDate validityYears sessionId].
Proof.
  unfold major_at. intros Hmajor. rewrite createIfMajor_table. cbv zeta.
  by rewrite Hmajor.
Qed.

Lemma minor_table w walletPubkey birthDate validityYears sessionId :
  major_at w birthDate = false →
  age_proofs (exec (create walletPubkey birthDate validityYears sessionId) w)
  = age_proofs w ++ [audit w walletPubkey birthDate validityYears sessionId].
Proof.
  unfold major_at. intros Hminor. rewrite createIfMajor_table. cbv zeta.
  by rewrite Hminor.
Qed.

Lemma claim_row_active w walletPubkey birthDate validityYears sessionId :
  is_active_of walletPubkey CLAIM_TYPE
    (claim w walletPubkey birthDate validityYears sessionId) = true
  ∧ is_major (claim w walletPubkey birthDate validityYears sessionId) = true.
Proof. split; [|done]. by apply is_active_of_true. Qed.

(** After a rotation the appended row is the only active one of the wallet. *)
Lemma rotated_active w walletPubkey birthDate validityYears sessionId j r :
  major_at w birthDate = true →
  age_proofs (exec (create walletPubkey birthDate validityYears sessionId) w) !! j
  = Some r →
  is_active_of walletPubkey CLAIM_TYPE r = true ↔ j = length (age_proofs w).
Proof.
  intros Hmajor. rewrite (major_table _ _ _ _ _ Hmajor).
  intros [[Hj Hr]|[Hj <-]]%lookup_snoc_Some.
  - rewrite (revoke_rows_none_active _ _ _ _ _ Hr).
    unfold revoke_rows in Hj. rewrite length_fmap in Hj. split; [done|lia].
  - unfold revoke_rows in Hj. rewrite length_fmap in Hj.
    split; [done|]. intros _. apply claim_row_active.
Qed.

Lemma rotated_lookup w walletPubkey birthDate validityYears sessionId :
  major_at w birthDate = true →
  age_proofs (exec (create walletPubkey birthDate validityYears sessionId) w)
    !! length (age_proofs w)
  = Some (claim w walletPubkey birthDate validityYears sessionId).
Proof.
  intros Hmajor. rewrite (major_table _ _ _ _ _ Hmajor).
  apply list_lookup_middle. unfold revoke_rows. by rewrite length_fmap.
Qed.

(** X11: a major computation leaves the wallet with exactly one active row,
    the one it appends, whatever the table held before, even several active
    rows of that wallet. *)
Theorem rotation_leaves_one_active w walletPubkey birthDate validityYears sessionId :
  major_at w birthDate = true →
  let t' :=
    age_proofs (exec (create walletPubkey birthDate validityYears sessionId) w) in
  t' !! length (age_proofs w)
  = Some (claim w walletPubkey birthDate validityYears sessionId)
  ∧ ∀ j r, t' !! j = Some r →
           (wallet_pubkey r = walletPubkey ∧ claim_type r = CLAIM_TYPE
            ∧ revoked r = false
            ↔ j = length (age_proofs w)).
Proof.
  intros Hmajor. cbv zeta. split; [by apply rotated_lookup|].
  intros j r Hj. rewrite <- is_active_of_true. by eapply rotated_active.
Qed.

(** X12: right after a major computation the status of the wallet is that
    of the new claim: while now is within the window of the returned claim
    parameters, is_major = true, with that window in seconds and no deploy
    hash. *)
Theorem fresh_claim_is_valid w walletPubkey birthDate validityYears sessionId :
  major_at w birthDate = true →
  let call := create walletPubkey birthDate validityYears sessionId in
  let w' := exec call w in
  let p := params w walletPubkey birthDate validityYears in
  Age18PlusClaimParams.valid_from p * 1000 ≤ clock w' (ticks w')
    ≤ Age18PlusClaimParams.valid_until p * 1000 →
  run call w
  = inr {| CreateClaimResult.isMajor := true;
           CreateClaimResult.claimCreated := true;
           CreateClaimResult.deployHash := None;
           CreateClaimResult.claimParams := p |}
  ∧ run (getAge18PlusStatus walletPubkey) w'
    = inr {| Status.wallet_pubkey := walletPubkey;
             Status.has_proof := true;
             Status.is_major := true;
             Status.revoked := false;
             Status.valid_from := Some (Age18PlusClaimParams.valid_from p);
             Status.valid_until := Some (Age18PlusClaimParams.valid_until p);
             Status.deploy_hash := None |}.
Proof.
  intros Hmajor. cbv zeta. intros Hwindow. split.
  - unfold major_at in Hmajor.
    unfold createAge18PlusClaimIfMajor, claim_params. step_M.
    by rewrite Hmajor.
  - rewrite (getAge18PlusStatus_valid _ _ (length (age_proofs w))
               (claim w walletPubkey birthDate validityYears sessionId)).
    + unfold claim_row, new_row. cbn [valid_from valid_until deploy_hash].
      by rewrite !Z.div_mul.
    + apply sole_selected_most_recent.
      * by apply rotated_lookup.
      * unfold is_valid_candidate. by rewrite (proj1 (claim_row_active _ _ _ _ _)).
      * intros j r Hj [Hact _]%andb_true_iff. by eapply rotated_active.
    + exact Hwindow.
Qed.

(** The status of a wallet all of whose rows are revoked. *)
Lemma status_all_revoked (v : World) (walletPubkey : string) :
  has_history walletPubkey (age_proofs v) →
  (∀ j r, age_proofs v !! j = Some r →
          wallet_pubkey r = walletPubkey → claim_type r = CLAIM_TYPE →
          revoked r = true) →
  ∃ j latest,
    most_recent (is_row_of walletPubkey CLAIM_TYPE) (age_proofs v) j latest
    ∧ run (getAge18PlusStatus walletPubkey) v
      = inr {| Status.wallet_pubkey := walletPubkey;
               Status.has_proof := true;
               Status.is_major := false;
               Status.revoked := true;
               Status.valid_from := Some (valid_from latest / 1000);
               Status.valid_until := Some (valid_until latest / 1000);
               Status.deploy_hash := deploy_hash latest |}.
Proof.
  intros (k & r0 & Hk & Hw0 & Hc0) Hall.
  rewrite getAge18PlusStatus_fallback.
  - destruct (latest_from (is_row_of _ _) 0 None (age_proofs v)) as [[j l]|] eqn:Hl.
    + apply latest_from_sound in Hl. exists j, l. split; [done|].
      destruct Hl as (Hj & [Hw Hc]%is_row_of_true & _).
      by rewrite (Hall j l Hj Hw Hc).
    + assert (is_row_of walletPubkey CLAIM_TYPE r0 = true) as Hrow
        by (by apply is_row_of_true).
      by rewrite (proj1 (latest_from_None _ _) Hl k r0 Hk) in Hrow.
  - intros i a (Hi & [(Hw & Hc & Hr)%is_active_of_true _]%andb_true_iff & _).
    rewrite (Hall i a Hi Hw Hc) in Hr. done.
Qed.

(** X13: revoking right after a major computation answers had_proof = true
    and revoked = true with the window of the claim just created, leaves
    every row of the wallet revoked, and the status of the wallet then is
    has_proof = true, is_major = false, revoked = true. *)
Theorem revoke_after_create w walletPubkey birthDate validityYears sessionId :
  major_at w birthDate = true →
  let w1 := exec (create walletPubkey birthDate validityYears sessionId) w in
  let w2 := exec (revokeAge18PlusClaim walletPubkey) w1 in
  let p := params w walletPubkey birthDate validityYears in
  run (revokeAge18PlusClaim walletPubkey) w1
  = inr {| Revocation.wallet_pubkey := walletPubkey;
           Revocation.claim_type := CLAIM_TYPE;
           Revocation.had_proof := true;
           Revocation.revoked := true;
           Revocation.deploy_hash := None;
           Revocation.valid_from := Some (Age18PlusClaimParams.valid_from p);
           Revocation.valid_until := Some (Age18PlusClaimParams.valid_until p) |}
  ∧ (∀ j r, age_proofs w2 !! j = Some r →
            wallet_pubkey r = walletPubkey → claim_type r = CLAIM_TYPE →
            revoked r = true)
  ∧ ∃ status,
      run (getAge18PlusStatus walletPubkey) w2 = inr status
      ∧ Status.has_proof status = true ∧ Status.is_major status = false
      ∧ Status.revoked status = true.
Proof.
  intros Hmajor. cbv zeta.
  set (w1 := exec (create walletPubkey birthDate validityYears sessionId) w).
  set (new := claim w walletPubkey birthDate validityYears sessionId).
  set (n := length (age_proofs w)).
  assert (latest_from (is_active_of walletPubkey CLAIM_TYPE) 0 None (age_proofs w1)
          = Some (n, new)) as Hactive.
  { apply latest_from_spec, sole_selected_most_recent.
    - by apply rotated_lookup.
    - apply claim_row_active.
    - intros j r Hj Hact. by eapply rotated_active. }
  assert (age_proofs (exec (revokeAge18PlusClaim walletPubkey) w1)
          = <[ n := with_revoked (clock w1 (ticks w1)) new ]> (age_proofs w1))
    as Htable by (by rewrite revoke_table, Hactive).
  assert (∀ j r, age_proofs (exec (revokeAge18PlusClaim walletPubkey) w1) !! j = Some r →
            wallet_pubkey r = walletPubkey → claim_type r = CLAIM_TYPE →
            revoked r = true) as Hall.
  { intros j r. rewrite Htable. intros Hj Hw Hc.
    destruct (decide (n = j)) as [<-|Hne].
    - rewrite list_lookup_insert_eq in Hj
        by (eapply lookup_lt_Some; by apply rotated_lookup).
      by injection Hj as <-.
    - rewrite list_lookup_insert_ne in Hj by done.
      destruct (revoked r) eqn:Hr; [done|].
      assert (j = n); [|done].
      eapply rotated_active; [done|exact Hj|]. by apply is_active_of_true. }
  split; [|split; [exact Hall|]].
  - unfold run. rewrite revoke_run, Hactive. cbn [fst].
    unfold revoked_as, new, claim_row, new_row.
    cbn [valid_from valid_until deploy_hash]. by rewrite !Z.div_mul.
  - destruct (status_all_revoked (exec (revokeAge18PlusClaim walletPubkey) w1)
                walletPubkey) as (j & l & _ & Hstatus); [|exact Hall|].
    + exists n, (with_revoked (clock w1 (ticks w1)) new). rewrite Htable.
      split; [|done].
      apply list_lookup_insert_eq. eapply lookup_lt_Some. by apply rotated_lookup.
    + eexists. split; [exact Hstatus|]. done.
Qed.

(** X14: a minor computation for a wallet that has no row yet leaves it
    with one audit row: its status is has_proof = true, is_major = false,
    revoked = true with the window of the returned parameters, and a
    revocation answers had_proof = true, revoked = true with the same
    window and changes nothing. *)
Theorem minor_computation_on_new_wallet w walletPubkey birthDate validityYears
    sessionId :
  major_at w birthDate = false →
  (∀ j r, age_proofs w !! j = Some r →
          ¬ (wallet_pubkey r = walletPubkey ∧ claim_type r = CLAIM_TYPE)) →
  let w1 := exec (create walletPubkey birthDate validityYears sessionId) w in
  let p := params w walletPubkey birthDate validityYears in
  run (getAge18PlusStatus walletPubkey) w1
  = inr {| Status.wallet_pubkey := walletPubkey;
           Status.has_proof := true;
           Status.is_major := false;
           Status.revoked := true;
           Status.valid_from := Some (Age18PlusClaimParams.valid_from p);
           Status.valid_until := Some (Age18PlusClaimParams.valid_until p);
           Status.deploy_hash := None |}
  ∧ revokeAge18PlusClaim walletPubkey w1
    = (inr {| Revocation.wallet_pubkey := walletPubkey;
              Revocation.claim_type := CLAIM_TYPE;
              Revocation.had_proof := true;
              Revocation.revoked := true;
              Revocation.deploy_hash := None;
              Revocation.valid_from := Some (Age18PlusClaimParams.valid_from p);
              Revocation.valid_until := Some (Age18PlusClaimParams.valid_until p) |},
       w1).
Proof.
  intros Hminor Hnew. cbv zeta.
  set (w1 := exec (create walletPubkey birthDate validityYears sessionId) w).
  set (row := audit w walletPubkey birthDate validityYears sessionId).
  assert (age_proofs w1 = age_proofs w ++ [row]) as Htable by (by apply minor_table).
  assert (∀ j r, age_proofs w1 !! j = Some r →
            is_row_of walletPubkey CLAIM_TYPE r = true →
            j = length (age_proofs w)) as Hsole.
  { intros j r. rewrite Htable.
    intros [[_ Hj]|[Hj _]]%lookup_snoc_Some Hrow; [|done].
    apply is_row_of_true in Hrow. by destruct (Hnew j r Hj). }
  assert (latest_from (is_row_of walletPubkey CLAIM_TYPE) 0 None (age_proofs w1)
          = Some (length (age_proofs w), row)) as Hlatest.
  { apply latest_from_spec, sole_selected_most_recent; [| |exact Hsole].
    - rewrite Htable. by apply list_lookup_middle.
    - by apply is_row_of_true. }
  assert (latest_from (is_active_of walletPubkey CLAIM_TYPE) 0 None (age_proofs w1)
          = None) as Hnone.
  { apply latest_from_None. intros j r Hj. apply not_true_is_false.
    intros (Hw & Hc & Hr)%is_active_of_true.
    assert (j = length (age_proofs w)) as ->
      by (eapply Hsole; [done|by apply is_row_of_true]).
    rewrite Htable, list_lookup_middle in Hj by done.
    injection Hj as <-. done. }
  split.
  - rewrite getAge18PlusStatus_fallback.
    + rewrite Hlatest. unfold row, audit_row, new_row.
      cbn [valid_from valid_until deploy_hash revoked]. by rewrite !Z.div_mul.
    + intros i a (Hi & [Hact _]%andb_true_iff & _).
      by rewrite (proj1 (latest_from_None _ _) Hnone i a Hi) in Hact.
  - rewrite revoke_run, Hnone, Hlatest.
    unfold revoked_as, row, audit_row, new_row.
    cbn [valid_from valid_until deploy_hash]. by rewrite !Z.div_mul.
Qed.

End Life.
(** ** The revision anchoring on Casper: status and revocation *)

Lemma most_recent_update P (t : list AgeProofEntity) i r r' :
  most_recent P t i r → P r' = true → created_at r' = created_at r →
  most_recent P (<[ i := r' ]> t) i r'.
Proof.
  intros (Hi & HP & Hmax) HP' Hc.
  assert (i < length t)%nat as Hlt by (by eapply lookup_lt_Some).
  split; [by apply list_lookup_insert_eq|split; [done|]].
  intros j x Hj HPx. destruct (decide (j = i)) as [->|Hne].
  - rewrite list_lookup_insert_eq in Hj by done. injection Hj as <-. right. lia.
  - rewrite list_lookup_insert_ne in Hj by done. rewrite Hc. by apply (Hmax j x).
Qed.

Section CasperLedger.

Variable sha256 : list byte → list byte.
Variable USER_HASH_SALT : option string.

Abbreviation revoke := (CasperAgeProofService.revokeAge18PlusClaim sha256 USER_HASH_SALT).
Abbreviation status := CasperAgeProofService.getAge18PlusStatus.

Lemma casper_revoke_run w walletPubkey :
  revoke walletPubkey w
  = match latest_from (is_row_of walletPubkey "AGE_18_PLUS") 0 None (age_proofs w) with
    | None => (inr (nothing_to_revoke walletPubkey), w)
    | Some (i, proof) =>
        if revoked proof then (inr (revoked_as walletPubkey proof), w)
        else
          match casper w (casper_calls w) with
          | None => (inl CasperAgeProofService.CASPER_REVOKE_FAILED, called w)
          | Some deployHash =>
              let row :=
                CasperAgeProofService.with_revocation deployHash
                  (clock w (ticks w)) proof in
              (inr (revoked_as walletPubkey row),
               set_age_proofs (λ t, <[ i := row ]> t) (tick (called w)))
          end
    end.
Proof.
  unfold CasperAgeProofService.revokeAge18PlusClaim,
    CasperAgeProofService.sendRevokeToCasper,
    CasperAgeProofService.save_revocation. step_M.
  destruct (latest_from _ 0 None (age_proofs w)) as [[i proof]|]; [|reflexivity].
  destruct (revoked proof) eqn:Hr.
  - reflexivity.
  - destruct (casper w (casper_calls w)); reflexivity.
Qed.

Lemma casper_status_run w walletPubkey :
  status walletPubkey w
  = (inr match latest_from (is_row_of walletPubkey "AGE_18_PLUS") 0 None
                 (age_proofs w) with
         | None =>
             {| Status.wallet_pubkey := walletPubkey;
                Status.has_proof := false;
                Status.is_major := false;
                Status.revoked := false;
                Status.valid_from := None;
                Status.valid_until := None;
                Status.deploy_hash := None |}
         | Some (_, r) => anchored_status walletPubkey (clock w (ticks w)) r
         end, tick w).
Proof.
  unfold CasperAgeProofService.getAge18PlusStatus. step_M.
  destruct (latest_from _ 0 None (age_proofs w)) as [[i proof]|]; reflexivity.
Qed.

Lemma latest_after_revocation w walletPubkey i proof deployHash now :
  latest_from (is_row_of walletPubkey "AGE_18_PLUS") 0 None (age_proofs w)
  = Some (i, proof) →
  latest_from (is_row_of walletPubkey "AGE_18_PLUS") 0 None
    (<[ i := CasperAgeProofService.with_revocation deployHash now proof ]>
       (age_proofs w))
  = Some (i, CasperAgeProofService.with_revocation deployHash now proof).
Proof.
  intros Hl. apply latest_from_spec. apply latest_from_spec in Hl.
  apply (most_recent_update _ _ _ proof); [done| |done].
  destruct Hl as (_ & HP & _). exact HP.
Qed.

(** X15: in the anchoring revision a revocation throws only when the
    ledger refuses the deploy; the exception is the generic
    CASPER_REVOKE_FAILED, no row has changed and every wallet's status
    is answered as before. *)
Theorem refused_revocation_changes_nothing w walletPubkey e :
  run (revoke walletPubkey) w = inl e →
  e = CasperAgeProofService.CASPER_REVOKE_FAILED
  ∧ casper w (casper_calls w) = None
  ∧ age_proofs (exec (revoke walletPubkey) w) = age_proofs w
  ∧ ∀ other, run (status other) (exec (revoke walletPubkey) w)
             = run (status other) w.
Proof.
  unfold run, exec. rewrite casper_revoke_run.
  destruct (latest_from _ 0 None (age_proofs w)) as [[i proof]|]; [|done].
  destruct (revoked proof); [done|].
  destruct (casper w (casper_calls w)) as [deployHash|]; [done|].
  cbn [fst snd]. intros [= <-].
  split; [done|split; [done|split; [done|]]].
  intros other. by rewrite !casper_status_run.
Qed.

(** X16: in the anchoring revision a revocation that has answered is
    idempotent: asked again, it gives the same answer, sends nothing to
    the ledger and leaves the state as it is. *)
Theorem anchored_revocation_is_idempotent w walletPubkey answer :
  run (revoke walletPubkey) w = inr answer →
  revoke walletPubkey (exec (revoke walletPubkey) w)
  = (inr answer, exec (revoke walletPubkey) w).
Proof.
  unfold run, exec. rewrite (casper_revoke_run w).
  destruct (latest_from _ 0 None (age_proofs w)) as [[i proof]|] eqn:Hl.
  - destruct (revoked proof) eqn:Hr.
    + cbn [fst snd]. intros [= <-]. by rewrite casper_revoke_run, Hl, Hr.
    + destruct (casper w (casper_calls w)) as [deployHash|]; [|done].
      cbn [fst snd]. intros [= <-]. rewrite casper_revoke_run.
      cbn [set_age_proofs age_proofs tick called].
      by rewrite (latest_after_revocation w walletPubkey i proof).
  - cbn [fst snd]. intros [= <-]. by rewrite casper_revoke_run, Hl.
Qed.

(** X17: in the anchoring revision, once a revocation has answered for a
    wallet that had a proof, the status of the wallet is revoked and not
    major at any time, and the deploy hash it shows is the one of the
    revocation's answer: the hash of the revoking deploy has replaced the
    hash of the registering one. *)
Theorem status_after_anchored_revocation w walletPubkey answer :
  run (revoke walletPubkey) w = inr answer →
  Revocation.had_proof answer = true →
  ∃ st, run (status walletPubkey) (exec (revoke walletPubkey) w) = inr st
    ∧ Status.has_proof st = true
    ∧ Status.is_major st = false
    ∧ Status.revoked st = true
    ∧ Status.deploy_hash st = Revocation.deploy_hash answer
    ∧ Status.valid_from st = Revocation.valid_from answer
    ∧ Status.valid_until st = Revocation.valid_until answer.
Proof.
  unfold run, exec. rewrite (casper_revoke_run w), casper_status_run.
  destruct (latest_from _ 0 None (age_proofs w)) as [[i proof]|] eqn:Hl.
  - destruct (revoked proof) eqn:Hr.
    + cbn [fst snd]. intros [= <-] _. rewrite Hl. eexists. split; [reflexivity|].
      unfold anchored_status. cbn [Status.has_proof Status.is_major Status.revoked
        Status.deploy_hash Status.valid_from Status.valid_until].
      rewrite Hr, andb_false_r. done.
    + destruct (casper w (casper_calls w)) as [deployHash|]; [|done].
      cbn [fst snd]. intros [= <-] _.
      cbn [set_age_proofs age_proofs tick called].
      rewrite (latest_after_revocation w walletPubkey i proof) by done.
      eexists. split; [reflexivity|].
      unfold anchored_status. cbn [Status.has_proof Status.is_major Status.revoked
        Status.deploy_hash Status.valid_from Status.valid_until
        CasperAgeProofService.with_revocation revoked is_major].
      rewrite andb_false_r. done.
  - cbn [fst snd]. by intros [= <-].
Qed.

Abbreviation anchor :=
  (CasperAgeProofService.createAge18PlusClaimIfMajor sha256 USER_HASH_SALT).

(** X18: in the anchoring revision the newest row alone decides the
    status.  After a computation that comes out minor, made later than
    every row of the table, the wallet is reported with a proof that is
    neither major nor revoked and carries no deploy hash, whatever claims
    it held before; no deploy is sent. *)
Theorem minor_computation_supersedes_anchored_claim w walletPubkey birthDate
    validityYears sessionId :
  AgeComputationResult.isMajor (computeAge birthDate (clock w (ticks w))) = false →
  (∀ j r, age_proofs w !! j = Some r → created_at r < clock w (ticks w + 2)) →
  let w' := exec (anchor walletPubkey birthDate validityYears sessionId) w in
  casper_calls w' = casper_calls w
  ∧ ∃ st, run (status walletPubkey) w' = inr st
    ∧ Status.has_proof st = true
    ∧ Status.is_major st = false
    ∧ Status.revoked st = false
    ∧ Status.deploy_hash st = None.
Proof.
  intros Hminor Hlater w'.
  assert (∃ row, w' = set_age_proofs (λ t, t ++ [row]) (tick (tick (tick w)))
            ∧ wallet_pubkey row = walletPubkey ∧ claim_type row = CLAIM_TYPE
            ∧ is_major row = false ∧ revoked row = false
            ∧ deploy_hash row = None
            ∧ created_at row = clock w (ticks w + 2)) as (row & -> & Hw & Hc & Hm & Hr & Hd & Ht).
  { subst w'. unfold exec, CasperAgeProofService.createAge18PlusClaimIfMajor.
    step_M. rewrite Hminor. step_M. eexists. split; [reflexivity|].
    unfold new_row, buildAge18PlusClaimParams.
    cbn [wallet_pubkey claim_type is_major revoked deploy_hash created_at
         Age18PlusClaimParams.claim_type Age18PlusClaimParams.revoked].
    repeat (split; [reflexivity|]). cbn [clock ticks]. f_equal. lia. }
  split; [reflexivity|].
  unfold run. rewrite casper_status_run.
  cbn [set_age_proofs age_proofs tick fst].
  assert (latest_from (is_row_of walletPubkey "AGE_18_PLUS") 0 None
            (age_proofs w ++ [row]) = Some (length (age_proofs w), row)) as ->.
  { apply latest_from_spec. split; [by apply list_lookup_middle|].
    split; [by apply is_row_of_true|].
    intros j r' Hj _. apply lookup_snoc_Some in Hj as [[Hlt Hj]|[-> <-]].
    - left. rewrite Ht. by apply (Hlater j).
    - right. done. }
  eexists. split; [reflexivity|].
  unfold anchored_status. cbn [Status.has_proof Status.is_major Status.revoked
    Status.deploy_hash]. rewrite Hm, Hr, Hd. done.
Qed.

End CasperLedger.
(** ** The listing of a wallet's rows *)

Lemma insert_desc_perm x l : insert_desc x l ≡ₚ x :: l.
Proof.
  induction l as [|y l IH]; simpl; [done|].
  destruct (_ <=? _); [done|]. rewrite IH. apply Permutation_swap.
Qed.

Lemma insert_desc_sorted x l :
  StronglySorted newer l → StronglySorted newer (insert_desc x l).
Proof.
  induction 1 as [|y l Hl IH Hy]; simpl.
  - repeat constructor.
  - destruct (created_at y.2 <=? created_at x.2) eqn:Hle.
    + apply Z.leb_le in Hle. constructor; [by constructor|].
      constructor; [done|]. eapply Forall_impl; [exact Hy|].
      intros z Hz. unfold newer in *. lia.
    + apply Z.leb_gt in Hle. constructor; [done|].
      rewrite insert_desc_perm. constructor; [unfold newer; lia|done].
Qed.

Lemma order_desc_from acc l :
  StronglySorted newer acc →
  StronglySorted newer (foldl (λ sorted x, insert_desc x sorted) acc l)
  ∧ foldl (λ sorted x, insert_desc x sorted) acc l ≡ₚ acc ++ l.
Proof.
  revert acc. induction l as [|x l IH]; intros acc Hacc; simpl.
  - by rewrite app_nil_r.
  - destruct (IH (insert_desc x acc)) as [Hs Hp]; [by apply insert_desc_sorted|].
    split; [done|]. rewrite Hp, insert_desc_perm. simpl. apply Permutation_middle.
Qed.

Lemma order_desc_sorted l : StronglySorted newer (order_desc l).
Proof. apply order_desc_from. constructor. Qed.

Lemma order_desc_perm l : order_desc l ≡ₚ l.
Proof. apply (order_desc_from [] l). constructor. Qed.

Lemma selected_rows walletPubkey (table : list AgeProofEntity) i r :
  (i, r) ∈ List.filter (λ ir : nat * AgeProofEntity,
                          String.eqb (wallet_pubkey ir.2) walletPubkey)
             (imap (λ i r, (i, r)) table)
  ↔ table !! i = Some r ∧ wallet_pubkey r = walletPubkey.
Proof.
  rewrite list_elem_of_In, List.filter_In, <- list_elem_of_In, eqb_true.
  rewrite elem_of_lookup_imap. simpl. split.
  - intros [(j & x & [= -> ->] & Hj) Hw]. done.
  - intros [Hi Hw]. split; [|done]. by exists i, r.
Qed.

Lemma selected_rows_length walletPubkey (table : list AgeProofEntity) :
  length (List.filter (λ ir : nat * AgeProofEntity,
                         String.eqb (wallet_pubkey ir.2) walletPubkey)
            (imap (λ i r, (i, r)) table))
  = length (rows_of walletPubkey table).
Proof.
  unfold rows_of.
  enough (∀ k, length (List.filter (λ ir : nat * AgeProofEntity,
                         String.eqb (wallet_pubkey ir.2) walletPubkey)
            (imap (λ i r, (k + i, r)%nat) table))
          = length (List.filter (λ r, String.eqb (wallet_pubkey r) walletPubkey) table))
    as H by apply (H 0%nat).
  induction table as [|x l IH]; intros k; [done|].
  cbn [imap List.filter snd]. 
  rewrite (imap_ext _ (λ i r, (S k + i, r)%nat) l) by (intros; unfold compose; f_equal; lia).
  destruct (String.eqb _ _); cbn [length]; by rewrite (IH (S k)).
Qed.

Lemma selected_rows_NoDup walletPubkey (table : list AgeProofEntity) :
  NoDup (List.filter (λ ir : nat * AgeProofEntity,
                         String.eqb (wallet_pubkey ir.2) walletPubkey)
            (imap (λ i r, (i, r)) table)).*1.
Proof.
  enough (∀ k, NoDup (List.filter (λ ir : nat * AgeProofEntity,
                         String.eqb (wallet_pubkey ir.2) walletPubkey)
            (imap (λ i r, (k + i, r)%nat) table)).*1
             ∧ ∀ x, x ∈ (List.filter (λ ir : nat * AgeProofEntity,
                         String.eqb (wallet_pubkey ir.2) walletPubkey)
            (imap (λ i r, (k + i, r)%nat) table)).*1 → (k ≤ x)%nat)
    as H by apply (H 0%nat).
  induction table as [|x l IH]; intros k.
  - split; [constructor|]. intros y Hy. by apply elem_of_nil in Hy.
  - cbn [imap List.filter snd].
    rewrite (imap_ext _ (λ i r, (S k + i, r)%nat) l) by (intros; unfold compose; f_equal; lia).
    destruct (IH (S k)) as [Hnd Hge].
    destruct (String.eqb _ _); cbn [fmap list_fmap fst].
    + split.
      * constructor; [|done]. intros Hin. apply Hge in Hin. lia.
      * intros y [->|Hy]%elem_of_cons; [lia|]. apply Hge in Hy. lia.
    + split; [done|]. intros y Hy. apply Hge in Hy. lia.
Qed.

Lemma find_of_wallet_rows walletPubkey limit (table : list AgeProofEntity) :
  let rows := find_of_wallet walletPubkey limit table in
  length rows = (limit `min` length (rows_of walletPubkey table))%nat
  ∧ NoDup rows.*1
  ∧ (∀ i r, (i, r) ∈ rows → table !! i = Some r ∧ wallet_pubkey r = walletPubkey)
  ∧ (∀ k k' x y, rows !! k = Some x → rows !! k' = Some y → (k < k')%nat →
       newer x y)
  ∧ (∀ j r x, table !! j = Some r → wallet_pubkey r = walletPubkey →
       j ∉ rows.*1 → x ∈ rows → newer x (j, r)).
Proof.
  unfold find_of_wallet.
  set (sel := List.filter _ _).
  pose proof (order_desc_sorted sel) as Hsorted.
  pose proof (order_desc_perm sel) as Hperm.
  set (o := order_desc sel) in *. cbv zeta.
  assert (∀ x, x ∈ take limit o → x ∈ sel) as Hsub.
  { intros x Hx. rewrite <- Hperm. revert Hx. apply subseteq_take. }
  split; [|split; [|split; [|split]]].
  - rewrite length_take, Hperm. unfold sel. by rewrite selected_rows_length.
  - eapply sublist_NoDup; [|apply fmap_sublist, sublist_take].
    rewrite Hperm. apply selected_rows_NoDup.
  - intros i r Hin. apply Hsub in Hin. by apply selected_rows in Hin.
  - intros k k' x y Hk Hk' Hlt.
    rewrite <- (take_drop limit o) in Hsorted.
    apply StronglySorted_app_1_l in Hsorted.
    rewrite <- (take_drop k' (take limit o)) in Hsorted.
    eapply StronglySorted_app_1_elem_of; [exact Hsorted| |].
    + apply list_elem_of_lookup. exists k. rewrite lookup_take_lt by done. done.
    + apply list_elem_of_lookup. exists 0%nat. rewrite lookup_drop.
      by rewrite Nat.add_0_r.
  - intros j r x Hj Hw Hnot Hx.
    assert ((j, r) ∈ drop limit o) as Hdrop.
    { assert ((j, r) ∈ o) as Hin by (rewrite Hperm; by apply selected_rows).
      rewrite <- (take_drop limit o) in Hin.
      apply elem_of_app in Hin as [Hin|Hin]; [|done].
      exfalso. apply Hnot. apply list_elem_of_fmap. by exists (j, r). }
    rewrite <- (take_drop limit o) in Hsorted.
    by eapply StronglySorted_app_1_elem_of.
Qed.

(** X19: [listAgeProofsForWallet], asked for a positive number of rows,
    reads the table and changes nothing.  It lists rows of the wallet
    only, each once and under its own id, as many as the limit allows;
    the items come newest first, and a row of the wallet that is left out
    is no newer than any listed one. *)
Theorem listing_is_newest_first w walletPubkey limit :
  (0 < limit)%nat →
  ∃ l, listAgeProofsForWallet walletPubkey limit w = (inr l, w)
    ∧ ProofList.wallet_pubkey l = walletPubkey
    ∧ ProofList.count l = length (ProofList.items l)
    ∧ ProofList.count l
      = (limit `min` length (rows_of walletPubkey (age_proofs w)))%nat
    ∧ NoDup (ProofItem.id <$> ProofList.items l)
    ∧ (∀ a, a ∈ ProofList.items l →
         ∃ r, age_proofs w !! ProofItem.id a = Some r
              ∧ wallet_pubkey r = walletPubkey
              ∧ a = proof_item (ProofItem.id a, r))
    ∧ (∀ k k' a b ra rb,
         ProofList.items l !! k = Some a → ProofList.items l !! k' = Some b →
         (k < k')%nat →
         age_proofs w !! ProofItem.id a = Some ra →
         age_proofs w !! ProofItem.id b = Some rb →
         created_at rb ≤ created_at ra)
    ∧ (∀ j r a ra,
         age_proofs w !! j = Some r → wallet_pubkey r = walletPubkey →
         j ∉ ProofItem.id <$> ProofList.items l →
         a ∈ ProofList.items l → age_proofs w !! ProofItem.id a = Some ra →
         created_at r ≤ created_at ra).
Proof.
  intros _.
  destruct (find_of_wallet_rows walletPubkey limit (age_proofs w))
    as (Hlen & Hnd & Hrows & Hsorted & Hrest).
  set (rows := find_of_wallet walletPubkey limit (age_proofs w)) in *.
  assert (ProofItem.id <$> (proof_item <$> rows) = rows.*1) as Hids.
  { rewrite <- list_fmap_compose. by apply list_fmap_ext. }
  assert (∀ a, a ∈ proof_item <$> rows →
            ∃ r, (ProofItem.id a, r) ∈ rows ∧ a = proof_item (ProofItem.id a, r))
    as Hitem.
  { intros a ([i r] & -> & Hin)%list_elem_of_fmap. by exists r. }
  exists {| ProofList.wallet_pubkey := walletPubkey;
            ProofList.count := length rows;
            ProofList.items := proof_item <$> rows |}.
  split; [reflexivity|].
  cbn [ProofList.wallet_pubkey ProofList.count ProofList.items].
  split; [done|]. split; [by rewrite length_fmap|]. split; [done|].
  rewrite Hids. split; [done|]. split; [|split].
  - intros a (r & Hin & Ha)%Hitem. exists r.
    destruct (Hrows _ _ Hin) as [Hi Hw]. done.
  - intros k k' a b ra rb Hk Hk' Hlt Hra Hrb.
    apply list_lookup_fmap_Some in Hk as ([i r] & -> & Hk).
    apply list_lookup_fmap_Some in Hk' as ([i' r'] & -> & Hk').
    pose proof (Hsorted k k' _ _ Hk Hk' Hlt) as Hnew.
    apply list_elem_of_lookup_2 in Hk, Hk'.
    apply Hrows in Hk as [Hk _]. apply Hrows in Hk' as [Hk' _].
    cbn [proof_item ProofItem.id fst] in Hra, Hrb.
    unfold newer in Hnew. simpl in Hnew. congruence.
  - intros j r a ra Hj Hw Hnot (r' & Hin & Ha)%Hitem Hra.
    pose proof (Hrest j r _ Hj Hw Hnot Hin) as Hnew.
    apply Hrows in Hin as [Hin _].
    unfold newer in Hnew. simpl in Hnew. congruence.
Qed.
(** ** The guards and the controllers *)

Lemma spaces_then_token_complete spaces c token :
  spaces ≠ "" →
  Js.all_chars Js.is_white_space spaces = true →
  Js.is_white_space c = false →
  Js.all_chars (λ c, negb (JwtAuthGuard.is_line_terminator c)) (String c token) = true →
  JwtAuthGuard.spaces_then_token (spaces +:+ String c token) = Some (String c token).
Proof.
  intros Hne Hws Hc Hline.
  induction spaces as [|s spaces IH]; [by destruct Hne|].
  cbn [Js.all_chars] in Hws. apply andb_true_iff in Hws as [Hs Hws].
  change (String s spaces +:+ String c token)
    with (String s (spaces +:+ String c token)).
  cbn [JwtAuthGuard.spaces_then_token]. rewrite Hs.
  destruct spaces as [|s' spaces].
  - change ("" +:+ String c token) with (String c token).
    cbn [JwtAuthGuard.spaces_then_token]. rewrite Hc.
    unfold JwtAuthGuard.rest_of_line. by rewrite Hline.
  - by rewrite IH.
Qed.

Lemma spaces_then_token_sound s token :
  JwtAuthGuard.spaces_then_token s = Some token →
  ∃ spaces, s = spaces +:+ token
    ∧ spaces ≠ "" ∧ Js.all_chars Js.is_white_space spaces = true
    ∧ token ≠ ""
    ∧ Js.all_chars (λ c, negb (JwtAuthGuard.is_line_terminator c)) token = true.
Proof.
  induction s as [|c s IH]; [done|].
  cbn [JwtAuthGuard.spaces_then_token].
  destruct (Js.is_white_space c) eqn:Hc; [|done].
  destruct (JwtAuthGuard.spaces_then_token s) as [t|] eqn:Hs.
  - intros [= ->]. destruct (IH eq_refl) as (spaces & -> & _ & Hws & Hne & Hline).
    exists (String c spaces). split; [done|]. split; [done|].
    cbn [Js.all_chars]. by rewrite Hc, Hws.
  - unfold JwtAuthGuard.rest_of_line. destruct s as [|a s]; [done|].
    destruct (Js.all_chars _ (String a s)) eqn:Hline; [|done].
    intros [= <-]. exists (String c "").
    split; [reflexivity|]. split; [done|]. split; [|done].
    cbn [Js.all_chars]. by rewrite Hc.
Qed.

Lemma startsWith_Bearer auth :
  Js.startsWith "Bearer" auth = true ↔ auth = "Bearer" +:+ Js.drop 6 auth.
Proof.
  split.
  - destruct auth as [|a1 [|a2 [|a3 [|a4 [|a5 [|a6 rest]]]]]];
      cbn [Js.startsWith]; rewrite ?andb_false_r; try done.
    rewrite !andb_true_iff, !Ascii.eqb_eq.
    intros (<- & <- & <- & <- & <- & <- & _). done.
  - intros ->. done.
Qed.

(** X20: on ASCII text, the guard reads a bearer token exactly from the
    headers made of the word Bearer, white space, and a token that is not
    empty and holds no line terminator; a token that does not begin with
    white space is read back whole. *)
Theorem bearer_token_of_header :
  (∀ spaces c token,
     is_ascii (String c token) = true →
     spaces ≠ "" →
     Js.all_chars Js.is_white_space spaces = true →
     Js.is_white_space c = false →
     Js.all_chars (λ c, negb (JwtAuthGuard.is_line_terminator c))
       (String c token) = true →
     JwtAuthGuard.bearer_token ("Bearer" +:+ spaces +:+ String c token)
     = Some (String c token))
  ∧ (∀ auth token,
       is_ascii auth = true →
       JwtAuthGuard.bearer_token auth = Some token →
       ∃ spaces, auth = "Bearer" +:+ spaces +:+ token
         ∧ spaces ≠ "" ∧ Js.all_chars Js.is_white_space spaces = true
         ∧ token ≠ ""
         ∧ Js.all_chars (λ c, negb (JwtAuthGuard.is_line_terminator c)) token
           = true).
Proof.
  split.
  - intros spaces c token _ Hne Hws Hc Hline. unfold JwtAuthGuard.bearer_token.
    change (Js.startsWith "Bearer" ("Bearer" +:+ spaces +:+ String c token))
      with true.
    change (Js.drop 6 ("Bearer" +:+ spaces +:+ String c token))
      with (spaces +:+ String c token).
    by apply spaces_then_token_complete.
  - intros auth token _. unfold JwtAuthGuard.bearer_token.
    destruct (Js.startsWith "Bearer" auth) eqn:Hb; [|done].
    apply startsWith_Bearer in Hb.
    intros (spaces & Hs & Hrest)%spaces_then_token_sound.
    exists spaces. split; [|done]. rewrite Hb at 1. by rewrite Hs.
Qed.

Section GuardedRoutes.

Variable jwt_verifyAsync : string → option AuthService.JwtPayload.t.

Abbreviation guard := (JwtAuthGuard.canActivate jwt_verifyAsync).
Abbreviation revoke_route := (ProofController.revoke_route jwt_verifyAsync).
Abbreviation status_route := (ProofController.status_route jwt_verifyAsync).

Lemma revoke_other_rows w walletPubkey i r :
  wallet_pubkey r ≠ walletPubkey →
  age_proofs (exec (revokeAge18PlusClaim walletPubkey) w) !! i = Some r
  ↔ age_proofs w !! i = Some r.
Proof.
  intros Hother.
  apply (step_other_rows (λ b, b) None w _ walletPubkey (wallet_pubkey r)
           Scenario.adult 0 None i r); [by right|done|done].
Qed.

(** X21: POST /proof/revoke acts on the wallet of the token alone.  A
    request the guard refuses is answered with the guard's exception and
    changes nothing; a request it lets through never depends on the
    wallet_pubkey of its body, and leaves every row of every other wallet
    as it is. *)
Theorem revoke_route_acts_on_token_wallet w authorization claimType walletPubkey :
  match guard authorization with
  | inl e =>
      revoke_route authorization claimType walletPubkey w = (inl e, w)
  | inr user =>
      let tokenWallet := Js.trim (AuthService.JwtPayload.wallet_pubkey user) in
      (∀ other,
         revoke_route authorization claimType other w
         = revoke_route authorization claimType walletPubkey w)
      ∧ (∀ i r,
           wallet_pubkey r ≠ tokenWallet →
           age_proofs (exec (revoke_route authorization claimType walletPubkey) w)
             !! i = Some r
           ↔ age_proofs w !! i = Some r)
  end.
Proof.
  unfold ProofController.revoke_route. step_M.
  destruct (JwtAuthGuard.canActivate jwt_verifyAsync authorization) as [e|user];
    [reflexivity|].
  cbv zeta. split; [reflexivity|].
  intros i r Hother. unfold ProofController.revokeProof.
  destruct (String.eqb (Js.trim (AuthService.JwtPayload.wallet_pubkey user)) "");
    [reflexivity|].
  destruct (negb _); [reflexivity|].
  by apply revoke_other_rows.
Qed.

(** X22: what GET /api/verify tells an integrator about a wallet is what
    GET /proof/status tells the holder of a token for that wallet, in the
    same state; neither request changes a row or a challenge. *)
Theorem verify_agrees_with_status_route w authorization walletPubkey claimType
    user answer :
  guard authorization = inr user →
  Js.trim (AuthService.JwtPayload.wallet_pubkey user) = Js.trim walletPubkey →
  run (ApiVerifyController.verify (Some walletPubkey) claimType) w = inr answer →
  run (status_route authorization) w
  = inr (ApiVerifyController.Verification.status answer)
  ∧ exec (status_route authorization) w = tick w
  ∧ exec (ApiVerifyController.verify (Some walletPubkey) claimType) w = tick w.
Proof.
  intros Hguard Hwallet.
  pose proof (getAge18PlusStatus_reads w (Js.trim walletPubkey)) as Hreads.
  unfold ProofController.status_route, ProofController.getStatus,
    ApiVerifyController.verify, exec in *.
  cbv beta iota zeta delta [run mbind M_bind mret M_ret lift throw fst snd].
  rewrite Hguard, Hwallet. cbn [Js.not default]. unfold id.
  destruct walletPubkey as [|c walletPubkey]; [done|]. cbn [orb].
  destruct (String.eqb (Js.trim (String c walletPubkey)) ""); [done|].
  destruct (negb _); [done|].
  destruct (getAge18PlusStatus (Js.trim (String c walletPubkey)) w) as [[e|st] w'];
    [done|].
  cbn [fst snd] in *. intros [= <-]. done.
Qed.

End GuardedRoutes.

(** X23: GET /admin/age-proofs changes nothing, and answers with a
    listing only when a token is configured and the header carries it,
    white space around both apart; the listing is that of the trimmed
    wallet, which is not empty, it has at most 500 items, and 50 at most
    when no limit is given. *)
Theorem admin_listing_is_guarded_and_bounded w ADMIN_DEBUG_TOKEN token
    walletPubkey limit :
  exec (AdminController.age_proofs_route ADMIN_DEBUG_TOKEN token walletPubkey limit) w
  = w
  ∧ ∀ l,
      run (AdminController.age_proofs_route ADMIN_DEBUG_TOKEN token walletPubkey
             limit) w = inr l →
      Js.trim (default "" ADMIN_DEBUG_TOKEN) ≠ ""
      ∧ Js.trim (default "" token) = Js.trim (default "" ADMIN_DEBUG_TOKEN)
      ∧ ProofList.wallet_pubkey l = Js.trim (default "" walletPubkey)
      ∧ ProofList.wallet_pubkey l ≠ ""
      ∧ (ProofList.count l ≤ 500)%nat
      ∧ (limit = None → ProofList.count l ≤ 50)%nat.
Proof.
  unfold AdminController.age_proofs_route, AdminDebugGuard.canActivate,
    AdminController.listAgeProofs, listAgeProofsForWallet.
  set (expected := Js.trim (default "" ADMIN_DEBUG_TOKEN)).
  set (header := Js.trim (default "" token)).
  set (wallet := Js.trim (default "" walletPubkey)).
  destruct (String.eqb expected "") eqn:Hconfigured; [by split|].
  destruct (String.eqb header "") eqn:Hblank; [by split|].
  destruct (String.eqb header expected) eqn:Htoken; [|by split].
  cbn [orb negb]. step_M.
  destruct (String.eqb wallet "") eqn:Hwallet; [by split|].
  apply String.eqb_neq in Hconfigured, Hwallet. apply eqb_true in Htoken.
  assert (∀ take l,
            (take ≤ 500)%nat → (limit = None → take ≤ 50)%nat →
            inr {| ProofList.wallet_pubkey := wallet;
                   ProofList.count := length (find_of_wallet wallet take (age_proofs w));
                   ProofList.items :=
                     proof_item <$> find_of_wallet wallet take (age_proofs w) |}
            = @inr Exception _ l →
            expected ≠ "" ∧ header = expected
            ∧ ProofList.wallet_pubkey l = wallet ∧ ProofList.wallet_pubkey l ≠ ""
            ∧ (ProofList.count l ≤ 500)%nat
            ∧ (limit = None → ProofList.count l ≤ 50)%nat) as Hbounded.
  { intros take l H500 H50 [= <-]. cbn [ProofList.wallet_pubkey ProofList.count].
    destruct (find_of_wallet_rows wallet take (age_proofs w)) as (Hlen & _).
    cbv zeta in Hlen. rewrite Hlen.
    repeat (split; [done|]). split; [lia|]. intros Hnone. specialize (H50 Hnone). lia. }
  destruct limit as [limit|].
  - destruct (String.eqb (Js.trim limit) ""); cbn [negb].
    + split; [reflexivity|]. intros l. apply Hbounded; [lia|done].
    + destruct (Js.parseInt10 (Js.trim limit)) as [|negative|value];
        cbn [Js.isInteger negb orb]; try by split.
      cbn [Js.lt Js.gt Js.value].
      destruct (value <? 1) eqn:Hlow; [by split|].
      destruct (500 <? value) eqn:Hhigh; [by split|].
      cbn [orb]. split; [reflexivity|]. intros l.
      apply Z.ltb_ge in Hlow, Hhigh. apply Hbounded; [lia|done].
  - split; [reflexivity|]. intros l. apply Hbounded; [lia|done].
Qed.

(** The decimal numeral of an integer from 0 to 2100 is read back by
    [parseInt], trimmed or not. *)
Lemma numeral_parses (n : Z) :
  0 ≤ n ≤ 2100 →
  Js.parseInt10 (Js.trim (Js.string_of_N (Z.to_N n))) = Js.Int n.
Proof.
  intros Hn.
  assert (forallb (λ k,
            match Js.parseInt10 (Js.trim (Js.string_of_N (N.of_nat k))) with
            | Js.Int v => v =? Z.of_nat k
            | _ => false
            end) (seq 0 2101) = true) as Hall by (vm_compute; reflexivity).
  rewrite forallb_forall in Hall.
  specialize (Hall (Z.to_nat n)).
  rewrite <- (Z2Nat.id n) at 2 by lia.
  replace (Z.to_N n) with (N.of_nat (Z.to_nat n)) by lia.
  destruct (Js.parseInt10 _) as [| |v].
  - discriminate Hall. apply in_seq. lia.
  - discriminate Hall. apply in_seq. lia.
  - f_equal. apply Z.eqb_eq, Hall. apply in_seq. lia.
Qed.

Section Onboarding.

Context {R : Type}.
Variable handleMockFcCallback : OnboardingController.Params.t → M R.

Abbreviation callback := (OnboardingController.mockFcCallback handleMockFcCallback).

(** X24: the onboarding callback hands a request to the service only
    with three integers that are a day from 1 to 31, a month from 1 to 12
    and a year from 1900 to 2100, read by [parseInt] from the trimmed
    parameters, and with the trimmed session id; every other request is
    refused with a BadRequestException before the service is reached. *)
Theorem callback_checks_the_date w sessionId day month year :
  (∃ sid d m y,
     sessionId = Some sid ∧ sid ≠ ""
     ∧ Js.parseInt10 (Js.trim (default "" day)) = Js.Int d
     ∧ Js.parseInt10 (Js.trim (default "" month)) = Js.Int m
     ∧ Js.parseInt10 (Js.trim (default "" year)) = Js.Int y
     ∧ plausible_date d m y
     ∧ callback sessionId day month year w
       = handleMockFcCallback
           {| OnboardingController.Params.sessionId := Js.trim sid;
              OnboardingController.Params.day := d;
              OnboardingController.Params.month := m;
              OnboardingController.Params.year := y |} w)
  ∨ (∃ message,
       callback sessionId day month year w = (inl (BadRequestException message), w)).
Proof.
  unfold OnboardingController.mockFcCallback.
  destruct sessionId as [[|c sid]|]; try (right; by eexists).
  destruct (Js.not day); [right; by eexists|].
  destruct (Js.not month); [right; by eexists|].
  destruct (Js.not year); [right; by eexists|].
  cbn [Js.not orb default].
  destruct (Js.parseInt10 (Js.trim (default "" day))) as [| |d];
    try (right; by eexists).
  destruct (Js.parseInt10 (Js.trim (default "" month))) as [| |m];
    try (right; by eexists).
  destruct (Js.parseInt10 (Js.trim (default "" year))) as [| |y];
    try (right; by eexists).
  cbn [Js.isInteger negb orb Js.lt Js.gt Js.value].
  destruct (d <? 1) eqn:Hd1; [right; by eexists|].
  destruct (31 <? d) eqn:Hd2; [right; by eexists|].
  destruct (m <? 1) eqn:Hm1; [right; by eexists|].
  destruct (12 <? m) eqn:Hm2; [right; by eexists|].
  destruct (y <? 1900) eqn:Hy1; [right; by eexists|].
  destruct (2100 <? y) eqn:Hy2; [right; by eexists|].
  cbn [orb]. left. exists (String c sid), d, m, y.
  apply Z.ltb_ge in Hd1, Hd2, Hm1, Hm2, Hy1, Hy2.
  unfold plausible_date. repeat (split; [done || lia|]). reflexivity.
Qed.

(** X25: a date of birth written in decimal digits, with a day from 1 to
    31, a month from 1 to 12 and a year from 1900 to 2100, always reaches
    the service, as the integers it denotes, when the session id is not
    empty. *)
Theorem callback_accepts_plausible_dates w sid d m y :
  sid ≠ "" →
  plausible_date d m y →
  callback (Some sid)
    (Some (Js.string_of_N (Z.to_N d)))
    (Some (Js.string_of_N (Z.to_N m)))
    (Some (Js.string_of_N (Z.to_N y))) w
  = handleMockFcCallback
      {| OnboardingController.Params.sessionId := Js.trim sid;
         OnboardingController.Params.day := d;
         OnboardingController.Params.month := m;
         OnboardingController.Params.year := y |} w.
Proof.
  intros Hsid (Hd & Hm & Hy).
  pose proof (numeral_parses d) as Pd. pose proof (numeral_parses m) as Pm.
  pose proof (numeral_parses y) as Py.
  unfold OnboardingController.mockFcCallback. cbn [default]. unfold id.
  rewrite Pd, Pm, Py by lia.
  assert (∀ n, 0 ≤ n ≤ 2100 → Js.not (Some (Js.string_of_N (Z.to_N n))) = false)
    as Hnot.
  { intros n Hn. pose proof (numeral_parses n Hn) as Pn.
    destruct (Js.string_of_N (Z.to_N n)); [discriminate Pn|reflexivity]. }
  rewrite !Hnot by lia.
  destruct sid as [|c sid]; [done|].
  cbn [Js.not orb Js.isInteger negb Js.lt Js.gt Js.value].
  replace (d <? 1) with false by lia. replace (31 <? d) with false by lia.
  replace (m <? 1) with false by lia. replace (12 <? m) with false by lia.
  replace (y <? 1900) with false by lia. replace (2100 <? y) with false by lia.
  reflexivity.
Qed.

End Onboarding.

(** ** White space around a key *)

Lemma rev_app_append (s t : string) :
  String.rev_app s t = String.rev s +:+ t.
Proof.
  unfold String.rev. revert t. induction s as [|c s IH]; intros t; [done|].
  cbn [String.rev_app]. rewrite (IH (String c t)), (IH (String c "")).
  clear IH. induction (String.rev_app s "") as [|a r IHr]; [done|].
  change (String a (r +:+ String c t) = String a ((r +:+ String c "") +:+ t)).
  by rewrite IHr.
Qed.

Lemma rev_involutive (s : string) : String.rev (String.rev s) = s.
Proof.
  unfold String.rev. rewrite rev_app_rev_app. cbn [String.rev_app].
  apply append_empty_r.
Qed.

Lemma trimStart_starts_clean (s : string) :
  Js.trimStart (Js.trimStart s) = Js.trimStart s.
Proof.
  induction s as [|c s IH]; [done|]. cbn [Js.trimStart].
  destruct (Js.is_white_space c) eqn:Hc; [done|].
  cbn [Js.trimStart]. by rewrite Hc.
Qed.

(** Trimming the head of a string does not bring white space to its end. *)
Lemma trimStart_keeps_end (s : string) :
  Js.trimStart (String.rev s) = String.rev s →
  Js.trimStart (String.rev (Js.trimStart s)) = String.rev (Js.trimStart s).
Proof.
  induction s as [|c s IH]; [done|]. cbn [Js.trimStart].
  destruct (Js.is_white_space c) eqn:Hc; [|done].
  intros Hclean. apply IH. clear IH.
  unfold String.rev in *. cbn [String.rev_app] in Hclean.
  rewrite rev_app_append in Hclean.
  destruct s as [|a s]; [done|].
  destruct (String.rev (String a s)) as [|b r] eqn:Hrev.
  - apply (f_equal String.rev) in Hrev. by rewrite rev_involutive in Hrev.
  - fold (String.rev (String a s)). rewrite Hrev.
    change (String b r +:+ String c "") with (String b (r +:+ String c ""))
      in Hclean.
    cbn [Js.trimStart] in *. destruct (Js.is_white_space b); [|done].
    exfalso. apply (f_equal String.length) in Hclean.
    assert (∀ x, (String.length (Js.trimStart x) ≤ String.length x)%nat) as Hle.
    { clear. induction x as [|d x IHx]; [done|]. cbn [Js.trimStart].
      destruct (Js.is_white_space d); simpl; lia. }
    specialize (Hle (r +:+ String c "")). simpl in Hclean. lia.
Qed.

Lemma trim_idempotent (s : string) : Js.trim (Js.trim s) = Js.trim s.
Proof.
  unfold Js.trim.
  set (a := Js.trimStart s).
  assert (Js.trimStart (String.rev (Js.trimStart (String.rev a)))
          = String.rev (Js.trimStart (String.rev a))) as Hhead.
  { apply trimStart_keeps_end. rewrite rev_involutive. apply trimStart_starts_clean. }
  rewrite Hhead, rev_involutive. by rewrite trimStart_starts_clean.
Qed.

(** X26: the pseudonym of a wallet ignores the white space around its key,
    and an empty USER_HASH_SALT stands for the default salt. *)
Theorem computeUserHash_ignores_white_space (sha256 : list byte → list byte)
    (USER_HASH_SALT : option string) (walletPubkey : string) :
  computeUserHash sha256 USER_HASH_SALT (Js.trim walletPubkey)
  = computeUserHash sha256 USER_HASH_SALT walletPubkey
  ∧ computeUserHash sha256 (Some "") walletPubkey
    = computeUserHash sha256 None walletPubkey.
Proof.
  unfold computeUserHash. by rewrite trim_idempotent.
Qed.

(** ** The properties at work on the scenario *)

Lemma normalized_signature_has_64_bytes_witness :
  ∃ sigBytes,
    normalizeSignatureBytes Scenario.signature65 ed25519 = inr sigBytes
    ∧ length sigBytes = 64%nat.
Proof.
  eexists. split; [vm_compute; reflexivity|].
  eapply (proj1 (normalized_signature_has_64_bytes Scenario.signature65 _)).
  vm_compute. reflexivity.
Defined.

Lemma verifyCasperSignature_case_insensitive_witness :
  verifyCasperSignature Scenario.accept Scenario.accept Scenario.digest
    "01ABABABABABABABABABABABABABABABABABABABABABABABABABABABABABABABAB"
    "message" (Js.toLowerCase Scenario.signature65)
  = verifyCasperSignature Scenario.accept Scenario.accept Scenario.digest
      Scenario.wallet "message" Scenario.signature65.
Proof.
  apply (verifyCasperSignature_case_insensitive Scenario.accept Scenario.accept
           Scenario.digest); vm_compute; reflexivity.
Defined.

Lemma accepted_key_algorithm_witness :
  ∃ pubKeyBytes,
    hexToBytes (Js.drop 2 Scenario.wallet) = inr pubKeyBytes
    ∧ ((Js.toLowerCase (Js.take 2 Scenario.wallet) = "01"
        ∧ length pubKeyBytes = 32%nat)
       ∨ (Js.toLowerCase (Js.take 2 Scenario.wallet) = "02"
          ∧ length pubKeyBytes = 33%nat)).
Proof.
  assert (assertPubkeyFormat Scenario.wallet = inr ()) as Hkey
    by (vm_compute; reflexivity).
  pose proof (accepted_key_algorithm Scenario.accept Scenario.accept
                Scenario.digest Scenario.wallet Hkey) as Halg.
  change (Js.startsWith "0x" (Js.toLowerCase Scenario.wallet)) with false in Halg.
  exact (proj1 Halg).
Defined.


Lemma history_is_append_only_witness :
  history_kept (age_proofs Scenario.w0) (age_proofs Scenario.w3)
  ∧ (length (age_proofs Scenario.w0) ≤ length (age_proofs Scenario.w3))%nat.
Proof.
  apply (history_is_append_only Scenario.digest None).
  unfold Scenario.w3, Scenario.w2, Scenario.w1, Scenario.create.
  apply (rtc_l _ _ _ _ (step_create _ _ _ Scenario.wallet Scenario.adult 2 None)).
  apply (rtc_l _ _ _ _ (step_create _ _ _ Scenario.wallet Scenario.child 2 None)).
  apply rtc_once, step_revoke.
Defined.

Lemma other_wallets_untouched_witness :
  run (revokeAge18PlusClaim "01cd") Scenario.w1
  = run (revokeAge18PlusClaim "01cd") Scenario.w0.
Proof.
  refine (proj2 (proj2 (other_wallets_untouched Scenario.digest None
            Scenario.w0 Scenario.w1 Scenario.wallet "01cd" Scenario.adult 2 None
            _ _) Scenario.w0 Scenario.w1 eq_refl eq_refl)).
  - left. reflexivity.
  - vm_compute. discriminate.
Defined.

Lemma rotation_leaves_one_active_witness :
  age_proofs Scenario.w1 !! 0%nat
  = Some (claim_row Scenario.digest None Scenario.w0 Scenario.wallet
            Scenario.adult 2 None).
Proof.
  refine (proj1 (rotation_leaves_one_active Scenario.digest None Scenario.w0
            Scenario.wallet Scenario.adult 2 None _)).
  vm_compute. reflexivity.
Defined.

Lemma fresh_claim_is_valid_witness :
  run (getAge18PlusStatus Scenario.wallet) Scenario.w1
  = inr {| Status.wallet_pubkey := Scenario.wallet;
           Status.has_proof := true;
           Status.is_major := true;
           Status.revoked := false;
           Status.valid_from := Some 1717200000;
           Status.valid_until := Some 1780272000;
           Status.deploy_hash := None |}.
Proof.
  refine (proj2 (fresh_claim_is_valid Scenario.digest None Scenario.w0
            Scenario.wallet Scenario.adult 2 None _ _)).
  - vm_compute. reflexivity.
  - split; apply Z.leb_le; vm_compute; reflexivity.
Defined.

Lemma revoke_after_create_witness :
  ∃ status,
    run (getAge18PlusStatus Scenario.wallet)
      (exec (revokeAge18PlusClaim Scenario.wallet) Scenario.w1) = inr status
    ∧ Status.has_proof status = true ∧ Status.is_major status = false
    ∧ Status.revoked status = true.
Proof.
  refine (proj2 (proj2 (revoke_after_create Scenario.digest None Scenario.w0
            Scenario.wallet Scenario.adult 2 None _))).
  vm_compute. reflexivity.
Defined.

Lemma minor_computation_on_new_wallet_witness :
  run (getAge18PlusStatus Scenario.wallet) (exec (Scenario.create Scenario.child) Scenario.w0)
  = inr {| Status.wallet_pubkey := Scenario.wallet;
           Status.has_proof := true;
           Status.is_major := false;
           Status.revoked := true;
           Status.valid_from := Some 1717200000;
           Status.valid_until := Some 1780272000;
           Status.deploy_hash := None |}.
Proof.
  refine (proj1 (minor_computation_on_new_wallet Scenario.digest None Scenario.w0
            Scenario.wallet Scenario.child 2 None _ _)).
  - vm_compute. reflexivity.
  - intros j r Hj. destruct j; discriminate Hj.
Defined.

Lemma issued_challenge_verifies_witness :
  run (Scenario.verify Scenario.request) Scenario.challenged
  = inr Scenario.response.
Proof.
  destruct (run (createChallenge Scenario.wallet) Scenario.w0)
    as [e|response] eqn:Hrun; [vm_compute in Hrun; discriminate|].
  pose proof (issued_challenge_verifies Scenario.accept Scenario.accept
                Scenario.digest Scenario.sign Scenario.wallet
                (VerifyRequestDto.signature_hex Scenario.request)
                Scenario.w0 response) as Hissued.
  rewrite Hrun in Hissued. cbv zeta in Hissued. specialize (Hissued eq_refl).
  vm_compute in Hrun. injection Hrun as <-.
  assert (clock (exec (createChallenge Scenario.wallet) Scenario.w0)
            (ticks (exec (createChallenge Scenario.wallet) Scenario.w0))
          ≤ clock Scenario.w0 (2 + ticks Scenario.w0) + CHALLENGE_TTL_MS) as Hclock
    by (apply Z.leb_le; vm_compute; reflexivity).
  specialize (Hissued Hclock).
  vm_compute in Hissued. vm_compute. exact (proj1 Hissued).
Defined.

Lemma refused_revocation_changes_nothing_witness :
  run Anchored.revoke Anchored.stalled
  = inl CasperAgeProofService.CASPER_REVOKE_FAILED
  ∧ age_proofs (exec Anchored.revoke Anchored.stalled) = age_proofs Anchored.stalled.
Proof.
  assert (run Anchored.revoke Anchored.stalled
          = inl CasperAgeProofService.CASPER_REVOKE_FAILED) as Hrun
    by (vm_compute; reflexivity).
  split; [exact Hrun|].
  exact (proj1 (proj2 (proj2 (refused_revocation_changes_nothing Scenario.digest
           None Anchored.stalled Scenario.wallet _ Hrun)))).
Defined.

Lemma anchored_revocation_is_idempotent_witness :
  ∃ answer,
    run Anchored.revoke Anchored.w1 = inr answer
    ∧ Anchored.revoke Anchored.w2 = (inr answer, Anchored.w2).
Proof.
  eexists. split; [vm_compute; reflexivity|].
  apply (anchored_revocation_is_idempotent Scenario.digest None Anchored.w1
           Scenario.wallet).
  vm_compute. reflexivity.
Defined.

Lemma status_after_anchored_revocation_witness :
  ∃ st,
    run (CasperAgeProofService.getAge18PlusStatus Scenario.wallet) Anchored.w2
    = inr st
    ∧ Status.is_major st = false ∧ Status.revoked st = true.
Proof.
  destruct (run Anchored.revoke Anchored.w1) as [e|answer] eqn:Hrun;
    [vm_compute in Hrun; discriminate|].
  destruct (status_after_anchored_revocation Scenario.digest None Anchored.w1
              Scenario.wallet answer Hrun) as (st & Hst & _ & Hmajor & Hrevoked & _).
  - vm_compute in Hrun. by injection Hrun as <-.
  - exists st. split; [exact Hst|]. split; [exact Hmajor|exact Hrevoked].
Defined.

Lemma minor_computation_supersedes_anchored_claim_witness :
  ∃ st,
    run (CasperAgeProofService.getAge18PlusStatus Scenario.wallet) Anchored.w1'
    = inr st
    ∧ Status.has_proof st = true
    ∧ Status.is_major st = false
    ∧ Status.revoked st = false
    ∧ Status.deploy_hash st = None.
Proof.
  refine (proj2 (minor_computation_supersedes_anchored_claim Scenario.digest None
            Anchored.w1 Scenario.wallet Scenario.child 2 None _ _)).
  - vm_compute. reflexivity.
  - intros j r Hj. destruct j as [|j].
    + vm_compute in Hj. injection Hj as <-. vm_compute. reflexivity.
    + destruct j; discriminate Hj.
Defined.

Lemma bearer_token_of_header_witness :
  JwtAuthGuard.bearer_token "Bearer  token" = Some "token".
Proof.
  apply (proj1 bearer_token_of_header "  " "t"%char "oken"); try reflexivity.
  discriminate.
Defined.

Lemma revoke_route_acts_on_token_wallet_witness :
  age_proofs
    (exec (ProofController.revoke_route Requests.tokens Requests.authorization
             None (Some Scenario.wallet)) Scenario.w1) !! 0%nat
  = Some Scenario.active_row.
Proof.
  pose proof (revoke_route_acts_on_token_wallet Requests.tokens Scenario.w1
                Requests.authorization None (Some Scenario.wallet)) as Hroute.
  change (JwtAuthGuard.canActivate Requests.tokens Requests.authorization)
    with (@inr Exception _
            {| JwtPayload.sub := Requests.visitor;
               JwtPayload.wallet_pubkey := Requests.visitor;
               JwtPayload.scope := ["proof:create"; "proof:revoke"] |}) in Hroute.
  cbv beta iota zeta in Hroute.
  apply (proj2 Hroute).
  - vm_compute. discriminate.
  - vm_compute. reflexivity.
Defined.

Lemma verify_agrees_with_status_route_witness :
  exec (ProofController.status_route Requests.tokens Requests.authorization)
    Scenario.w1
  = tick Scenario.w1.
Proof.
  destruct (run (ApiVerifyController.verify (Some Requests.visitor) None) Scenario.w1)
    as [e|answer] eqn:Hrun; [vm_compute in Hrun; discriminate|].
  refine (proj1 (proj2 (verify_agrees_with_status_route Requests.tokens Scenario.w1
            Requests.authorization Requests.visitor None _ answer _ _ Hrun))).
  - vm_compute. reflexivity.
  - reflexivity.
Defined.

Lemma admin_listing_is_guarded_and_bounded_witness :
  ∃ l,
    run (AdminController.age_proofs_route (Some "secret") (Some " secret ")
           (Some Scenario.wallet) (Some "1")) Scenario.w3 = inr l
    ∧ (ProofList.count l ≤ 500)%nat.
Proof.
  eexists. split; [vm_compute; reflexivity|].
  eapply (proj2 (admin_listing_is_guarded_and_bounded Scenario.w3 (Some "secret")
                   (Some " secret ") (Some Scenario.wallet) (Some "1"))).
  vm_compute. reflexivity.
Defined.

Lemma callback_accepts_plausible_dates_witness :
  OnboardingController.mockFcCallback Requests.echo (Some "session-1")
    (Some "1") (Some "1") (Some "2000") Scenario.w0
  = (inr {| OnboardingController.Params.sessionId := "session-1";
            OnboardingController.Params.day := 1;
            OnboardingController.Params.month := 1;
            OnboardingController.Params.year := 2000 |}, Scenario.w0).
Proof.
  refine (callback_accepts_plausible_dates Requests.echo Scenario.w0 "session-1"
            1 1 2000 _ _).
  - discriminate.
  - unfold plausible_date. lia.
Defined.

Lemma listing_is_newest_first_witness :
  ∃ l,
    listAgeProofsForWallet Scenario.wallet 1 Scenario.w3 = (inr l, Scenario.w3)
    ∧ ProofList.count l = 1%nat.
Proof.
  destruct (listing_is_newest_first Scenario.w3 Scenario.wallet 1)
    as (l & Hrun & _ & _ & Hcount & _); [lia|].
  exists l. split; [exact Hrun|]. rewrite Hcount. vm_compute. reflexivity.
Defined.
